(** * emlearn.trees: flattening, merging and de-duplicating decision forests

    A shallow embedding of [src/emlearn/trees.py].  Python lists are Rocq
    lists, Python [int]s and numpy integers are [Z], numpy [float64] values
    are [spec_float] at precision 53, Python [dict]s and [set]s are stdpp's
    [gmap] and [gset], and a raised exception is the [Raise] branch of
    [result].  Node objects that the code rewrites in place live in an
    explicit heap where a statement depends on sharing. *)

From stdpp Require Import gmap strings list fin_maps functions.
From Stdlib Require Import ZArith Floats.SpecFloat DecimalString.
Open Scope Z_scope.

(** ** Exceptions and the error monad *)

Inductive exn :=
  | AssertionError
  | IndexError
  | KeyError
  | UnboundLocalError
  | ZeroDivisionError
  | ValueError (msg : string).

Inductive result (A : Type) :=
  | OK (a : A)
  | Raise (e : exn).
Arguments OK {A} a.
Arguments Raise {A} e.

#[global] Instance result_bind : MBind result := λ A B k c,
  match c with
  | OK a => k a
  | Raise e => Raise e
  end.

(** [assert cond] *)
Definition py_assert (cond : bool) : result unit :=
  if cond then OK tt else Raise AssertionError.

(** [for x in xs: acc = body(acc, x)], stopping at the first exception. *)
Fixpoint for_each {A S} (body : S → A → result S) (xs : list A) (acc : S)
  : result S :=
  match xs with
  | [] => OK acc
  | x :: xs' => acc' ← body acc x; for_each body xs' acc'
  end.

(** [len(xs)] *)
Definition len {A} (xs : list A) : Z := Z.of_nat (length xs).

(** [enumerate(xs)] *)
Definition enumerate {A} (xs : list A) : list (Z * A) :=
  zip (seqZ 0 (len xs)) xs.

(** ** numpy *)

(** A [float64] scalar: sign, 53-bit mantissa, exponent; zeros, infinities
    and NaN. *)
Abbreviation float64 := spec_float.

(** Conversion of an integer to [float64]. *)
Definition float64_of_Z (z : Z) : float64 := binary_normalize 53 1024 z 0 false.

Definition is_nan (x : float64) : bool :=
  match x with S754_nan => true | _ => false end.

(** [a[i]] on a one-dimensional array: a negative index counts from the end,
    an index outside [-len(a), len(a)) raises. *)
Definition np_getitem {A} (a : list A) (i : Z) : result A :=
  let n := len a in
  if (i <? - n) || (n <=? i) then Raise IndexError
  else match a !! Z.to_nat (if i <? 0 then i + n else i) with
       | Some x => OK x
       | None => Raise IndexError
       end.

(** [numpy.argmax] on a float vector: the first index of the maximum: the
    running best is replaced when [not (x <= best)], and the scan stops at
    the first NaN. *)
Fixpoint argmax_scan (xs : list float64) (i : Z) (best : float64) (best_i : Z)
  : Z :=
  match xs with
  | [] => best_i
  | x :: xs' =>
      if is_nan best then best_i
      else if negb (SFleb x best) then argmax_scan xs' (i + 1) x i
      else argmax_scan xs' (i + 1) best best_i
  end.

Definition numpy_argmax (v : list float64) : result Z :=
  match v with
  | [] => Raise (ValueError "attempt to get argmax of an empty sequence")
  | x :: xs => OK (argmax_scan xs 1 x 0)
  end.

(** [numpy.arange(0, stop)] *)
Definition numpy_arange (stop : Z) : list Z := seqZ 0 stop.

(** [numpy.digitize(p, bins)] for increasing integer [bins]: the code of [x]
    is the insertion point to the right of [x], the number of bins [b] for
    which [x < b] fails (a NaN goes past every bin). *)
Definition digitize1 (bins : list Z) (x : float64) : Z :=
  len (filter (λ b, SFltb x (float64_of_Z b) = false) bins).

Definition numpy_digitize (p : list float64) (bins : list Z) : list Z :=
  map (digitize1 bins) p.

(** [.astype(numpy.uint8)] on an integer array. *)
Definition astype_uint8 (a : list Z) : list Z := map (λ d, d mod 256) a.

(** ** quantize_probabilities *)

Definition quantize_probabilities (p : list float64) (bits : Z)
  : result (list Z) :=
  py_assert (bits <=? 8);;
  py_assert (1 <=? bits);;
  let steps := 2 ^ bits - 1 in
  let bins := numpy_arange steps in
  let digits := numpy_digitize p bins in
  let out := astype_uint8 digits in
  OK out.

(** ** Data *)

(** The source tree of the tree-learning library: parallel arrays indexed by
    node id.  [value] has shape [node_count, n_outputs, n_classes];
    [value_shape1] is [tree.value.shape[1]]. *)
Record Tree := mkTree {
  node_count : Z;
  children_left : list Z;
  children_right : list Z;
  feature : list Z;
  threshold : list float64;
  value : list (list (list float64));
  value_shape1 : Z;
}.

(** A decision node, the four-element list [[feature, th, left, right]]. *)
Record Node := mkNode {
  node_feature : Z;
  node_th : float64;
  node_left : Z;
  node_right : Z;
}.

(** A leaf payload: a class index ([argmax]), a regression value ([value]) or
    an array of quantized class proportions ([probabilities]). *)
Inductive Leaf :=
  | LClass (c : Z)
  | LValue (v : float64)
  | LProba (codes : list Z).

(** A flattened tree [(decision_nodes, leaf_nodes)] and a forest
    [(nodes, roots, leaves)]. *)
Definition FlatTree : Type := list Node * list Leaf.

Record Forest := mkForest {
  nodes : list Node;
  roots : list Z;
  leaves : list Leaf;
}.

(** ** flatten_tree *)

Section flatten_tree.
Variable tree : Tree.
Variable leaf : string.
Variable leaf_bits : Z.

(** The payload [val] that [add_leaf] computes for source node [idx]. *)
Definition leaf_data (idx : Z) : result Leaf :=
  value ← np_getitem (value tree) idx;
  if String.eqb leaf "argmax" then
    v0 ← np_getitem value 0;
    c ← numpy_argmax v0;
    OK (LClass c)
  else if String.eqb leaf "value" then
    v0 ← np_getitem value 0;
    v00 ← np_getitem v0 0;
    OK (LValue v00)
  else if String.eqb leaf "probabilities" then
    v0 ← np_getitem value 0;
    q ← quantize_probabilities v0 leaf_bits;
    OK (LProba q)
  else Raise UnboundLocalError.

(** [add_leaf(idx)] appends to [leaf_nodes] and returns the encoded
    reference. *)
Definition add_leaf (idx : Z) (leaf_nodes : list Leaf)
  : result (Z * list Leaf) :=
  val ← leaf_data idx;
  let leaf_idx := len leaf_nodes in
  let leaf_nodes := leaf_nodes ++ [val] in
  let encoded := - leaf_idx - 1 in
  py_assert (encoded <=? -1);;
  OK (encoded, leaf_nodes).

Definition process_child (idx : Z) (leaf_nodes : list Leaf)
  : result (Z * list Leaf) :=
  l ← np_getitem (children_left tree) idx;
  is_leaf ← (if l =? -1
              then r ← np_getitem (children_right tree) idx; OK (r =? -1)
              else OK false);
  if is_leaf : bool then add_leaf idx leaf_nodes
  else OK (idx, leaf_nodes).

(** [zip(children_left, children_right, feature, threshold, value)]: as
    long as the shortest array.  The loop body does not read [value]. *)
Definition zipped : list (Z * Z * Z * float64) :=
  zip_with (λ '(l, r, f, th) _, (l, r, f, th))
    (zip (zip (zip (children_left tree) (children_right tree))
            (feature tree)) (threshold tree))
    (value tree).

(** The loop state: [decision_nodes], [leaf_nodes] and
    [decision_node_mapping] ([leaves_seen] is only ever incremented). *)
Definition scan_state : Type := list Node * list Leaf * gmap Z Z.

Definition scan_node (st : scan_state) (item : Z * (Z * Z * Z * float64))
  : result scan_state :=
  let '(decision_nodes, leaf_nodes, decision_node_mapping) := st in
  let '(node_no, (c_left, c_right, feature, th)) := item in
  if (c_left =? -1) && (c_right =? -1) then OK st
  else
    '(c_left, leaf_nodes) ← process_child c_left leaf_nodes;
    '(c_right, leaf_nodes) ← process_child c_right leaf_nodes;
    let node := mkNode feature th c_left c_right in
    let out_idx := len decision_nodes in
    OK (decision_nodes ++ [node], leaf_nodes,
        <[node_no := out_idx]> decision_node_mapping).

(** [decision_node_mapping[ref]] for a non-negative reference. *)
Definition renumber (decision_node_mapping : gmap Z Z) (ref : Z) : result Z :=
  if 0 <=? ref then
    match decision_node_mapping !! ref with
    | Some out_idx => OK out_idx
    | None => Raise KeyError
    end
  else OK ref.

Definition renumber_node (decision_node_mapping : gmap Z Z) (node : Node)
  : result Node :=
  l ← renumber decision_node_mapping (node_left node);
  r ← renumber decision_node_mapping (node_right node);
  OK (mkNode (node_feature node) (node_th node) l r).
End flatten_tree.

(** [for node in nodes: node = f(node)], collecting the rewritten nodes. *)
Fixpoint map_result {A B} (f : A → result B) (xs : list A) : result (list B) :=
  match xs with
  | [] => OK []
  | x :: xs' => y ← f x; ys ← map_result f xs'; OK (y :: ys)
  end.

(** ** assert_node_references_valid, assert_forest_valid *)

(** The last but one assertion tests [invalid_leaves_left] a second time, as
    line 169 of the source does; [invalid_leaves_right] is computed and not
    tested. *)
Definition assert_node_references_valid
    (nodes : list Node) (leaves : list Leaf) (roots : list Z) : result unit :=
  let left_children : gset Z :=
    list_to_set (node_left <$> filter (λ n, 0 ≤ node_left n) nodes) in
  let right_children : gset Z :=
    list_to_set (node_right <$> filter (λ n, 0 ≤ node_right n) nodes) in
  let node_idxs : gset Z := list_to_set (seqZ 0 (len nodes)) in
  let invalid_children_left := left_children ∖ node_idxs in
  py_assert (bool_decide (invalid_children_left = ∅));;
  let invalid_children_right := right_children ∖ node_idxs in
  py_assert (bool_decide (invalid_children_right = ∅));;
  let extranous_nodes :=
    node_idxs ∖ (left_children ∪ right_children ∪ list_to_set roots) in
  py_assert (bool_decide (extranous_nodes = ∅));;
  let left_leaves : gset Z :=
    list_to_set ((λ n, - node_left n - 1) <$>
                 filter (λ n, node_left n < 0) nodes) in
  let right_leaves : gset Z :=
    list_to_set ((λ n, - node_right n - 1) <$>
                 filter (λ n, node_right n < 0) nodes) in
  let leaf_idxs : gset Z := list_to_set (seqZ 0 (len leaves)) in
  let invalid_leaves_left := left_leaves ∖ leaf_idxs in
  py_assert (bool_decide (invalid_leaves_left = ∅));;
  let invalid_leaves_right := right_leaves ∖ leaf_idxs in
  py_assert (bool_decide (invalid_leaves_left = ∅));;
  let extranous_leaves := leaf_idxs ∖ (left_leaves ∪ right_leaves) in
  py_assert (bool_decide (extranous_leaves = ∅)).

Definition assert_forest_valid (forest : Forest) : result unit :=
  let '(mkForest nodes roots leaves) := forest in
  assert_node_references_valid nodes leaves roots.

(** ** flatten_tree, continued *)

Definition flatten_tree (tree : Tree) (leaf : string) (leaf_bits : Z)
  : result FlatTree :=
  py_assert (node_count tree =? len (value tree));;
  py_assert (value_shape1 tree =? 1);;
  '(decision_nodes, leaf_nodes, decision_node_mapping) ←
    for_each (scan_node tree leaf leaf_bits) (enumerate (zipped tree))
             ([], [], ∅);
  decision_nodes ←
    map_result (renumber_node decision_node_mapping) decision_nodes;
  let total_nodes := len decision_nodes + len leaf_nodes in
  py_assert (total_nodes =? node_count tree);;
  assert_node_references_valid decision_nodes leaf_nodes [0];;
  OK (decision_nodes, leaf_nodes).

(** ** flatten_forest *)

Record merge_state := mkMerge {
  tree_roots : list Z;
  decision_nodes_offset : Z;
  leaf_nodes_offset : Z;
  forest_nodes : list Node;
  forest_leaves : list Leaf;
}.

(** The offset of one child reference: decision nodes move up by the number
    of decision nodes stored so far, leaves move down by the number of
    leaves. *)
Definition offset_ref (decision_nodes_offset leaf_nodes_offset ref : Z) : Z :=
  if 0 <=? ref then ref + decision_nodes_offset else ref - leaf_nodes_offset.

Definition offset_node (decision_nodes_offset leaf_nodes_offset : Z)
    (node : Node) : Node :=
  mkNode (node_feature node) (node_th node)
    (offset_ref decision_nodes_offset leaf_nodes_offset (node_left node))
    (offset_ref decision_nodes_offset leaf_nodes_offset (node_right node)).

(** One turn of [for tree in trees]; [flatten_tree(tree, leaf=leaf)] runs
    with the default [leaf_bits=8]. *)
Definition merge_tree (leaf : string) (st : merge_state) (tree : Tree)
  : result merge_state :=
  '(decision_nodes, leaf_nodes) ← flatten_tree tree leaf 8;
  let root := 0 + decision_nodes_offset st in
  let decision_nodes :=
    offset_node (decision_nodes_offset st) (leaf_nodes_offset st)
      <$> decision_nodes in
  let st' :=
    {| tree_roots := tree_roots st ++ [root];
       decision_nodes_offset := decision_nodes_offset st + len decision_nodes;
       leaf_nodes_offset := leaf_nodes_offset st + len leaf_nodes;
       forest_nodes := forest_nodes st ++ decision_nodes;
       forest_leaves := forest_leaves st ++ leaf_nodes |} in
  assert_forest_valid
    (mkForest (forest_nodes st') (tree_roots st') (forest_leaves st'));;
  OK st'.

Definition flatten_forest (trees : list Tree) (leaf : string) : result Forest :=
  st ← for_each (merge_tree leaf) trees (mkMerge [] 0 0 [] []);
  let f := mkForest (forest_nodes st) (tree_roots st) (forest_leaves st) in
  assert_forest_valid f;;
  OK f.

(** ** remove_duplicate_leaves *)

(** The truth value of an array of booleans: numpy defines it for an array
    of one element and raises for any other. *)
Definition array_truth (bs : list bool) : result bool :=
  match bs with
  | [b] => OK b
  | _ => Raise (ValueError "The truth value of an array is ambiguous")
  end.

(** Elementwise [a == b] on integer arrays, a one-element array being
    stretched to the length of the other. *)
Definition array_eq (a b : list Z) : result (list bool) :=
  if (length a =? length b)%nat then OK (zip_with Z.eqb a b)
  else match a, b with
       | [x], _ => OK (Z.eqb x <$> b)
       | _, [y] => OK ((λ x, x =? y) <$> a)
       | _, _ => Raise (ValueError "operands could not be broadcast together")
       end.

(** [a == b] on two leaf payloads, as the truth value that [in] and
    [list.index] take of it.  An integer meets a float as that float; a NaN
    equals nothing.  Both operators try identity before [==]: the payloads of
    a forest are taken to be distinct objects, as [flatten_tree] makes them,
    so identity never holds between two positions of a leaf list. *)
Definition py_eq (a b : Leaf) : result bool :=
  match a, b with
  | LClass x, LClass y => OK (x =? y)
  | LValue x, LValue y => OK (SFeqb x y)
  | LClass x, LValue y => OK (SFeqb (float64_of_Z x) y)
  | LValue x, LClass y => OK (SFeqb x (float64_of_Z y))
  | LProba xs, LProba ys => bs ← array_eq xs ys; array_truth bs
  | LProba xs, LClass y => array_truth ((λ x, x =? y) <$> xs)
  | LClass x, LProba ys => array_truth (Z.eqb x <$> ys)
  | LProba xs, LValue y => array_truth ((λ x, SFeqb (float64_of_Z x) y) <$> xs)
  | LValue x, LProba ys => array_truth ((λ y, SFeqb x (float64_of_Z y)) <$> ys)
  end.

(** [unique_leaves.index(node) if node in unique_leaves else None]: the
    position of the first element equal to [node], counted from [i].  The
    identity test that [in] and [list.index] make before [==] is left out,
    as for [py_eq]: this is the search among the leaves of a forest that
    [flatten_forest] or [remove_duplicate_leaves] has made, which are
    distinct objects. *)
Fixpoint index_from (node : Leaf) (unique_leaves : list Leaf) (i : Z)
  : result (option Z) :=
  match unique_leaves with
  | [] => OK None
  | u :: rest =>
      same ← py_eq u node;
      if same : bool then OK (Some i) else index_from node rest (i + 1)
  end.

Definition dedup_leaf (st : list Leaf * gmap Z Z) (item : Z * Leaf)
  : result (list Leaf * gmap Z Z) :=
  let '(unique_leaves, remap_leaves) := st in
  let '(old_idx, node) := item in
  let old_encoded := - old_idx - 1 in
  found ← index_from node unique_leaves 0;
  let '(new_idx, unique_leaves) :=
    match found with
    | None => (len unique_leaves, unique_leaves ++ [node])
    | Some found => (found, unique_leaves)
    end in
  let new_encoded := - new_idx - 1 in
  OK (unique_leaves, <[old_encoded := new_encoded]> remap_leaves).

(** [a / b] on integers, for its exception only: the quotient
    [wasted_ratio] is not used. *)
Definition py_truediv (a b : Z) : result unit :=
  if b =? 0 then Raise ZeroDivisionError else OK tt.

(** [remap_leaves.get(ref, ref)] *)
Definition remap_get (remap_leaves : gmap Z Z) (ref : Z) : Z :=
  default ref (remap_leaves !! ref).

Definition remap_node (remap_leaves : gmap Z Z) (n : Node) : Node :=
  mkNode (node_feature n) (node_th n)
    (remap_get remap_leaves (node_left n))
    (remap_get remap_leaves (node_right n)).

(** The function on forest values: what the returned tuple holds.  The
    sharing of node objects between argument and result is the subject of
    [Heap] below. *)
Definition remove_duplicate_leaves (forest : Forest) : result Forest :=
  let '(mkForest nodes roots leaves) := forest in
  '(unique_leaves, remap_leaves) ←
    for_each dedup_leaf (enumerate leaves) ([], ∅);
  py_truediv (len leaves - len unique_leaves) (len nodes);;
  let nodes := remap_node remap_leaves <$> nodes in
  let f := mkForest nodes roots unique_leaves in
  assert_forest_valid f;;
  OK f.

(** ** Example trees *)

Definition f64_half : float64 := binary_normalize 53 1024 1 (-1) false.
Definition f64 (z : Z) : float64 := float64_of_Z z.

(** Example A: node 0 tests feature 0 against 0.5; nodes 1 and 2 are leaves
    that hold the class counts [3, 0] and [0, 2]. *)
Definition tree_A : Tree :=
  {| node_count := 3;
     children_left := [1; -1; -1];
     children_right := [2; -1; -1];
     feature := [0; -2; -2];
     threshold := [f64_half; f64 (-2); f64 (-2)];
     value := [ [[f64 3; f64 2]]; [[f64 3; f64 0]]; [[f64 0; f64 2]] ];
     value_shape1 := 1 |}.

(** A tree whose only node, the root, is a leaf. *)
Definition tree_single : Tree :=
  {| node_count := 1;
     children_left := [-1];
     children_right := [-1];
     feature := [-2];
     threshold := [f64 (-2)];
     value := [ [[f64 5; f64 0]] ];
     value_shape1 := 1 |}.

(** ** remove_duplicate_leaves on node objects

    [for n in nodes: n[2] = ...; n[3] = ...] assigns to the node objects that
    the list [nodes] of the argument refers to, and the returned tuple holds
    that same list.  A node object is a location of the heap; a forest tuple
    is seen through the heap by reading its node list. *)
Module Heap.
(** Every location holds a node object. *)
Abbreviation loc := nat (only parsing).
Abbreviation heap := (loc → Node) (only parsing).

Definition ForestRef : Type := list loc * list Z * list Leaf.

Definition view (h : heap) (forest : ForestRef) : Forest :=
  let '(nodes, roots, leaves) := forest in
  mkForest (h <$> nodes) roots leaves.

(** [n[2] = remap_leaves.get(n[2], n[2]); n[3] = ...] on the object [n]. *)
Definition remap_in_place (remap_leaves : gmap Z Z) (h : heap) (n : loc)
  : heap :=
  <[n := remap_node remap_leaves (h n)]> h.

(** The heap after the call, and its outcome. *)
Definition remove_duplicate_leaves (forest : ForestRef) (h : heap)
  : heap * result ForestRef :=
  let '(nodes, roots, leaves) := forest in
  match for_each dedup_leaf (enumerate leaves) ([], ∅) with
  | Raise e => (h, Raise e)
  | OK (unique_leaves, remap_leaves) =>
      match py_truediv (len leaves - len unique_leaves) (len nodes) with
      | Raise e => (h, Raise e)
      | OK _ =>
          let h := foldl (remap_in_place remap_leaves) h nodes in
          let f := (nodes, roots, unique_leaves) in
          match assert_forest_valid (view h f) with
          | Raise e => (h, Raise e)
          | OK _ => (h, OK f)
          end
      end
  end.
End Heap.

(** ** leaves_to_bytelist *)

(** A [float32] scalar: [spec_float] at precision 24. *)
Abbreviation float32 := spec_float.

(** [.astype(numpy.float32)]: rounding to nearest, ties to even. *)
Definition float32_of_float64 (x : float64) : float32 :=
  match x with
  | S754_finite s m e => binary_round 24 128 s m e
  | _ => x
  end.

Definition float32_of_Z (z : Z) : float32 := binary_normalize 24 128 z 0 false.

(** The IEEE-754 binary32 encoding: sign bit, 8 exponent bits with bias 127,
    23 fraction bits; a subnormal has exponent field 0, a NaN is the quiet
    NaN 0x7fc00000. *)
Definition float32_bits (x : float32) : Z :=
  let sign (s : bool) := if s then 2 ^ 31 else 0 in
  match x with
  | S754_zero s => sign s
  | S754_infinity s => sign s + 255 * 2 ^ 23
  | S754_nan => 255 * 2 ^ 23 + 2 ^ 22
  | S754_finite s m e =>
      if Z.pos m <? 2 ^ 23 then sign s + Z.pos m
      else sign s + (e + 150) * 2 ^ 23 + (Z.pos m - 2 ^ 23)
  end.

(** The four bytes of a 32-bit word, least significant first: [tobytes()]
    on a little-endian host. *)
Definition le_bytes4 (w : Z) : list Z :=
  [w mod 256; (w / 2 ^ 8) mod 256; (w / 2 ^ 16) mod 256; (w / 2 ^ 24) mod 256].

Definition float32_tobytes (x : float32) : list Z := le_bytes4 (float32_bits x).

Definition is_class (l : Leaf) : bool :=
  match l with LClass _ => true | _ => false end.

Definition is_scalar (l : Leaf) : bool :=
  match l with LProba _ => false | _ => true end.

(** [numpy.array(leaves).astype(numpy.float32)], flattened in row order: an
    integer array when every payload is an integer, a [float64] array when
    every payload is a scalar, a two-dimensional array when every payload is
    an array of one length; other shapes are refused. *)
Definition numpy_array_float32 (leaves : list Leaf) : result (list float32) :=
  if forallb is_class leaves then
    OK ((λ l, match l with LClass c => float32_of_Z c | _ => S754_nan end)
          <$> leaves)
  else if forallb is_scalar leaves then
    OK ((λ l, match l with
              | LClass c => float32_of_float64 (float64_of_Z c)
              | LValue v => float32_of_float64 v
              | LProba _ => S754_nan
              end) <$> leaves)
  else
    match leaves with
    | LProba row :: _ =>
        if forallb (λ l, match l with
                         | LProba r => (length r =? length row)%nat
                         | _ => false
                         end) leaves
        then OK (concat ((λ l, match l with
                              | LProba r => float32_of_Z <$> r
                              | _ => []
                              end) <$> leaves))
        else Raise (ValueError "inhomogeneous shape")
    | _ => Raise (ValueError "inhomogeneous shape")
    end.

(** What [leaves_to_bytelist] returns: the list it was given, or a list of
    byte values. *)
Inductive bytelist :=
  | Payloads (leaves : list Leaf)
  | Bytes (out : list Z).

Definition leaves_to_bytelist (leaves : list Leaf) (leaf_bits : Z)
  : result bytelist :=
  if leaf_bits =? 0 then OK (Payloads leaves)
  else if leaf_bits =? 32 then
    arr ← numpy_array_float32 leaves;
    let out := concat (float32_tobytes <$> arr) in
    let leaf_bytes := (leaf_bits + 7) / 8 in
    let expect_bytes := leaf_bytes * len leaves in
    py_assert (len out =? expect_bytes);;
    OK (Bytes out)
  else Raise (ValueError "Only 0 or 32 supported for leaf_bits").

(** ** Wrapper.__init__: building the forest *)

(** [str(n)] for an integer. *)
Definition str (n : Z) : string := NilZero.string_of_int (Z.to_int n).

(** Lines 564 to 567: the limit on the number of decision nodes. *)
Definition Wrapper_check_nodes (forest_ : Forest) : result unit :=
  let n_nodes := len (nodes forest_) in
  let max_nodes := 2 ^ 15 in
  if n_nodes >? max_nodes then
    Raise (ValueError ("Model has " +:+ str n_nodes +:+
                       " nodes. Max supported is " +:+ str max_nodes +:+
                       " nodes."))
  else OK tt.

(** The forest that [Wrapper.__init__] keeps in [self.forest_]; the leaf mode
    is ['value'] for a regressor and ['argmax'] otherwise. *)
Definition Wrapper_forest (regressor : bool) (trees : list Tree)
  : result Forest :=
  let leaf := if regressor then "value" else "argmax" in
  forest_ ← flatten_forest trees leaf;
  forest_ ← remove_duplicate_leaves forest_;
  Wrapper_check_nodes forest_;;
  OK forest_.

(** ** Predicates of the statements *)

(** Some decision node holds a negative child reference whose decoded index
    [-ref - 1] is outside the leaf array. *)
Definition dangling_ref (leaves : list Leaf) (ref : Z) : Prop :=
  ref < 0 ∧ ¬ (0 ≤ - ref - 1 < len leaves).

Definition has_dangling_leaf_reference (forest : Forest) : Prop :=
  ∃ n, n ∈ nodes forest ∧
       (dangling_ref (leaves forest) (node_left n) ∨
        dangling_ref (leaves forest) (node_right n)).

(** A source tree of one node, the root, that is a leaf. *)
Definition degenerate (tree : Tree) : Prop :=
  node_count tree = 1 ∧ children_left tree = [-1] ∧ children_right tree = [-1].

(** The roots of a merged forest: the running sum of the decision-node counts
    of the trees before each tree. *)
Fixpoint root_offsets (offset : Z) (sizes : list Z) : list Z :=
  match sizes with
  | [] => []
  | n :: sizes' => offset :: root_offsets (offset + n) sizes'
  end.

Definition decision_count (leaf : string) (tree : Tree) : Z :=
  match flatten_tree tree leaf 8 with
  | OK (decision_nodes, _) => len decision_nodes
  | Raise _ => 0
  end.

(** The decision node of Example A with the given child references. *)
Definition node_A (l r : Z) : Node := mkNode 0 f64_half l r.

(** One decision node, one leaf, and a right child reference [-2]. *)
Definition forest_dangling_right : Forest :=
  mkForest [node_A (-1) (-2)] [0] [LClass 0].

(** Every payload is a scalar, a class index or a regression value: the
    payloads of the leaf modes ['argmax'] and ['value']. *)
Definition scalar_leaves (ls : list Leaf) : Prop :=
  Forall (λ l, is_scalar l = true) ls.

(** [x] is the [float32] that the payload [l] is rounded to. *)
Definition rounds_to (l : Leaf) (x : float32) : Prop :=
  match l with
  | LClass c => x = float32_of_Z c ∨ x = float32_of_float64 (float64_of_Z c)
  | LValue v => x = float32_of_float64 v
  | LProba _ => False
  end.

(** No element of [unique_leaves] is found among the elements before it:
    the list holds each payload once, where it was first seen. *)
Definition first_seen (unique_leaves : list Leaf) : Prop :=
  ∀ i u, unique_leaves !! i = Some u →
         index_from u (take i unique_leaves) 0 = OK None.

(** A remapping that sends every key to itself. *)
Definition identity_remap (remap_leaves : gmap Z Z) : Prop :=
  ∀ k v, remap_leaves !! k = Some v → v = k.

(** [k] is the position of the payload [node] in [unique_leaves]: nothing
    before position [k] equals [node], and the element there is [node]
    itself or equals it. *)
Definition kept_at (unique_leaves : list Leaf) (node : Leaf) (k : Z) : Prop :=
  0 ≤ k ∧
  index_from node (take (Z.to_nat k) unique_leaves) 0 = OK None ∧
  ∃ u, unique_leaves !! Z.to_nat k = Some u ∧ (u = node ∨ py_eq u node = OK true).

(** The child reference [ref] into [leaves] has become [ref'] into
    [unique_leaves]: a reference to a leaf now refers to the position of its
    payload; any other reference is as it was. *)
Definition remapped (leaves unique_leaves : list Leaf) (ref ref' : Z) : Prop :=
  (∀ node, ref < 0 → leaves !! Z.to_nat (- ref - 1) = Some node →
           ∃ k, ref' = - k - 1 ∧ kept_at unique_leaves node k) ∧
  (0 ≤ ref ∨ len leaves ≤ - ref - 1 → ref' = ref).

(** What the scan over the leaves has established after the leaves [done]. *)
Definition remap_invariant (done unique_leaves : list Leaf)
    (remap_leaves : gmap Z Z) : Prop :=
  unique_leaves `sublist_of` done ∧
  (∀ j node, done !! j = Some node →
             ∃ k, remap_leaves !! (- Z.of_nat j - 1) = Some (- k - 1) ∧
                  kept_at unique_leaves node k) ∧
  (∀ key v, remap_leaves !! key = Some v →
            ∃ j, (j < length done)%nat ∧ key = - Z.of_nat j - 1) ∧
  (∀ i, (i < length unique_leaves)%nat →
        ∃ j, (j < length done)%nat ∧
             remap_leaves !! (- Z.of_nat j - 1) = Some (- Z.of_nat i - 1)).

(** The kept leaves are the payloads of the argument in the order in which
    they were first seen: every leaf of the argument is kept at some
    position; the kept leaf at position [i] is a leaf of the argument, and
    every leaf before it in the argument is kept at a position before
    [i]. *)
Definition in_first_seen_order (leaves unique_leaves : list Leaf) : Prop :=
  (∀ j node, leaves !! j = Some node → ∃ k, kept_at unique_leaves node k) ∧
  (∀ i u, unique_leaves !! i = Some u →
          ∃ j, leaves !! j = Some u ∧
               ∀ j' node, (j' < j)%nat → leaves !! j' = Some node →
                          ∃ k, k < Z.of_nat i ∧ kept_at unique_leaves node k).

(** The merged forest of Example B as objects: node object 0 is
    [{0, 0.5, -1, -2}] and node object 1 is [{0, 0.5, -3, -4}]. *)
Definition heap_B : nat → Node :=
  λ n, match n with
       | O => node_A (-1) (-2)
       | S _ => node_A (-3) (-4)
       end.

Definition forest_B_ref : Heap.ForestRef :=
  ([0; 1]%nat, [0; 1], [LClass 0; LClass 1; LClass 0; LClass 1]).

(** *** The quantization as the specification words it *)

(** [v / v.sum()]: a value vector as class proportions. *)
Definition float64_sum (v : list float64) : float64 :=
  foldl (SFadd 53 1024) (S754_zero false) v.

Definition normalize (v : list float64) : list float64 :=
  (λ x, SFdiv 53 1024 x (float64_sum v)) <$> v.

(** The codes respect the edges: a value at or above edge [k] has a code of
    at least [k + 1]. *)
Definition digitizes (edges p : list float64) (codes : list Z) : Prop :=
  ∀ i x c k e,
    p !! i = Some x → codes !! i = Some c → edges !! k = Some e →
    SFleb e x = true → Z.of_nat k + 1 ≤ c.

(** The edges lie in the range of the values: none is above every value. *)
Definition within_value_range (edges p : list float64) : Prop :=
  ∀ e, e ∈ edges → ∃ x, x ∈ p ∧ SFleb e x = true.

Definition f64_quarter : float64 := binary_normalize 53 1024 1 (-2) false.
Definition f64_three_quarters : float64 := binary_normalize 53 1024 3 (-2) false.

(** Example A with the value rows [row1] and [row2] at its two leaves. *)
Definition tree_A_with (row1 row2 : list float64) : Tree :=
  {| node_count := 3;
     children_left := [1; -1; -1];
     children_right := [2; -1; -1];
     feature := [0; -2; -2];
     threshold := [f64_half; f64 (-2); f64 (-2)];
     value := [ [[f64 3; f64 2]]; [row1]; [row2] ];
     value_shape1 := 1 |}.

(** The integer edges [0, 1, ..., 254] compare as integers once they are
    [float64] values. *)
Definition float64_edges_ordered : bool :=
  forallb (λ k, forallb (λ b, SFleb (float64_of_Z b) (float64_of_Z k))
                        (seqZ 0 (k + 1)))
          (seqZ 0 255).

(** What the validator tests: decision-node references are in range, every
    decision node is referred to or is a root, left leaf references are in
    range, and every leaf is referred to.  Right leaf references are not
    tested for their range. *)
Definition references_accepted (ns : list Node) (ls : list Leaf) (rs : list Z)
  : Prop :=
  (∀ n, n ∈ ns → 0 ≤ node_left n → node_left n < len ns) ∧
  (∀ n, n ∈ ns → 0 ≤ node_right n → node_right n < len ns) ∧
  (∀ i, 0 ≤ i < len ns →
        (∃ n, n ∈ ns ∧ (node_left n = i ∨ node_right n = i)) ∨ i ∈ rs) ∧
  (∀ n, n ∈ ns → node_left n < 0 → - node_left n - 1 < len ls) ∧
  (∀ i, 0 ≤ i < len ls →
        ∃ n, n ∈ ns ∧ (node_left n = - i - 1 ∨ node_right n = - i - 1)).

(** [n] copies of Example A, merged: tree [j] has the root [j] and the
    leaves [2j] and [2j + 1]. *)
Definition nodes_A (n : nat) : list Node :=
  (λ j, node_A (- (2 * j) - 1) (- (2 * j) - 2)) <$> seqZ 0 (Z.of_nat n).

Fixpoint leaves_A (n : nat) : list Leaf :=
  match n with
  | O => []
  | S n' => LClass 0 :: LClass 1 :: leaves_A n'
  end.

Definition forest_A (n : nat) : Forest :=
  mkForest (nodes_A n) (seqZ 0 (Z.of_nat n)) (leaves_A n).

(** The same forest with its leaves de-duplicated. *)
Definition forest_A_unique (n : nat) : Forest :=
  mkForest ((λ _, node_A (-1) (-2)) <$> seqZ 0 (Z.of_nat n))
    (seqZ 0 (Z.of_nat n)) [LClass 0; LClass 1].

(** The state of [flatten_forest] after [n] copies of Example A. *)
Definition merged_A (n : nat) : merge_state :=
  mkMerge (seqZ 0 (Z.of_nat n)) (Z.of_nat n) (2 * Z.of_nat n)
    (nodes_A n) (leaves_A n).

(** ** Further definitions *)

(** *** flatten_forest as a concatenation *)

(** The decision nodes of the flattened trees, each tree shifted by the
    numbers of decision nodes and of leaves of the trees before it. *)
Fixpoint concat_offset (decision_nodes_offset leaf_nodes_offset : Z)
    (flats : list FlatTree) : list Node :=
  match flats with
  | [] => []
  | (decision_nodes, leaf_nodes) :: flats' =>
      (offset_node decision_nodes_offset leaf_nodes_offset <$> decision_nodes)
      ++ concat_offset (decision_nodes_offset + len decision_nodes)
                       (leaf_nodes_offset + len leaf_nodes) flats'
  end.

Definition concat_forest (flats : list FlatTree) : Forest :=
  mkForest (concat_offset 0 0 flats)
    (root_offsets 0 ((λ flat : FlatTree, len flat.1) <$> flats))
    (concat (snd <$> flats)).

(** The nodes of the source trees, counted together. *)
Definition total_node_count (trees : list Tree) : Z :=
  foldr (λ tree total, node_count tree + total) 0 trees.

(** A merge state whose offsets are the lengths of its arrays and whose
    forest the validator accepts. *)
Definition merge_state_ok (st : merge_state) : Prop :=
  decision_nodes_offset st = len (forest_nodes st) ∧
  leaf_nodes_offset st = len (forest_leaves st) ∧
  references_accepted (forest_nodes st) (forest_leaves st) (tree_roots st).

(** A source tree without nodes. *)
Definition empty_tree (tree : Tree) : Prop :=
  node_count tree = 0 ∧ value tree = [] ∧ value_shape1 tree = 1.

(** *** generate_c_nodes *)

Definition newline : string := String (Ascii.ascii_of_nat 10) EmptyString.

Section generate_c_nodes.
(** [cgen.constant(value, dtype=dtype)], the text of a numeric constant: the
    module [cgen] is not part of the sources, and the function is a
    parameter that may raise. *)
Variable cgen_constant : float64 → string → result string.

Definition assert_valid_child (value : Z) : result unit :=
  let child_value_max := 2 ^ 15 in
  let child_value_min := - 2 ^ 15 in
  py_assert (child_value_min <=? value);;
  py_assert (value <=? child_value_max).

(** ["{{ {}, {}, {}, {} }}".format(feature, value, left, right)] *)
Definition make_node (dtype : string) (node : Node) : result string :=
  let '(mkNode feature value left_index right_index) := node in
  let c_left := left_index in
  let c_right := right_index in
  assert_valid_child c_left;;
  assert_valid_child c_right;;
  value ← cgen_constant value dtype;
  OK ("{ " +:+ str feature +:+ ", " +:+ value +:+ ", " +:+ str c_left +:+
      ", " +:+ str c_right +:+ " }").

Definition generate_c_nodes (flat : list Node) (name dtype : string)
  : result string :=
  structs ← map_result (make_node dtype) flat;
  let nodes_structs := String.concat ("," +:+ newline +:+ "  ") structs in
  let nodes_name := name in
  let nodes_length := len flat in
  OK ("EmlTreesNode " +:+ nodes_name +:+ "[" +:+ str nodes_length +:+ "] = {"
      +:+ newline +:+ "  " +:+ nodes_structs +:+ " " +:+ newline +:+ "};").
End generate_c_nodes.

(** Both child references fit the bounds of [assert_valid_child]. *)
Definition children_in_bounds (node : Node) : Prop :=
  (- 2 ^ 15 ≤ node_left node ≤ 2 ^ 15) ∧ (- 2 ^ 15 ≤ node_right node ≤ 2 ^ 15).

(** *** Wrapper.__init__: the leaf bit width *)

(** [leaf_bits] as [Wrapper.__init__] keeps it: the argument, or by default
    0 for a classifier and 32 for a regressor. *)
Definition Wrapper_leaf_bits (regressor : bool) (leaf_bits : option Z) : Z :=
  match leaf_bits with
  | None => if negb regressor then 0 else 32
  | Some leaf_bits => leaf_bits
  end.

(** The integer edges [0, 1, ..., 254] are strictly increasing once they
    are [float64] values. *)
Definition float64_edges_increasing : bool :=
  forallb (λ b, forallb (λ k, SFltb (float64_of_Z k) (float64_of_Z b))
                        (seqZ 0 b))
          (seqZ 0 255).

(** Every payload of a leaf list is a class index that is not negative. *)
Definition class_leaves (ls : list Leaf) : Prop :=
  Forall (λ l, ∃ c, l = LClass c ∧ 0 ≤ c) ls.

(** Every payload of a leaf list is a regression value. *)
Definition value_leaves (ls : list Leaf) : Prop :=
  Forall (λ l, ∃ v, l = LValue v) ls.


(** *** Wrapper.__init__: the leaves handed to the 'pymodule' classifier *)

(** [leaves_to_bytelist(leaves, leaf_bits=self.leaf_bits)] on the forest
    that the constructor keeps: the value [leaf_bytes] of the ['pymodule']
    branch.  The assertions of that branch on the length of a node and on
    the type of [roots] hold of every forest value. *)
Definition Wrapper_leaf_bytes (regressor : bool) (leaf_bits : option Z)
    (trees : list Tree) : result bytelist :=
  forest_ ← Wrapper_forest regressor trees;
  let '(mkForest nodes roots leaves) := forest_ in
  leaves_to_bytelist leaves (Wrapper_leaf_bits regressor leaf_bits).

(** Every payload is an array of [k] codes. *)
Definition array_leaves (k : Z) (ls : list Leaf) : Prop :=
  Forall (λ l, ∃ codes, l = LProba codes ∧ len codes = k) ls.

(** *** Leaf references *)

(** In the source tree every node that is not a leaf (both children -1)
    names two children by indices that are not negative. *)
Definition children_paired (tree : Tree) : Prop :=
  Forall (λ item : Z * Z * Z * float64,
            let '(c_left, c_right, _, _) := item in
            (c_left = -1 ∧ c_right = -1) ∨ (0 ≤ c_left ∧ 0 ≤ c_right))
         (zipped tree).

(** Every negative child reference, left or right, decodes to an index of
    the leaf array. *)
Definition leaf_refs_in_range (ns : list Node) (ls : list Leaf) : Prop :=
  Forall (λ n, (node_left n < 0 → - node_left n - 1 < len ls) ∧
               (node_right n < 0 → - node_right n - 1 < len ls)) ns.

(** Every child reference is an index of the node array or decodes to an
    index of the leaf array. *)
Definition refs_in_range (forest : Forest) : Prop :=
  Forall (λ n, - len (leaves forest) ≤ node_left n < len (nodes forest) ∧
               - len (leaves forest) ≤ node_right n < len (nodes forest))
         (nodes forest).

(** *** The tests of the decision nodes *)

(** The feature and the threshold that a decision node tests. *)
Definition node_test (n : Node) : Z * float64 := (node_feature n, node_th n).

(** The test of a source node that is not a leaf; nothing for a leaf. *)
Definition tests_of_item (item : Z * Z * Z * float64) : list (Z * float64) :=
  let '(c_left, c_right, feature, th) := item in
  if (c_left =? -1) && (c_right =? -1) then [] else [(feature, th)].

(** The tests of the inner nodes of a source tree, in the order of the
    node ids. *)
Definition inner_tests (tree : Tree) : list (Z * float64) :=
  concat (tests_of_item <$> zipped tree).

(** *** The shape of a flattened tree *)

(** An item of the scan of [flatten_tree]: the node id with the children,
    the feature and the threshold of the source node. *)
Abbreviation scan_item := (Z * (Z * Z * Z * float64))%type (only parsing).

(** The item itself when the source node is not a leaf. *)
Definition keep_inner (x : scan_item) : list scan_item :=
  let '(_, (c_left, c_right, _, _)) := x in
  if (c_left =? -1) && (c_right =? -1) then [] else [x].

Definition inner_of (items : list scan_item) : list scan_item :=
  concat (keep_inner <$> items).

(** The inner nodes of a source tree, in the order of the node ids. *)
Definition inner_items (tree : Tree) : list scan_item :=
  inner_of (enumerate (zipped tree)).

Section flattened.
Variable tree : Tree.
Variable leaf : string.
Variable leaf_bits : Z.
Variable leaf_nodes : list Leaf.

(** During the scan: the reference [ref] stands for the source child [c],
    as a reference to a leaf that holds the payload of [c], or as the node
    id [c] itself. *)
Definition scanned_child (c ref : Z) : Prop :=
  (ref < 0 ∧ ∃ val, leaf_data tree leaf leaf_bits c = OK val ∧
                    leaf_nodes !! Z.to_nat (- ref - 1) = Some val) ∨
  (ref = c ∧ 0 ≤ c).

Definition scanned (x : scan_item) (n : Node) : Prop :=
  let '(_, (c_left, c_right, feature, th)) := x in
  node_feature n = feature ∧ node_th n = th ∧
  scanned_child c_left (node_left n) ∧ scanned_child c_right (node_right n).

(** In the result: the reference [ref] stands for the source child [c], as
    a reference to a leaf that holds the payload of [c], or as the position
    of [c] among the inner nodes. *)
Definition child_of (c ref : Z) : Prop :=
  (ref < 0 ∧ ∃ val, leaf_data tree leaf leaf_bits c = OK val ∧
                    leaf_nodes !! Z.to_nat (- ref - 1) = Some val) ∨
  (0 ≤ ref ∧ ∃ item, inner_items tree !! Z.to_nat ref = Some (c, item)).

(** The decision node [n] is the flattened source node [x]. *)
Definition flattened_from (x : scan_item) (n : Node) : Prop :=
  let '(_, (c_left, c_right, feature, th)) := x in
  node_feature n = feature ∧ node_th n = th ∧
  child_of c_left (node_left n) ∧ child_of c_right (node_right n).
End flattened.

(** What the scan has established after the items [done]: the decision
    nodes are the inner nodes scanned so far, and the mapping sends the id
    of an inner node to its position. *)
Definition scan_invariant (tree : Tree) (leaf : string) (leaf_bits : Z)
    (done : list scan_item) (st : scan_state) : Prop :=
  Forall2 (scanned tree leaf leaf_bits st.1.2) (inner_of done) st.1.1 ∧
  ∀ c k, st.2 !! c = Some k →
         0 ≤ k ∧ ∃ item, inner_of done !! Z.to_nat k = Some (c, item).

(** *** Source trees on which flatten_tree returns *)

(** The source node [c] is a leaf: both children are -1. *)
Definition is_leaf_at (tree : Tree) (c : Z) : bool :=
  match zipped tree !! Z.to_nat c with
  | Some (c_left, c_right, _, _) => (c_left =? -1) && (c_right =? -1)
  | None => false
  end.

(** The children that the items name, left before right. *)
Definition slots_of (items : list scan_item) : list Z :=
  concat ((λ x : scan_item,
             let '(_, (c_left, c_right, _, _)) := x in [c_left; c_right])
          <$> items).

(** The children of the inner nodes of a source tree. *)
Definition child_slots (tree : Tree) : list Z := slots_of (inner_items tree).

(** A source tree as the tree-learning library makes it: the five arrays
    have [node_count] entries, there is one output, node 0 is not a leaf,
    and the nodes 1, 2, ... are the children of the inner nodes, each the
    child of one inner node on one side. *)
Definition well_formed (tree : Tree) : Prop :=
  node_count tree = len (value tree) ∧
  value_shape1 tree = 1 ∧
  len (children_left tree) = node_count tree ∧
  len (children_right tree) = node_count tree ∧
  len (feature tree) = node_count tree ∧
  len (threshold tree) = node_count tree ∧
  is_leaf_at tree 0 = false ∧
  child_slots tree ≡ₚ seqZ 1 (node_count tree - 1).

(** The payload of every leaf of the source tree can be computed. *)
Definition payloads_available (tree : Tree) (leaf : string) (leaf_bits : Z)
  : Prop :=
  ∀ c, 0 ≤ c < node_count tree → is_leaf_at tree c = true →
       ∃ val, leaf_data tree leaf leaf_bits c = OK val.

(** During the scan: the reference [ref] stands for the source child [c],
    a leaf that has been added or the node id of an inner node. *)
Definition placed_child (tree : Tree) (leaf_nodes : list Leaf) (c ref : Z)
  : Prop :=
  (is_leaf_at tree c = true ∧ ref < 0 ∧ - ref - 1 < len leaf_nodes) ∨
  (is_leaf_at tree c = false ∧ ref = c).

Definition placed (tree : Tree) (leaf_nodes : list Leaf) (x : scan_item)
    (n : Node) : Prop :=
  let '(_, (c_left, c_right, _, _)) := x in
  placed_child tree leaf_nodes c_left (node_left n) ∧
  placed_child tree leaf_nodes c_right (node_right n).

(** What the scan of a well-formed tree has established after the items
    [done]: the decision nodes are the inner nodes among them, the mapping
    holds exactly the positions of these, there is one leaf for each child
    that is a leaf, and every leaf is referred to. *)
Definition scan_progress (tree : Tree) (done : list scan_item)
    (st : scan_state) : Prop :=
  Forall2 (placed tree st.1.2) (inner_of done) st.1.1 ∧
  (∀ c k, st.2 !! c = Some k ↔
          0 ≤ k ∧ ∃ item, inner_of done !! Z.to_nat k = Some (c, item)) ∧
  len st.1.2
    = len (filter (λ c, is_leaf_at tree c = true) (slots_of (inner_of done))) ∧
  (∀ j, 0 ≤ j < len st.1.2 →
        ∃ n, n ∈ st.1.1 ∧ (node_left n = - j - 1 ∨ node_right n = - j - 1)).

(** In the result: a reference to a leaf in range for a child that is a
    leaf, or the position of the inner node [c]. *)
Definition renumbered_child (tree : Tree) (leaf_nodes : list Leaf) (c ref : Z)
  : Prop :=
  (is_leaf_at tree c = true ∧ ref < 0 ∧ - ref - 1 < len leaf_nodes) ∨
  (is_leaf_at tree c = false ∧ 0 ≤ ref ∧
   ∃ item, inner_items tree !! Z.to_nat ref = Some (c, item)).

(** The inner nodes of the source trees, counted together. *)
Definition total_inner (trees : list Tree) : Z :=
  foldr (λ tree total, len (inner_items tree) + total) 0 trees.

(** In every node of the tree the value vector has [k] entries: the tree
    was learned on [k] classes. *)
Definition class_count_is (k : nat) (tree : Tree) : Prop :=
  Forall (λ row : list (list float64),
            ∀ v, row !! 0%nat = Some v → length v = k) (value tree).
(** * Proofs *)

(** ** The error monad *)

Lemma bind_OK {A B} (c : result A) (k : A → result B) (b : B) :
  c ≫= k = OK b → ∃ a, c = OK a ∧ k a = OK b.
Proof. destruct c as [a|e]; simpl; [eauto | discriminate]. Qed.

Lemma py_assert_OK (cond : bool) (u : unit) : py_assert cond = OK u → cond = true.
Proof. destruct cond; [reflexivity | discriminate]. Qed.

(** Splits a hypothesis [c ≫= k = OK b] into the two steps it records. *)
Ltac bind_inv H :=
  let a := fresh "a" in
  let Hc := fresh "Hc" in
  apply bind_OK in H; destruct H as (a & Hc & H).

Lemma forallb_Forall_true {A} (f : A → bool) (xs : list A) :
  forallb f xs = true ↔ Forall (λ x, f x = true) xs.
Proof.
  induction xs as [|x xs IH]; simpl.
  - split; [constructor | reflexivity].
  - rewrite andb_true_iff, IH. split.
    + intros [Hx Hxs]. by constructor.
    + intros H. by apply Forall_cons_1 in H.
Qed.

Lemma snd_enumerate {A} (xs : list A) : snd <$> enumerate xs = xs.
Proof.
  unfold enumerate. apply snd_zip. unfold len.
  rewrite length_seqZ. lia.
Qed.

(** ** What the validator accepts *)

Lemma py_assert_decide (P : Prop) `{Decision P} :
  py_assert (bool_decide P) = OK tt ↔ P.
Proof. unfold py_assert. destruct (bool_decide_reflect P); split; done. Qed.

Lemma py_assert_then (P : Prop) `{Decision P} (k : result unit) :
  (py_assert (bool_decide P);; k) = OK tt ↔ P ∧ k = OK tt.
Proof.
  unfold py_assert. destruct (bool_decide_reflect P); simpl; split;
    try done; by intros [? ?].
Qed.

Lemma difference_empty (X Y : gset Z) : X ∖ Y = ∅ ↔ ∀ x, x ∈ X → x ∈ Y.
Proof.
  rewrite elem_of_equiv_empty_L. split.
  - intros H x Hx. destruct (decide (x ∈ Y)); [done|].
    exfalso. apply (H x). set_solver.
  - intros H x Hx. apply elem_of_difference in Hx as [Hx Hn]. auto.
Qed.

Lemma elem_of_refs (f : Node → Z) (P : Node → Prop) `{∀ n, Decision (P n)}
    (ns : list Node) (x : Z) :
  x ∈ (list_to_set (f <$> filter P ns) : gset Z) ↔ ∃ n, n ∈ ns ∧ P n ∧ x = f n.
Proof.
  rewrite elem_of_list_to_set, list_elem_of_fmap. split.
  - intros (n & -> & Hn). apply list_elem_of_filter in Hn as [HP Hn]. eauto.
  - intros (n & Hn & HP & ->). exists n. split; [done|].
    by apply list_elem_of_filter.
Qed.

Lemma elem_of_idxs (n x : Z) :
  x ∈ (list_to_set (seqZ 0 n) : gset Z) ↔ 0 ≤ x < n.
Proof. rewrite elem_of_list_to_set, elem_of_seqZ. lia. Qed.

Lemma assert_node_references_valid_OK
    (ns : list Node) (ls : list Leaf) (rs : list Z) :
  assert_node_references_valid ns ls rs = OK tt ↔ references_accepted ns ls rs.
Proof.
  unfold assert_node_references_valid, references_accepted. cbn zeta.
  rewrite !py_assert_then, py_assert_decide, !difference_empty.
  setoid_rewrite elem_of_union. setoid_rewrite elem_of_union.
  setoid_rewrite elem_of_refs. setoid_rewrite elem_of_idxs.
  setoid_rewrite elem_of_list_to_set.
  split.
  - intros (H1 & H2 & H3 & H4 & _ & H6). split_and!.
    + intros n Hn H0. apply (H1 (node_left n)). eauto.
    + intros n Hn H0. apply (H2 (node_right n)). eauto.
    + intros i Hi.
      destruct (H3 i Hi) as [[(n & Hn & _ & ->)|(n & Hn & _ & ->)]|Hr];
        eauto 6.
    + intros n Hn H0. apply (H4 (- node_left n - 1)). eauto.
    + intros i Hi.
      destruct (H6 i Hi) as [(n & Hn & H0 & ->)|(n & Hn & H0 & ->)];
        exists n; (split; [done|]); [left|right]; lia.
  - intros (H1 & H2 & H3 & H4 & H6). split_and!.
    + intros x (n & Hn & H0 & ->). split; [done|]. by apply H1.
    + intros x (n & Hn & H0 & ->). split; [done|]. by apply H2.
    + intros i Hi. destruct (H3 i Hi) as [(n & Hn & [Hl|Hr])|Hr].
      * left; left. exists n. split_and!; [done | lia | done].
      * left; right. exists n. split_and!; [done | lia | done].
      * by right.
    + intros x (n & Hn & H0 & ->). split; [lia|]. by apply H4.
    + intros x (n & Hn & H0 & ->). split; [lia|]. by apply H4.
    + intros i Hi. destruct (H6 i Hi) as (n & Hn & [H0|H0]); [left|right];
        exists n; (split; [done|]); split; lia.
Qed.

Lemma py_assert_raises (cond : bool) (e : exn) :
  py_assert cond = Raise e → e = AssertionError.
Proof. destruct cond; [discriminate | by intros [= <-]]. Qed.

Lemma assert_node_references_valid_outcome
    (ns : list Node) (ls : list Leaf) (rs : list Z) :
  assert_node_references_valid ns ls rs = OK tt ∨
  assert_node_references_valid ns ls rs = Raise AssertionError.
Proof.
  unfold assert_node_references_valid. cbn zeta.
  repeat match goal with
         | |- context [py_assert ?b] =>
             destruct b; cbn [py_assert mbind result_bind]; [|by right]
         end.
  by left.
Qed.

(** A dangling left leaf reference is refused. *)
Lemma validator_rejects_dangling_left_leaf (forest : Forest) (n : Node) :
  n ∈ nodes forest → dangling_ref (leaves forest) (node_left n) →
  assert_forest_valid forest = Raise AssertionError.
Proof.
  destruct forest as [ns rs ls]. simpl. intros Hn [Hneg Hout].
  destruct (assert_node_references_valid_outcome ns ls rs) as [H|H]; [|done].
  apply assert_node_references_valid_OK in H as (_ & _ & _ & H4 & _).
  specialize (H4 n Hn Hneg). lia.
Qed.

(** ** Example B *)

(** C1. Example A flattens to one node [{0, 0.5, -1, -2}] with leaves
    [0, 1]; merging two copies gives roots [0, 1], nodes
    [{0, 0.5, -1, -2}, {0, 0.5, -3, -4}] and leaves [0, 1, 0, 1]; removing
    duplicate leaves from that forest gives leaves [0, 1] and both nodes
    refer to [-1] and [-2]. *)
Theorem example_B_merge_then_dedup :
  flatten_tree tree_A "argmax" 8
    = OK ([node_A (-1) (-2)], [LClass 0; LClass 1]) ∧
  flatten_forest [tree_A; tree_A] "argmax"
    = OK (mkForest [node_A (-1) (-2); node_A (-3) (-4)] [0; 1]
            [LClass 0; LClass 1; LClass 0; LClass 1]) ∧
  remove_duplicate_leaves
      (mkForest [node_A (-1) (-2); node_A (-3) (-4)] [0; 1]
         [LClass 0; LClass 1; LClass 0; LClass 1])
    = OK (mkForest [node_A (-1) (-2); node_A (-1) (-2)] [0; 1]
            [LClass 0; LClass 1]).
Proof. repeat split; vm_compute; reflexivity. Qed.

(** ** The validator and dangling leaf references *)

(** C3, at the failing input.  The forest has one leaf and a right child
    reference [-2], which decodes to leaf index 1; the validator accepts
    it. *)
Theorem validator_accepts_dangling_right_leaf :
  has_dangling_leaf_reference forest_dangling_right ∧
  assert_forest_valid forest_dangling_right = OK tt.
Proof.
  split; [|vm_compute; reflexivity].
  exists (node_A (-1) (-2)). split; [apply list_elem_of_singleton; reflexivity|].
  right. unfold dangling_ref, forest_dangling_right, node_A, len; simpl. lia.
Qed.

(** ** flatten_tree keeps the number of nodes *)

(** C6. When [flatten_tree] returns, the decision nodes and the leaf nodes
    of the result together are as many as the nodes of the source tree. *)
Theorem flatten_tree_conserves_node_count
    (tree : Tree) (leaf : string) (leaf_bits : Z)
    (decision_nodes : list Node) (leaf_nodes : list Leaf) :
  flatten_tree tree leaf leaf_bits = OK (decision_nodes, leaf_nodes) →
  len decision_nodes + len leaf_nodes = node_count tree.
Proof.
  unfold flatten_tree. intros H.
  bind_inv H. bind_inv H. bind_inv H. destruct a1 as [[dn ln] mapping].
  bind_inv H. bind_inv H. bind_inv H.
  injection H as <- <-.
  apply py_assert_OK in Hc3. lia.
Qed.

Lemma flatten_tree_conserves_node_count_witness :
  flatten_tree tree_A "argmax" 8
    = OK ([node_A (-1) (-2)], [LClass 0; LClass 1]) ∧
  len [node_A (-1) (-2)] + len [LClass 0; LClass 1] = node_count tree_A.
Proof.
  assert (H : flatten_tree tree_A "argmax" 8
              = OK ([node_A (-1) (-2)], [LClass 0; LClass 1]))
    by (vm_compute; reflexivity).
  split; [exact H | exact (flatten_tree_conserves_node_count _ _ _ _ _ H)].
Defined.

(** ** Scalar payloads compare without raising *)

Lemma py_eq_scalar (a b : Leaf) :
  is_scalar a = true → is_scalar b = true → ∃ same, py_eq a b = OK same.
Proof. destruct a, b; simpl; try discriminate; eauto. Qed.

Lemma index_from_scalar (node : Leaf) (unique_leaves : list Leaf) (i : Z) :
  is_scalar node = true → scalar_leaves unique_leaves →
  ∃ found, index_from node unique_leaves i = OK found.
Proof.
  intros Hnode Hall. revert i.
  induction Hall as [|u rest Hu _ IH]; intros i; simpl; [eauto|].
  destruct (py_eq_scalar u node Hu Hnode) as [[] ->]; simpl; eauto.
Qed.

Lemma dedup_leaf_scalar (unique_leaves : list Leaf) (remap_leaves : gmap Z Z)
    (old_idx : Z) (node : Leaf) :
  is_scalar node = true → scalar_leaves unique_leaves →
  ∃ unique_leaves' remap_leaves',
    dedup_leaf (unique_leaves, remap_leaves) (old_idx, node)
      = OK (unique_leaves', remap_leaves') ∧
    scalar_leaves unique_leaves'.
Proof.
  intros Hnode Hall. unfold dedup_leaf.
  destruct (index_from_scalar node unique_leaves 0 Hnode Hall) as [found ->].
  simpl. destruct found as [k|]; do 2 eexists; (split; [reflexivity|]); [done|].
  apply Forall_app; split; [done | by constructor].
Qed.

Lemma dedup_loop_scalar (items : list (Z * Leaf)) (unique_leaves : list Leaf)
    (remap_leaves : gmap Z Z) :
  scalar_leaves (snd <$> items) → scalar_leaves unique_leaves →
  ∃ st, for_each dedup_leaf items (unique_leaves, remap_leaves) = OK st.
Proof.
  revert unique_leaves remap_leaves.
  induction items as [|[old_idx node] items IH]; intros U R Hitems HU.
  - simpl; eauto.
  - cbn [for_each]. unfold scalar_leaves in Hitems. rewrite fmap_cons in Hitems.
    apply Forall_cons_1 in Hitems as [Hnode Hitems].
    destruct (dedup_leaf_scalar U R old_idx node Hnode HU)
      as (U' & R' & -> & HU').
    cbn [mbind result_bind]. by apply IH.
Qed.

(** ** remove_duplicate_leaves on a forest without decision nodes *)

Lemma valid_without_nodes_has_no_leaves (forest : Forest) :
  nodes forest = [] → assert_forest_valid forest = OK tt → leaves forest = [].
Proof.
  destruct forest as [ns rs ls]. simpl. intros -> Hvalid.
  apply assert_node_references_valid_OK in Hvalid as (_ & _ & _ & _ & H6).
  destruct ls as [|l ls]; [done|].
  destruct (H6 0) as (n & Hn & _); [unfold len; simpl length; lia|].
  by apply elem_of_nil in Hn.
Qed.

(** C10. On a forest whose decision-node array is empty,
    [remove_duplicate_leaves] raises [ZeroDivisionError]: the ratio divides
    by [len(nodes)].  The forest is one that the validator accepts, or one
    whose payloads are scalars: the scan of the leaves comes before the
    division, and it compares the payloads. *)
Theorem remove_duplicate_leaves_no_nodes (forest : Forest) :
  nodes forest = [] →
  assert_forest_valid forest = OK tt ∨ scalar_leaves (leaves forest) →
  remove_duplicate_leaves forest = Raise ZeroDivisionError.
Proof.
  intros Hnodes Hleaves.
  assert (Hls : scalar_leaves (leaves forest)).
  { destruct Hleaves as [Hvalid|Hls]; [|done].
    rewrite (valid_without_nodes_has_no_leaves forest Hnodes Hvalid).
    constructor. }
  destruct forest as [ns rs ls]; simpl in *. subst ns.
  unfold remove_duplicate_leaves.
  destruct (dedup_loop_scalar (enumerate ls) [] ∅) as [[U R] ->].
  - by rewrite snd_enumerate.
  - constructor.
  - reflexivity.
Qed.

(** The forest of no trees: [flatten_forest] returns it, the validator
    accepts it, and [remove_duplicate_leaves] raises on it. *)
Lemma remove_duplicate_leaves_no_nodes_witness :
  flatten_forest [] "argmax" = OK (mkForest [] [] []) ∧
  assert_forest_valid (mkForest [] [] []) = OK tt ∧
  remove_duplicate_leaves (mkForest [] [] []) = Raise ZeroDivisionError.
Proof.
  assert (Hvalid : assert_forest_valid (mkForest [] [] []) = OK tt)
    by (vm_compute; reflexivity).
  split; [vm_compute; reflexivity|]. split; [exact Hvalid|].
  exact (remove_duplicate_leaves_no_nodes (mkForest [] [] []) eq_refl
           (or_introl Hvalid)).
Defined.

(** ** leaves_to_bytelist *)

Lemma float32_tobytes_length (arr : list float32) :
  len (concat (float32_tobytes <$> arr)) = 4 * len arr.
Proof.
  unfold len. induction arr as [|x arr IH]; [reflexivity|].
  rewrite fmap_cons. cbn [concat]. rewrite length_app, length_cons.
  change (length (float32_tobytes x)) with 4%nat. lia.
Qed.

Lemma numpy_array_float32_scalars (leaves : list Leaf) :
  scalar_leaves leaves →
  ∃ arr, numpy_array_float32 leaves = OK arr ∧ Forall2 rounds_to leaves arr.
Proof.
  intros Hs. unfold numpy_array_float32.
  destruct (forallb is_class leaves) eqn:Hc.
  - eexists; split; [reflexivity|].
    apply Forall2_fmap_r, Forall_Forall2_diag.
    apply forallb_Forall_true in Hc. eapply Forall_impl; [|exact Hc].
    intros [c|v|cs]; simpl; intros H; by try left.
  - assert (forallb is_scalar leaves = true) as ->.
    { by apply forallb_Forall_true. }
    eexists; split; [reflexivity|].
    apply Forall2_fmap_r, Forall_Forall2_diag.
    eapply Forall_impl; [|exact Hs].
    intros [c|v|cs]; simpl; intros H; by try right.
Qed.

(** C7, amended.  With width 0 the payloads come back as they are; with
    any width other than 0 and 32 a [ValueError] is raised; with width 32
    and scalar payloads, class indices or regression values, the result is
    the concatenation of the four-byte little-endian binary32 encodings of
    the payloads, four bytes for each leaf. *)
Theorem leaves_to_bytelist_widths (leaves : list Leaf) :
  leaves_to_bytelist leaves 0 = OK (Payloads leaves) ∧
  (∀ leaf_bits, leaf_bits ≠ 0 → leaf_bits ≠ 32 →
     leaves_to_bytelist leaves leaf_bits
       = Raise (ValueError "Only 0 or 32 supported for leaf_bits")) ∧
  (scalar_leaves leaves →
   ∃ arr, Forall2 rounds_to leaves arr ∧
          leaves_to_bytelist leaves 32
            = OK (Bytes (concat (float32_tobytes <$> arr))) ∧
          Forall (λ x, length (float32_tobytes x) = 4%nat) arr ∧
          len (concat (float32_tobytes <$> arr)) = 4 * len leaves).
Proof.
  split; [reflexivity|]. split.
  - intros w H0 H32. unfold leaves_to_bytelist.
    destruct (Z.eqb_spec w 0); [done|]. destruct (Z.eqb_spec w 32); done.
  - intros Hs.
    destruct (numpy_array_float32_scalars leaves Hs) as (arr & Harr & Hround).
    exists arr. split; [done|].
    assert (len arr = len leaves) as Hlen.
    { unfold len. by rewrite (Forall2_length Hround). }
    unfold leaves_to_bytelist. simpl. rewrite Harr. simpl.
    rewrite float32_tobytes_length, Hlen.
    change ((32 + 7) / 8) with 4. rewrite Z.eqb_refl. simpl.
    split; [done|]. split; [|reflexivity].
    apply Forall_forall. intros; reflexivity.
Qed.

(** The payloads 0.5, 1, -2 and 0 at width 32: the words 0x3f000000,
    0x3f800000, 0xc0000000 and 0, least significant byte first. *)
Lemma leaves_to_bytelist_widths_witness :
  let leaves := [LValue f64_half; LValue (f64 1); LValue (f64 (-2));
                 LValue (f64 0)] in
  leaves_to_bytelist leaves 32
    = OK (Bytes [0; 0; 0; 63;  0; 0; 128; 63;  0; 0; 0; 192;  0; 0; 0; 0]) ∧
  leaves_to_bytelist leaves 8
    = Raise (ValueError "Only 0 or 32 supported for leaf_bits") ∧
  leaves_to_bytelist leaves 0 = OK (Payloads leaves).
Proof.
  intros leaves.
  destruct (leaves_to_bytelist_widths leaves) as (H0 & Hother & H32).
  split; [vm_compute; reflexivity|].
  split; [apply Hother; lia | exact H0].
Defined.

(** C7, the statement as written, on the leaves of Example A in the mode
    ['probabilities']: the payloads are arrays of two codes, and at width 32
    the call fails its length assertion, so it does not return four bytes
    for each leaf for every leaf list. *)
Lemma leaves_to_bytelist_refuses_probability_tables :
  flatten_tree tree_A "probabilities" 8
    = OK ([node_A (-1) (-2)], [LProba [4; 1]; LProba [1; 3]]) ∧
  leaves_to_bytelist [LProba [4; 1]; LProba [1; 3]] 32 = Raise AssertionError ∧
  ¬ (∀ leaves, ∃ bytes, leaves_to_bytelist leaves 32 = OK (Bytes bytes) ∧
                        len bytes = 4 * len leaves).
Proof.
  split; [vm_compute; reflexivity|].
  split; [vm_compute; reflexivity|].
  intros H. destruct (H [LProba [4; 1]; LProba [1; 3]]) as (bytes & Hb & _).
  vm_compute in Hb. discriminate Hb.
Qed.
(** ** A tree whose root is a leaf *)

Lemma for_each_raises {A S} (body : S → A → result S) (xs : list A) (x : A) :
  x ∈ xs → (∀ acc, ∃ e, body acc x = Raise e) →
  ∀ acc, ∃ e, for_each body xs acc = Raise e.
Proof.
  intros Hin Hx. induction xs as [|y xs IH]; intros acc.
  - by apply elem_of_nil in Hin.
  - cbn [for_each]. destruct (body acc y) as [acc'|e] eqn:Hy.
    + cbn [mbind result_bind]. apply elem_of_cons in Hin as [->|Hin].
      * destruct (Hx acc) as [e He]. congruence.
      * by apply IH.
    + by exists e.
Qed.

(** A leaf is entered in [leaf_nodes] when the scan meets its parent; the root
    has none, so nothing is produced and the count of nodes does not match. *)
Lemma flatten_tree_degenerate (tree : Tree) (leaf : string) (leaf_bits : Z) :
  degenerate tree → flatten_tree tree leaf leaf_bits = Raise AssertionError.
Proof.
  destruct tree as [nc cl cr ft th vs sh]. unfold degenerate; simpl.
  intros (-> & -> & ->). unfold flatten_tree.
  cbn [node_count value value_shape1].
  destruct (1 =? len vs); cbn [py_assert mbind result_bind]; [|reflexivity].
  destruct (sh =? 1); cbn [py_assert mbind result_bind]; [|reflexivity].
  unfold zipped, enumerate.
  cbn [children_left children_right feature threshold value].
  destruct ft as [|f ft]; [reflexivity|].
  destruct th as [|t th]; [reflexivity|].
  destruct vs as [|v vs]; [reflexivity|].
  cbn [zip zip_with]. change (len [(-1, -1, f, t)]) with 1; reflexivity.
Qed.

Lemma merge_tree_raises (leaf : string) (tree : Tree) (e : exn) :
  flatten_tree tree leaf 8 = Raise e →
  ∀ st, ∃ e', merge_tree leaf st tree = Raise e'.
Proof. intros H st. unfold merge_tree. rewrite H. by exists e. Qed.

Lemma merge_tree_roots (leaf : string) (st st' : merge_state) (tree : Tree) :
  merge_tree leaf st tree = OK st' →
  tree_roots st' = tree_roots st ++ [decision_nodes_offset st] ∧
  decision_nodes_offset st'
    = decision_nodes_offset st + decision_count leaf tree.
Proof.
  unfold merge_tree, decision_count. intros H.
  bind_inv H. destruct a as [decision_nodes leaf_nodes]. rewrite Hc.
  bind_inv H. injection H as <-. simpl.
  split; [reflexivity|]. unfold len. by rewrite length_fmap.
Qed.

Lemma merge_loop_roots (leaf : string) (trees : list Tree)
    (st st' : merge_state) :
  for_each (merge_tree leaf) trees st = OK st' →
  tree_roots st'
    = tree_roots st ++
      root_offsets (decision_nodes_offset st) (decision_count leaf <$> trees).
Proof.
  revert st. induction trees as [|tree trees IH]; intros st H.
  - injection H as <-. simpl. by rewrite app_nil_r.
  - cbn [for_each] in H. bind_inv H.
    apply merge_tree_roots in Hc as [Hroots Hoffset].
    rewrite (IH _ H), Hroots, Hoffset, fmap_cons. cbn [root_offsets].
    by rewrite <- app_assoc.
Qed.

Lemma decision_count_nonneg (leaf : string) (tree : Tree) :
  0 ≤ decision_count leaf tree.
Proof.
  unfold decision_count. destruct (flatten_tree tree leaf 8) as [[d l]|e];
    unfold len; lia.
Qed.

Lemma root_offsets_nonneg (offset : Z) (sizes : list Z) :
  0 ≤ offset → Forall (λ n, 0 ≤ n) sizes →
  Forall (λ r, 0 ≤ r) (root_offsets offset sizes).
Proof.
  intros Ho Hs. revert offset Ho.
  induction Hs as [|n sizes Hn _ IH]; intros offset Ho; simpl.
  - constructor.
  - constructor; [done|]. apply IH. lia.
Qed.

Lemma root_offsets_length (offset : Z) (sizes : list Z) :
  length (root_offsets offset sizes) = length sizes.
Proof.
  revert offset. induction sizes as [|n sizes IH]; intros offset; [done|].
  simpl. by rewrite IH.
Qed.

(** On a source tree of one node, its root a leaf, [flatten_tree] fails
    its own assertion on the count of nodes (nothing is produced for the
    root), and [flatten_forest] raises on every sequence of trees that holds
    such a tree.  When [flatten_forest] returns, there is one root for each
    tree, the number of decision nodes of the trees before it. *)
Lemma degenerate_tree_is_rejected (tree : Tree) (leaf : string) :
  degenerate tree →
  (∀ leaf_bits, flatten_tree tree leaf leaf_bits = Raise AssertionError) ∧
  (∀ trees, tree ∈ trees → ∃ e, flatten_forest trees leaf = Raise e) ∧
  (∀ trees forest,
     flatten_forest trees leaf = OK forest →
     length (roots forest) = length trees ∧
     roots forest = root_offsets 0 (decision_count leaf <$> trees) ∧
     Forall (λ r, 0 ≤ r) (roots forest)).
Proof.
  intros Hdeg. split; [|split].
  - intros leaf_bits. by apply flatten_tree_degenerate.
  - intros trees Hin. unfold flatten_forest.
    destruct (for_each_raises (merge_tree leaf) trees tree Hin
                (merge_tree_raises leaf tree AssertionError
                   (flatten_tree_degenerate tree leaf 8 Hdeg))
                (mkMerge [] 0 0 [] [])) as [e ->].
    by exists e.
  - intros trees forest H. unfold flatten_forest in H.
    bind_inv H. bind_inv H. injection H as <-. simpl.
    apply merge_loop_roots in Hc. simpl in Hc. rewrite Hc.
    split; [by rewrite root_offsets_length, length_fmap|].
    split; [reflexivity|].
    apply root_offsets_nonneg; [lia|].
    apply Forall_fmap, Forall_forall. intros t _. apply decision_count_nonneg.
Qed.

(** The one-node tree is rejected on its own and after Example A; two copies
    of Example A get the roots 0 and 1. *)
Lemma degenerate_tree_is_rejected_witness :
  degenerate tree_single ∧
  flatten_tree tree_single "argmax" 8 = Raise AssertionError ∧
  (∃ e, flatten_forest [tree_A; tree_single] "argmax" = Raise e) ∧
  (∀ forest, flatten_forest [tree_A; tree_A] "argmax" = OK forest →
             roots forest = [0; 1]).
Proof.
  assert (Hdeg : degenerate tree_single) by (repeat split; reflexivity).
  destruct (degenerate_tree_is_rejected tree_single "argmax" Hdeg)
    as (Htree & Hforest & Hroots).
  split; [exact Hdeg|]. split; [apply Htree|]. split.
  - apply Hforest. apply elem_of_cons. right. apply elem_of_cons. by left.
  - intros forest H. destruct (Hroots _ _ H) as (_ & -> & _).
    vm_compute; reflexivity.
Defined.

(** C2.  The code at the one-node tree, whose root is a leaf: the scan
    leaves the root to a parent that it does not have, no leaf and no
    decision node are made, and [flatten_tree] fails its own assertion that
    the nodes made are as many as the nodes of the tree; flattening does
    not succeed, and neither does merging, where the statement has both
    succeed with a leaf reference as the root. *)
Theorem single_leaf_tree_does_not_flatten :
  degenerate tree_single ∧
  flatten_tree tree_single "argmax" 8 = Raise AssertionError ∧
  flatten_forest [tree_single] "argmax" = Raise AssertionError ∧
  ¬ (∃ forest, flatten_forest [tree_single] "argmax" = OK forest).
Proof.
  split; [repeat split; reflexivity|].
  split; [vm_compute; reflexivity|].
  split; [vm_compute; reflexivity|].
  intros [forest H]. vm_compute in H. discriminate H.
Qed.

(** ** remove_duplicate_leaves is idempotent *)

Lemma enumerate_from_cons {A} (s : Z) (x : A) (xs : list A) :
  zip (seqZ s (len (x :: xs))) (x :: xs)
    = (s, x) :: zip (seqZ (s + 1) (len xs)) xs.
Proof.
  unfold len. rewrite seqZ_cons by (simpl length; lia).
  replace (Z.pred (Z.of_nat (length (x :: xs)))) with (Z.of_nat (length xs))
    by (simpl length; lia).
  reflexivity.
Qed.

Lemma first_seen_nil : first_seen [].
Proof. intros i u H. by rewrite lookup_nil in H. Qed.

Lemma first_seen_snoc (unique_leaves : list Leaf) (node : Leaf) :
  first_seen unique_leaves →
  index_from node unique_leaves 0 = OK None →
  first_seen (unique_leaves ++ [node]).
Proof.
  intros HU Hnode i u Hi.
  destruct (decide (i < length unique_leaves)%nat) as [Hlt|Hge].
  - rewrite lookup_app_l in Hi by done.
    rewrite take_app_le by lia. by apply HU.
  - assert (i = length unique_leaves) as ->.
    { apply lookup_lt_Some in Hi. rewrite length_app in Hi. simpl in Hi. lia. }
    rewrite list_lookup_middle in Hi by done. injection Hi as <-.
    by rewrite take_app_length.
Qed.

Lemma dedup_leaf_first_seen (st st' : list Leaf * gmap Z Z) (item : Z * Leaf) :
  dedup_leaf st item = OK st' → first_seen st.1 → first_seen st'.1.
Proof.
  destruct st as [U R], item as [old_idx node]. unfold dedup_leaf.
  intros H HU. bind_inv H. destruct a as [found|]; injection H as <-; simpl.
  - done.
  - by apply first_seen_snoc.
Qed.

Lemma dedup_loop_first_seen (items : list (Z * Leaf))
    (st st' : list Leaf * gmap Z Z) :
  for_each dedup_leaf items st = OK st' → first_seen st.1 → first_seen st'.1.
Proof.
  revert st. induction items as [|item items IH]; intros st H Hst.
  - by injection H as <-.
  - cbn [for_each] in H. bind_inv H.
    eapply IH; [exact H|]. by eapply dedup_leaf_first_seen.
Qed.

(** The second run: over a list in which nothing is found twice, every leaf
    is appended again and is mapped to itself. *)
Lemma dedup_loop_again (rest seen : list Leaf) (remap_leaves : gmap Z Z) :
  first_seen (seen ++ rest) → identity_remap remap_leaves →
  ∃ remap_leaves',
    for_each dedup_leaf (zip (seqZ (len seen) (len rest)) rest)
             (seen, remap_leaves)
      = OK (seen ++ rest, remap_leaves') ∧
    identity_remap remap_leaves'.
Proof.
  revert seen remap_leaves.
  induction rest as [|node rest IH]; intros seen R Hfs HR.
  - exists R. rewrite app_nil_r. by split.
  - rewrite enumerate_from_cons. cbn [for_each]. unfold dedup_leaf at 2.
    assert (index_from node seen 0 = OK None) as ->.
    { specialize (Hfs (length seen) node).
      rewrite list_lookup_middle, take_app_length in Hfs by done. by apply Hfs. }
    cbn [mbind result_bind].
    replace (len seen + 1) with (len (seen ++ [node]))
      by (unfold len; rewrite length_app; simpl; lia).
    replace (seen ++ node :: rest) with ((seen ++ [node]) ++ rest) in *
      by (by rewrite <- app_assoc).
    apply IH; [done|].
    intros k v Hk. apply lookup_insert_Some in Hk as [[<- <-]|[_ Hk]].
    + reflexivity.
    + by apply HR.
Qed.

Lemma remap_node_identity (remap_leaves : gmap Z Z) (n : Node) :
  identity_remap remap_leaves → remap_node remap_leaves n = n.
Proof.
  intros HR. destruct n as [f th l r]. unfold remap_node, remap_get; simpl.
  f_equal.
  - destruct (remap_leaves !! l) as [v|] eqn:Hl; simpl; [by apply HR | done].
  - destruct (remap_leaves !! r) as [v|] eqn:Hr; simpl; [by apply HR | done].
Qed.

Lemma py_truediv_OK (a b : Z) (u : unit) : py_truediv a b = OK u → b ≠ 0.
Proof. unfold py_truediv. destruct (Z.eqb_spec b 0); [discriminate | done]. Qed.

Lemma py_truediv_nonzero (a b : Z) : b ≠ 0 → py_truediv a b = OK tt.
Proof. unfold py_truediv. by destruct (Z.eqb_spec b 0). Qed.

Lemma remove_duplicate_leaves_again (forest forest' : Forest) :
  remove_duplicate_leaves forest = OK forest' →
  remove_duplicate_leaves forest' = OK forest'.
Proof.
  destruct forest as [ns rs ls]. unfold remove_duplicate_leaves at 1.
  intros H. bind_inv H. destruct a as [U R].
  bind_inv H. bind_inv H. injection H as <-.
  apply (dedup_loop_first_seen _ ([], ∅) (U, R)) in Hc; [|apply first_seen_nil].
  destruct (dedup_loop_again U [] ∅) as (R' & Hloop & HR'); [done|done|].
  unfold remove_duplicate_leaves, enumerate.
  change (len []) with 0 in Hloop. simpl in Hloop. rewrite Hloop.
  cbn [mbind result_bind].
  apply py_truediv_OK in Hc0.
  rewrite py_truediv_nonzero
    by (unfold len in *; by rewrite length_fmap).
  cbn [mbind result_bind].
  assert (remap_node R' <$> (remap_node R <$> ns) = remap_node R <$> ns) as ->.
  { rewrite <- (list_fmap_id (remap_node R <$> ns)) at 2.
    apply list_fmap_ext. intros i n _. by apply remap_node_identity. }
  destruct a0, a. by rewrite Hc1.
Qed.

(** *** What the result holds *)

Lemma index_from_Some (node : Leaf) (unique_leaves : list Leaf) (i k : Z) :
  index_from node unique_leaves i = OK (Some k) →
  i ≤ k ∧
  index_from node (take (Z.to_nat (k - i)) unique_leaves) i = OK None ∧
  ∃ u, unique_leaves !! Z.to_nat (k - i) = Some u ∧ py_eq u node = OK true.
Proof.
  revert i. induction unique_leaves as [|u rest IH]; intros i H.
  - discriminate H.
  - cbn [index_from] in H. bind_inv H. destruct a.
    + injection H as <-. replace (i - i) with 0 by lia. simpl.
      split; [lia|]. split; [reflexivity|]. eauto.
    + apply IH in H as (Hle & Hnone & u' & Hu' & Heq).
      split; [lia|].
      replace (Z.to_nat (k - i)) with (S (Z.to_nat (k - (i + 1)))) by lia.
      cbn [take index_from lookup list_lookup]. rewrite Hc.
      cbn [mbind result_bind]. split; [done|]. eauto.
Qed.

Lemma kept_at_snoc (unique_leaves : list Leaf) (node other : Leaf) (k : Z) :
  kept_at unique_leaves node k → kept_at (unique_leaves ++ [other]) node k.
Proof.
  intros (Hk & Hnone & u & Hu & Heq).
  pose proof (lookup_lt_Some _ _ _ Hu) as Hlt.
  split; [done|]. split.
  - by rewrite take_app_le by lia.
  - exists u. by rewrite lookup_app_l.
Qed.

Lemma remap_invariant_nil : remap_invariant [] [] ∅.
Proof.
  split; [done|]. split_and!.
  - intros j node Hj. by rewrite lookup_nil in Hj.
  - intros key v Hkey. by rewrite lookup_empty in Hkey.
  - intros i Hi. simpl in Hi. lia.
Qed.

Lemma dedup_leaf_invariant (done U U' : list Leaf) (R R' : gmap Z Z)
    (node : Leaf) :
  dedup_leaf (U, R) (len done, node) = OK (U', R') →
  remap_invariant done U R → remap_invariant (done ++ [node]) U' R'.
Proof.
  unfold dedup_leaf. intros H (Hsub & Hmap & Hdom & Hsur). bind_inv H.
  assert (∃ k U1, (k, U1) = match a with
                            | Some found => (found, U)
                            | None => (len U, U ++ [node])
                            end ∧
                  kept_at U1 node k ∧ U1 `sublist_of` done ++ [node] ∧
                  (∀ x j, kept_at U x j → kept_at U1 x j) ∧
                  (∀ i, (i < length U1)%nat →
                        (i < length U)%nat ∨ Z.of_nat i = k))
    as (k & U1 & Heq & Hkept & Hsub1 & Hmono & Hnew).
  { destruct a as [found|].
    - exists found, U. split; [done|].
      apply index_from_Some in Hc as (Hle & Hnone & u & Hu & Hsame).
      rewrite Z.sub_0_r in *.
      split; [|split; [by apply sublist_inserts_r | split; [done | auto]]].
      split; [done|]. split; [done|]. eauto.
    - exists (len U), (U ++ [node]). split; [done|].
      split; [|split; [by apply sublist_app | split]].
      + unfold kept_at, len. rewrite Nat2Z.id. split; [lia|].
        rewrite take_app_length. split; [done|].
        exists node. rewrite list_lookup_middle by done. eauto.
      + intros x j. apply kept_at_snoc.
      + intros i Hi. rewrite length_app in Hi. simpl in Hi. unfold len. lia. }
  rewrite <- Heq in H. injection H as <- <-.
  split; [done|]. split_and!.
  - intros j x Hj.
    destruct (decide (j < length done)%nat) as [Hlt|Hge].
    + rewrite lookup_app_l in Hj by done.
      destruct (Hmap j x Hj) as (k' & Hk' & Hkept').
      exists k'. split; [|by apply Hmono].
      rewrite lookup_insert_ne by (unfold len; lia). done.
    + assert (j = length done) as ->.
      { apply lookup_lt_Some in Hj. rewrite length_app in Hj. simpl in Hj. lia. }
      rewrite list_lookup_middle in Hj by done. injection Hj as <-.
      exists k. split; [|done]. unfold len. by rewrite lookup_insert_eq.
  - intros key v Hkey. rewrite length_app. simpl.
    apply lookup_insert_Some in Hkey as [[<- _]|[_ Hkey]].
    + exists (length done). split; [lia | done].
    + destruct (Hdom key v Hkey) as (j & Hj & ->). exists j. split; [lia | done].
  - intros i Hi. rewrite length_app. simpl.
    destruct (Hnew i Hi) as [Hold|Hk].
    + destruct (Hsur i Hold) as (j & Hj & HR). exists j. split; [lia|].
      rewrite lookup_insert_ne by (unfold len; lia). done.
    + exists (length done). split; [lia|]. unfold len.
      rewrite lookup_insert_eq. f_equal. lia.
Qed.

Lemma dedup_loop_invariant (rest done U U' : list Leaf) (R R' : gmap Z Z) :
  for_each dedup_leaf (zip (seqZ (len done) (len rest)) rest) (U, R)
    = OK (U', R') →
  remap_invariant done U R → remap_invariant (done ++ rest) U' R'.
Proof.
  revert done U R. induction rest as [|node rest IH]; intros done U R H Hinv.
  - injection H as <- <-. by rewrite app_nil_r.
  - rewrite enumerate_from_cons in H. cbn [for_each] in H. bind_inv H.
    destruct a as [U1 R1].
    apply (dedup_leaf_invariant done) in Hc; [|done].
    replace (len done + 1) with (len (done ++ [node])) in H
      by (unfold len; rewrite length_app; simpl; lia).
    apply IH in H; [|done]. by rewrite <- app_assoc in H.
Qed.

Lemma remap_get_remapped (leaves U : list Leaf) (R : gmap Z Z) (ref : Z) :
  remap_invariant leaves U R → remapped leaves U ref (remap_get R ref).
Proof.
  intros (_ & Hmap & Hdom & _). unfold remap_get. split.
  - intros node Hneg Hnode. destruct (Hmap _ _ Hnode) as (k & Hk & Hkept).
    replace (- Z.of_nat (Z.to_nat (- ref - 1)) - 1) with ref in Hk by lia.
    rewrite Hk. simpl. eauto.
  - intros Hout. destruct (R !! ref) as [v|] eqn:Href; [|done].
    destruct (Hdom _ _ Href) as (j & Hj & ->). unfold len in Hout. lia.
Qed.

Lemma remove_duplicate_leaves_result (forest forest' : Forest) :
  remove_duplicate_leaves forest = OK forest' →
  roots forest' = roots forest ∧
  leaves forest' `sublist_of` leaves forest ∧
  first_seen (leaves forest') ∧
  Forall2 (λ n n',
             node_feature n' = node_feature n ∧ node_th n' = node_th n ∧
             remapped (leaves forest) (leaves forest')
                      (node_left n) (node_left n') ∧
             remapped (leaves forest) (leaves forest')
                      (node_right n) (node_right n'))
          (nodes forest) (nodes forest').
Proof.
  intros H. destruct forest as [ns rs ls]. unfold remove_duplicate_leaves in H.
  bind_inv H. destruct a as [U R]. bind_inv H. bind_inv H.
  injection H as <-. simpl.
  pose proof (dedup_loop_first_seen _ ([], ∅) (U, R) Hc first_seen_nil) as Hfs.
  apply (dedup_loop_invariant ls [] [] U ∅ R) in Hc;
    [|apply remap_invariant_nil].
  simpl in Hc. split; [done|]. split; [apply Hc|]. split; [done|].
  apply Forall2_fmap_r, Forall_Forall2_diag, Forall_forall.
  intros n _. simpl.
  split; [done|]. split; [done|]. split; by apply remap_get_remapped.
Qed.

(** *** The order of the kept leaves *)

Lemma kept_at_position (unique_leaves : list Leaf) (node : Leaf) (k : Z) :
  kept_at unique_leaves node k → 0 ≤ k < len unique_leaves.
Proof.
  intros (Hk & _ & u & Hu & _). apply lookup_lt_Some in Hu. unfold len. lia.
Qed.

Lemma dedup_leaf_order (done U U' : list Leaf) (R R' : gmap Z Z)
    (node : Leaf) :
  dedup_leaf (U, R) (len done, node) = OK (U', R') →
  remap_invariant done U R → in_first_seen_order done U →
  in_first_seen_order (done ++ [node]) U'.
Proof.
  intros H Hinv [_ Horder].
  pose proof (dedup_leaf_invariant done U U' R R' node H Hinv)
    as (_ & Hmap' & _).
  split.
  { intros j x Hj. destruct (Hmap' j x Hj) as (k & _ & Hkept). eauto. }
  destruct Hinv as (_ & Hmap & _).
  assert (Hold : ∀ i u, U !! i = Some u → (∀ x k, kept_at U x k → kept_at U' x k) →
            ∃ j, (done ++ [node]) !! j = Some u ∧
                 ∀ j' x, (j' < j)%nat → (done ++ [node]) !! j' = Some x →
                         ∃ k, k < Z.of_nat i ∧ kept_at U' x k).
  { intros i u Hi Hmono. destruct (Horder i u Hi) as (j & Hj & Hbefore).
    pose proof (lookup_lt_Some _ _ _ Hj) as Hlt.
    exists j. split; [by apply lookup_app_l_Some|].
    intros j' x Hj' Hx. rewrite lookup_app_l in Hx by lia.
    destruct (Hbefore j' x Hj' Hx) as (k & Hk & Hkept). eauto. }
  unfold dedup_leaf in H. bind_inv H. destruct a as [found|];
    injection H as <- <-.
  - intros i u Hi. by apply Hold.
  - intros i u Hi.
    destruct (decide (i < length U)%nat) as [Hlt|Hge].
    + rewrite lookup_app_l in Hi by done. apply Hold; [done|].
      intros x k. apply kept_at_snoc.
    + assert (i = length U) as ->.
      { apply lookup_lt_Some in Hi. rewrite length_app in Hi. simpl in Hi. lia. }
      rewrite list_lookup_middle in Hi by done. injection Hi as <-.
      exists (length done). split; [by apply list_lookup_middle|].
      intros j' x Hj' Hx. rewrite lookup_app_l in Hx by done.
      destruct (Hmap j' x Hx) as (k & _ & Hkept). exists k.
      split; [|by apply kept_at_snoc].
      apply kept_at_position in Hkept. unfold len in Hkept. lia.
Qed.

Lemma dedup_loop_order (rest done U U' : list Leaf) (R R' : gmap Z Z) :
  for_each dedup_leaf (zip (seqZ (len done) (len rest)) rest) (U, R)
    = OK (U', R') →
  remap_invariant done U R → in_first_seen_order done U →
  in_first_seen_order (done ++ rest) U'.
Proof.
  revert done U R. induction rest as [|node rest IH]; intros done U R H Hinv Ho.
  - injection H as <- <-. by rewrite app_nil_r.
  - rewrite enumerate_from_cons in H. cbn [for_each] in H. bind_inv H.
    destruct a as [U1 R1].
    pose proof (dedup_leaf_invariant done _ _ _ _ _ Hc Hinv) as Hinv1.
    pose proof (dedup_leaf_order done _ _ _ _ _ Hc Hinv Ho) as Ho1.
    replace (len done + 1) with (len (done ++ [node])) in H
      by (unfold len; rewrite length_app; simpl; lia).
    apply IH in H; [|done..]. by rewrite <- app_assoc in H.
Qed.

(** The leaves that [remove_duplicate_leaves] returns are the payloads of
    the argument in the order in which they were first seen. *)
Lemma remove_duplicate_leaves_order (forest forest' : Forest) :
  remove_duplicate_leaves forest = OK forest' →
  in_first_seen_order (leaves forest) (leaves forest').
Proof.
  intros H. destruct forest as [ns rs ls]. unfold remove_duplicate_leaves in H.
  bind_inv H. destruct a as [U R]. bind_inv H. bind_inv H.
  injection H as <-. simpl.
  apply (dedup_loop_order ls [] [] U ∅ R) in Hc; [done| |].
  - apply remap_invariant_nil.
  - split; intros i x Hi; by rewrite lookup_nil in Hi.
Qed.

(** A result that keeps the payloads in the order in which they were last
    seen is not in first-seen order. *)
Lemma last_seen_is_not_first_seen_order :
  ¬ in_first_seen_order [LClass 0; LClass 1; LClass 0] [LClass 1; LClass 0].
Proof.
  intros [_ Horder]. destruct (Horder 0%nat (LClass 1) eq_refl) as (j & Hj & Hb).
  destruct j as [|[|[|j]]]; try discriminate Hj.
  destruct (Hb 0%nat (LClass 0) ltac:(lia) eq_refl) as (k & Hk & Hk0 & _).
  lia.
Qed.
(** ** A forest with a given number of decision nodes *)

Lemma nodes_A_length (n : nat) : len (nodes_A n) = Z.of_nat n.
Proof. unfold len, nodes_A. rewrite length_fmap, length_seqZ. lia. Qed.

Lemma leaves_A_length (n : nat) : len (leaves_A n) = 2 * Z.of_nat n.
Proof. unfold len. induction n as [|n IH]; simpl length; lia. Qed.

Lemma nodes_A_snoc (n : nat) :
  nodes_A n ++ [node_A (- (2 * Z.of_nat n) - 1) (- (2 * Z.of_nat n) - 2)]
    = nodes_A (S n).
Proof. unfold nodes_A. by rewrite seqZ_S, fmap_app, Z.add_0_l. Qed.

Lemma leaves_A_snoc (n : nat) :
  leaves_A n ++ [LClass 0; LClass 1] = leaves_A (S n).
Proof. induction n as [|n IH]; [done|]. simpl in *. by rewrite IH. Qed.

Lemma elem_of_nodes_A (n : nat) (x : Node) :
  x ∈ nodes_A n ↔
  ∃ j, 0 ≤ j < Z.of_nat n ∧ x = node_A (- (2 * j) - 1) (- (2 * j) - 2).
Proof.
  unfold nodes_A. rewrite list_elem_of_fmap. split.
  - intros (j & -> & Hj). apply elem_of_seqZ in Hj. exists j. split; [lia|done].
  - intros (j & Hj & ->). exists j. split; [done|]. apply elem_of_seqZ. lia.
Qed.

Lemma leaves_A_lookup (n : nat) (j : Z) :
  0 ≤ j < Z.of_nat n →
  leaves_A n !! Z.to_nat (2 * j) = Some (LClass 0) ∧
  leaves_A n !! Z.to_nat (2 * j + 1) = Some (LClass 1).
Proof.
  revert j. induction n as [|n IH]; intros j Hj; [lia|].
  destruct (decide (j = 0)) as [->|Hne]; [done|].
  replace (Z.to_nat (2 * j)) with (S (S (Z.to_nat (2 * (j - 1))))) by lia.
  replace (Z.to_nat (2 * j + 1)) with (S (S (Z.to_nat (2 * (j - 1) + 1))))
    by lia.
  simpl. apply IH. lia.
Qed.

Lemma forest_A_valid (n : nat) : assert_forest_valid (forest_A n) = OK tt.
Proof.
  unfold forest_A, assert_forest_valid.
  apply assert_node_references_valid_OK. unfold references_accepted.
  rewrite nodes_A_length, leaves_A_length. split_and!.
  - intros x Hx. apply elem_of_nodes_A in Hx as (j & Hj & ->). simpl. lia.
  - intros x Hx. apply elem_of_nodes_A in Hx as (j & Hj & ->). simpl. lia.
  - intros i Hi. right. apply elem_of_seqZ. lia.
  - intros x Hx. apply elem_of_nodes_A in Hx as (j & Hj & ->). simpl. lia.
  - intros i Hi. exists (node_A (- (2 * (i / 2)) - 1) (- (2 * (i / 2)) - 2)).
    split.
    + apply elem_of_nodes_A. exists (i / 2). split; [|done].
      split; [apply Z.div_pos; lia | apply Z.div_lt_upper_bound; lia].
    + simpl. pose proof (Z.div_mod i 2). pose proof (Z.mod_pos_bound i 2). lia.
Qed.

Lemma flatten_tree_A :
  flatten_tree tree_A "argmax" 8
    = OK ([node_A (-1) (-2)], [LClass 0; LClass 1]).
Proof. vm_compute. reflexivity. Qed.

Lemma merge_tree_A (n : nat) :
  merge_tree "argmax" (merged_A n) tree_A = OK (merged_A (S n)).
Proof.
  unfold merge_tree. rewrite flatten_tree_A.
  cbn [mbind result_bind merged_A tree_roots decision_nodes_offset
       leaf_nodes_offset forest_nodes forest_leaves fmap list_fmap].
  change (len [offset_node (Z.of_nat n) (2 * Z.of_nat n) (node_A (-1) (-2))])
    with 1.
  change (len [LClass 0; LClass 1]) with 2.
  assert (offset_node (Z.of_nat n) (2 * Z.of_nat n) (node_A (-1) (-2))
          = node_A (- (2 * Z.of_nat n) - 1) (- (2 * Z.of_nat n) - 2)) as ->.
  { unfold offset_node, offset_ref, node_A. simpl. f_equal; lia. }
  rewrite nodes_A_snoc, leaves_A_snoc.
  replace (seqZ 0 (Z.of_nat n) ++ [0 + Z.of_nat n]) with (seqZ 0 (Z.of_nat (S n)))
    by (by rewrite seqZ_S).
  pose proof (forest_A_valid (S n)) as Hvalid. unfold forest_A in Hvalid.
  rewrite Hvalid. cbn [mbind result_bind]. unfold merged_A.
  do 2 f_equal; lia.
Qed.

Lemma merge_loop_A (k n : nat) :
  for_each (merge_tree "argmax") (replicate k tree_A) (merged_A n)
    = OK (merged_A (n + k)).
Proof.
  revert n. induction k as [|k IH]; intros n.
  - by rewrite Nat.add_0_r.
  - cbn [replicate for_each]. rewrite merge_tree_A. cbn [mbind result_bind].
    rewrite IH. do 2 f_equal. lia.
Qed.

Lemma flatten_forest_copies_of_A (n : nat) :
  flatten_forest (replicate n tree_A) "argmax" = OK (forest_A n).
Proof.
  unfold flatten_forest.
  change (mkMerge [] 0 0 [] []) with (merged_A 0).
  rewrite merge_loop_A, Nat.add_0_l.
  cbn [mbind result_bind merged_A forest_nodes tree_roots forest_leaves].
  pose proof (forest_A_valid n) as Hvalid. unfold forest_A in Hvalid.
  by rewrite Hvalid.
Qed.

(** Once [0] and [1] are in [unique_leaves], scanning further copies of
    them adds nothing. *)
Lemma dedup_loop_A_rest (n : nat) (s : Z) (R : gmap Z Z) :
  ∃ R', for_each dedup_leaf (zip (seqZ s (len (leaves_A n))) (leaves_A n))
                 ([LClass 0; LClass 1], R)
        = OK ([LClass 0; LClass 1], R').
Proof.
  revert s R. induction n as [|n IH]; intros s R; [by exists R|].
  cbn [leaves_A]. rewrite !enumerate_from_cons. cbn [for_each].
  unfold dedup_leaf at 2. simpl index_from. cbn [mbind result_bind].
  unfold dedup_leaf at 2. simpl index_from. cbn [mbind result_bind].
  apply IH.
Qed.

Lemma dedup_loop_A (n : nat) :
  ∃ R, for_each dedup_leaf (enumerate (leaves_A (S n))) ([], ∅)
       = OK ([LClass 0; LClass 1], R).
Proof.
  unfold enumerate. cbn [leaves_A]. rewrite !enumerate_from_cons.
  cbn [for_each]. unfold dedup_leaf at 2. simpl index_from.
  cbn [mbind result_bind]. unfold dedup_leaf at 2. simpl index_from.
  cbn [mbind result_bind app]. apply dedup_loop_A_rest.
Qed.

Lemma kept_at_class_0 (k : Z) :
  kept_at [LClass 0; LClass 1] (LClass 0) k → k = 0.
Proof.
  intros (Hk & Hnone & u & Hu & Heq).
  destruct (Z.to_nat k) as [|[|m]] eqn:Hm; [lia | discriminate Hnone |].
  discriminate Hu.
Qed.

Lemma kept_at_class_1 (k : Z) :
  kept_at [LClass 0; LClass 1] (LClass 1) k → k = 1.
Proof.
  intros (Hk & Hnone & u & Hu & Heq).
  destruct (Z.to_nat k) as [|[|m]] eqn:Hm; [|lia|discriminate Hu].
  injection Hu as <-. by destruct Heq.
Qed.

Lemma forest_A_unique_valid (n : nat) :
  assert_forest_valid (forest_A_unique (S n)) = OK tt.
Proof.
  unfold forest_A_unique, assert_forest_valid.
  apply assert_node_references_valid_OK. unfold references_accepted.
  assert (Hin : ∀ x, x ∈ (λ _ : Z, node_A (-1) (-2)) <$> seqZ 0 (Z.of_nat (S n))
                     ↔ x = node_A (-1) (-2)).
  { intros x. rewrite list_elem_of_fmap. split; [by intros (j & -> & _)|].
    intros ->. exists 0. split; [done|]. apply elem_of_seqZ. lia. }
  assert (len ((λ _ : Z, node_A (-1) (-2)) <$> seqZ 0 (Z.of_nat (S n)))
          = Z.of_nat (S n)) as ->
    by (unfold len; rewrite length_fmap, length_seqZ; lia).
  change (len [LClass 0; LClass 1]) with 2. split_and!.
  - intros x Hx. apply Hin in Hx as ->. simpl. lia.
  - intros x Hx. apply Hin in Hx as ->. simpl. lia.
  - intros i Hi. right. apply elem_of_seqZ. lia.
  - intros x Hx. apply Hin in Hx as ->. simpl. lia.
  - intros i Hi. exists (node_A (-1) (-2)). split; [by apply Hin|].
    simpl. lia.
Qed.

Lemma remove_duplicate_leaves_copies_of_A (n : nat) :
  n ≠ 0%nat → remove_duplicate_leaves (forest_A n) = OK (forest_A_unique n).
Proof.
  destruct n as [|n]; [done|]. intros _.
  unfold remove_duplicate_leaves, forest_A.
  destruct (dedup_loop_A n) as [R Hloop]. rewrite Hloop.
  cbn [mbind result_bind].
  rewrite py_truediv_nonzero by (rewrite nodes_A_length; lia).
  cbn [mbind result_bind].
  apply (dedup_loop_invariant (leaves_A (S n)) [] [] _ ∅ R) in Hloop.
  2: { apply remap_invariant_nil. }
  rewrite app_nil_l in Hloop.
  assert (remap_node R <$> nodes_A (S n)
          = (λ _, node_A (-1) (-2)) <$> seqZ 0 (Z.of_nat (S n))) as ->.
  { unfold nodes_A. rewrite <- list_fmap_compose. apply list_fmap_ext.
    intros i j Hj. apply lookup_seqZ in Hj as [-> Hi]. rewrite Z.add_0_l.
    destruct (leaves_A_lookup (S n) (Z.of_nat i)) as [H0 H1]; [lia|].
    pose proof (remap_get_remapped _ _ _ (- (2 * Z.of_nat i) - 1) Hloop)
      as [Hl _].
    pose proof (remap_get_remapped _ _ _ (- (2 * Z.of_nat i) - 2) Hloop)
      as [Hr _].
    destruct (Hl (LClass 0)) as (k0 & Hk0 & Hkept0); [lia| |].
    { by replace (- (- (2 * Z.of_nat i) - 1) - 1) with (2 * Z.of_nat i)
        by lia. }
    destruct (Hr (LClass 1)) as (k1 & Hk1 & Hkept1); [lia| |].
    { by replace (- (- (2 * Z.of_nat i) - 2) - 1) with (2 * Z.of_nat i + 1)
        by lia. }
    apply kept_at_class_0 in Hkept0 as ->.
    apply kept_at_class_1 in Hkept1 as ->.
    unfold remap_node, node_A; simpl. by rewrite Hk0, Hk1. }
  pose proof (forest_A_unique_valid n) as Hvalid.
  unfold forest_A_unique in Hvalid. by rewrite Hvalid.
Qed.

(** ** remove_duplicate_leaves returns on a forest that the validator accepts *)

Lemma remap_get_cases (ls U : list Leaf) (R : gmap Z Z) (ref : Z) :
  remap_invariant ls U R →
  (0 ≤ ref → remap_get R ref = ref) ∧
  (ref < 0 → - ref - 1 < len ls →
   ∃ k, 0 ≤ k < len U ∧ remap_get R ref = - k - 1) ∧
  (ref < 0 → remap_get R ref < 0).
Proof.
  intros Hinv. destruct (remap_get_remapped ls U R ref Hinv) as [Hin Hout].
  assert (Hrange : ref < 0 → - ref - 1 < len ls →
                   ∃ k, 0 ≤ k < len U ∧ remap_get R ref = - k - 1).
  { intros Hneg Hlt.
    destruct (lookup_lt_is_Some_2 ls (Z.to_nat (- ref - 1))) as [node Hnode];
      [unfold len in Hlt; lia|].
    destruct (Hin node Hneg Hnode) as (k & -> & Hk & _ & u & Hu & _).
    exists k. split; [|done]. apply lookup_lt_Some in Hu. unfold len. lia. }
  split_and!.
  - intros H0. apply Hout. by left.
  - done.
  - intros Hneg. destruct (decide (- ref - 1 < len ls)) as [Hlt|Hge].
    + destruct (Hrange Hneg Hlt) as (k & Hk & ->). lia.
    + rewrite Hout; [done|]. right. lia.
Qed.

Lemma dedup_keeps_validity (ns : list Node) (ls U : list Leaf) (rs : list Z)
    (R : gmap Z Z) :
  remap_invariant ls U R → references_accepted ns ls rs →
  references_accepted (remap_node R <$> ns) U rs.
Proof.
  intros Hinv (H1 & H2 & H3 & H4 & H6).
  pose proof (λ ref, remap_get_cases ls U R ref Hinv) as Hget.
  assert (Hlen : len (remap_node R <$> ns) = len ns)
    by (unfold len; by rewrite length_fmap).
  assert (Hnonneg : ∀ ref, 0 ≤ remap_get R ref → remap_get R ref = ref ∧ 0 ≤ ref).
  { intros ref H0. destruct (decide (0 ≤ ref)) as [Hr|Hr].
    - split; [by apply Hget | done].
    - destruct (Hget ref) as (_ & _ & Hneg). specialize (Hneg ltac:(lia)). lia. }
  unfold references_accepted. rewrite Hlen. split_and!.
  - intros n' Hn'. apply list_elem_of_fmap in Hn' as (n & -> & Hn). simpl.
    intros H0. apply Hnonneg in H0 as [-> H0]. by apply H1.
  - intros n' Hn'. apply list_elem_of_fmap in Hn' as (n & -> & Hn). simpl.
    intros H0. apply Hnonneg in H0 as [-> H0]. by apply H2.
  - intros i Hi. destruct (H3 i Hi) as [(n & Hn & Href)|Hr]; [|by right].
    left. exists (remap_node R n). split; [by apply list_elem_of_fmap_2|].
    simpl. destruct Href as [<-|<-]; [left|right]; apply Hget; lia.
  - intros n' Hn'. apply list_elem_of_fmap in Hn' as (n & -> & Hn). simpl.
    intros Hneg.
    assert (node_left n < 0) as Hl.
    { destruct (decide (0 ≤ node_left n)) as [H0|H0]; [|lia].
      destruct (Hget (node_left n)) as (Hsame & _). rewrite Hsame in Hneg; lia. }
    destruct (Hget (node_left n)) as (_ & Hin & _).
    destruct (Hin Hl (H4 n Hn Hl)) as (k & Hk & ->). lia.
  - intros i Hi. destruct Hinv as (_ & _ & _ & Hsur).
    destruct (Hsur (Z.to_nat i)) as (j & Hj & HR); [unfold len in Hi; lia|].
    rewrite Z2Nat.id in HR by lia.
    destruct (H6 (Z.of_nat j)) as (n & Hn & Href); [unfold len; lia|].
    exists (remap_node R n). split; [by apply list_elem_of_fmap_2|].
    simpl. unfold remap_get.
    destruct Href as [->| ->]; [left|right]; by rewrite HR.
Qed.

(** On a forest that the validator accepts, with at least one decision node
    and scalar payloads, [remove_duplicate_leaves] returns. *)
Lemma remove_duplicate_leaves_returns (forest : Forest) :
  assert_forest_valid forest = OK tt → nodes forest ≠ [] →
  scalar_leaves (leaves forest) →
  ∃ forest', remove_duplicate_leaves forest = OK forest'.
Proof.
  destruct forest as [ns rs ls]. simpl. intros Hvalid Hns Hls.
  unfold remove_duplicate_leaves.
  destruct (dedup_loop_scalar (enumerate ls) [] ∅) as [[U R] Hloop];
    [by rewrite snd_enumerate | constructor |].
  rewrite Hloop. cbn [mbind result_bind].
  rewrite py_truediv_nonzero by (unfold len; destruct ns; simpl; [done | lia]).
  cbn [mbind result_bind].
  apply (dedup_loop_invariant ls [] [] U ∅ R) in Hloop;
    [|apply remap_invariant_nil].
  apply assert_node_references_valid_OK in Hvalid.
  pose proof (dedup_keeps_validity ns ls U rs R Hloop Hvalid) as Hvalid'.
  apply assert_node_references_valid_OK in Hvalid'.
  unfold assert_forest_valid. rewrite Hvalid'. eauto.
Qed.

(** ** The leaves of the modes ['argmax'] and ['value'] are scalars *)

Lemma for_each_invariant {A S} (P : S → Prop) (body : S → A → result S)
    (xs : list A) (acc acc' : S) :
  (∀ st x st', body st x = OK st' → P st → P st') →
  for_each body xs acc = OK acc' → P acc → P acc'.
Proof.
  intros Hbody. revert acc. induction xs as [|x xs IH]; intros acc H Hacc.
  - by injection H as <-.
  - cbn [for_each] in H. bind_inv H. eapply IH; [exact H|]. by eapply Hbody.
Qed.

Lemma leaf_data_scalar (tree : Tree) (leaf : string) (leaf_bits idx : Z)
    (l : Leaf) :
  leaf = "argmax" ∨ leaf = "value" →
  leaf_data tree leaf leaf_bits idx = OK l → is_scalar l = true.
Proof.
  unfold leaf_data. intros [-> | ->] H; bind_inv H; simpl in H;
    bind_inv H; bind_inv H; by injection H as <-.
Qed.

Lemma process_child_scalar (tree : Tree) (leaf : string) (leaf_bits idx : Z)
    (ls ls' : list Leaf) (ref : Z) :
  leaf = "argmax" ∨ leaf = "value" →
  process_child tree leaf leaf_bits idx ls = OK (ref, ls') →
  scalar_leaves ls → scalar_leaves ls'.
Proof.
  intros Hleaf H Hls. unfold process_child in H.
  bind_inv H. bind_inv H. destruct a0.
  - unfold add_leaf in H. bind_inv H. bind_inv H. injection H as _ <-.
    apply Forall_app. split; [done|]. constructor; [|done].
    by eapply leaf_data_scalar.
  - by injection H as _ <-.
Qed.

Lemma scan_node_scalar (tree : Tree) (leaf : string) (leaf_bits : Z)
    (st st' : scan_state) (item : Z * (Z * Z * Z * float64)) :
  leaf = "argmax" ∨ leaf = "value" →
  scan_node tree leaf leaf_bits st item = OK st' →
  scalar_leaves st.1.2 → scalar_leaves st'.1.2.
Proof.
  intros Hleaf H Hst. destruct st as [[dn ls] mapping].
  destruct item as [node_no [[[c_left c_right] ft] th]].
  unfold scan_node in H.
  destruct ((c_left =? -1) && (c_right =? -1)); [by injection H as <-|].
  bind_inv H. destruct a as [l ls1]. bind_inv H. destruct a as [r ls2].
  injection H as <-. simpl in *.
  eapply process_child_scalar; [done | exact Hc0 |].
  by eapply process_child_scalar.
Qed.

Lemma flatten_tree_scalar (tree : Tree) (leaf : string) (leaf_bits : Z)
    (decision_nodes : list Node) (leaf_nodes : list Leaf) :
  leaf = "argmax" ∨ leaf = "value" →
  flatten_tree tree leaf leaf_bits = OK (decision_nodes, leaf_nodes) →
  scalar_leaves leaf_nodes.
Proof.
  intros Hleaf H. unfold flatten_tree in H.
  bind_inv H. bind_inv H. bind_inv H. destruct a1 as [[dn ls] mapping].
  bind_inv H. bind_inv H. bind_inv H. injection H as _ <-.
  apply (for_each_invariant (λ st : scan_state, scalar_leaves st.1.2)) in Hc1;
    [done | | constructor].
  intros st x st'. by apply scan_node_scalar.
Qed.

Lemma merge_tree_scalar (leaf : string) (st st' : merge_state) (tree : Tree) :
  leaf = "argmax" ∨ leaf = "value" →
  merge_tree leaf st tree = OK st' →
  scalar_leaves (forest_leaves st) → scalar_leaves (forest_leaves st').
Proof.
  intros Hleaf H Hst. unfold merge_tree in H.
  bind_inv H. destruct a as [dn ls]. bind_inv H. injection H as <-. simpl.
  apply Forall_app. split; [done|]. by eapply flatten_tree_scalar.
Qed.

Lemma flatten_forest_scalar (leaf : string) (trees : list Tree)
    (forest : Forest) :
  leaf = "argmax" ∨ leaf = "value" →
  flatten_forest trees leaf = OK forest → scalar_leaves (leaves forest).
Proof.
  intros Hleaf H. unfold flatten_forest in H.
  bind_inv H. bind_inv H. injection H as <-. simpl.
  apply (for_each_invariant (λ st, scalar_leaves (forest_leaves st))) in Hc;
    [done | | constructor].
  intros st x st'. by apply merge_tree_scalar.
Qed.

Lemma flatten_forest_valid (leaf : string) (trees : list Tree)
    (forest : Forest) :
  flatten_forest trees leaf = OK forest → assert_forest_valid forest = OK tt.
Proof.
  unfold flatten_forest. intros H. bind_inv H. bind_inv H.
  injection H as <-. by destruct a0.
Qed.

(** ** The node limit of the wrapper *)

Lemma remove_duplicate_leaves_nodes_length (forest forest' : Forest) :
  remove_duplicate_leaves forest = OK forest' →
  len (nodes forest') = len (nodes forest).
Proof.
  destruct forest as [ns rs ls]. unfold remove_duplicate_leaves. intros H.
  bind_inv H. destruct a as [unique_leaves remap_leaves].
  bind_inv H. bind_inv H. injection H as <-.
  unfold len; simpl. by rewrite length_fmap.
Qed.

(** C4. When the merged forest has exactly 2^15 decision nodes, the
    de-duplication returns and the wrapper keeps its result; when the merged
    forest has 2^15 + 1 decision nodes, the wrapper raises a [ValueError]
    whose message gives the count 32769 and the limit 32768. *)
Theorem Wrapper_node_limit_boundary
    (regressor : bool) (trees : list Tree) (merged : Forest) :
  flatten_forest trees (if regressor then "value" else "argmax") = OK merged →
  (len (nodes merged) = 2 ^ 15 →
   ∃ forest_, remove_duplicate_leaves merged = OK forest_ ∧
              Wrapper_forest regressor trees = OK forest_) ∧
  (len (nodes merged) = 2 ^ 15 + 1 →
   Wrapper_forest regressor trees
     = Raise (ValueError
                "Model has 32769 nodes. Max supported is 32768 nodes.")).
Proof.
  intros Hmerge.
  assert (Hreturns : len (nodes merged) ≠ 0 →
                     ∃ forest_, remove_duplicate_leaves merged = OK forest_).
  { intros Hlen. apply remove_duplicate_leaves_returns.
    - by eapply flatten_forest_valid.
    - intros Hnil. rewrite Hnil in Hlen. by apply Hlen.
    - eapply flatten_forest_scalar; [|exact Hmerge]. by destruct regressor; [right|left]. }
  unfold Wrapper_forest. rewrite Hmerge. cbn [mbind result_bind].
  split; intros Hlen.
  - destruct Hreturns as [forest_ Hdedup]; [lia|].
    exists forest_. split; [done|]. rewrite Hdedup. cbn [mbind result_bind].
    unfold Wrapper_check_nodes.
    rewrite (remove_duplicate_leaves_nodes_length _ _ Hdedup), Hlen.
    reflexivity.
  - destruct Hreturns as [forest_ Hdedup]; [lia|].
    rewrite Hdedup. cbn [mbind result_bind].
    unfold Wrapper_check_nodes.
    rewrite (remove_duplicate_leaves_nodes_length _ _ Hdedup), Hlen.
    reflexivity.
Qed.

(** With 2^15 copies of Example A the wrapper keeps the forest; with one
    more copy it raises. *)
Lemma Wrapper_node_limit_boundary_witness :
  Wrapper_forest false (replicate (Z.to_nat (2 ^ 15)) tree_A)
    = OK (forest_A_unique (Z.to_nat (2 ^ 15))) ∧
  Wrapper_forest false (replicate (Z.to_nat (2 ^ 15 + 1)) tree_A)
    = Raise (ValueError
               "Model has 32769 nodes. Max supported is 32768 nodes.").
Proof.
  split.
  - destruct (proj1 (Wrapper_node_limit_boundary false _ _
                       (flatten_forest_copies_of_A (Z.to_nat (2 ^ 15)))))
      as (forest_ & Hdedup & Hwrapper).
    + unfold forest_A; cbn [nodes]. rewrite nodes_A_length. lia.
    + rewrite remove_duplicate_leaves_copies_of_A in Hdedup by lia.
      injection Hdedup as <-. exact Hwrapper.
  - apply (proj2 (Wrapper_node_limit_boundary false _ _
                    (flatten_forest_copies_of_A (Z.to_nat (2 ^ 15 + 1))))).
    unfold forest_A; cbn [nodes]. rewrite nodes_A_length. lia.
Defined.

(** ** Idempotence *)

(** C5. [remove_duplicate_leaves] applied to its own outcome gives that
    outcome: when it returns a forest, it returns the same forest on it.  It
    does return on a forest that the validator accepts, with a decision node
    and scalar payloads.  The returned forest keeps the roots; its leaves
    are the payloads of the argument in the order in which they were first
    seen (every leaf of the argument is kept at a position, and every leaf
    before the one kept at position [i] is kept before [i]), none of them
    found twice; its nodes are those of the argument, with every leaf
    reference pointing to the position of the leaf's payload in the new
    leaf list. *)
Theorem remove_duplicate_leaves_idempotent (forest : Forest) :
  remove_duplicate_leaves forest ≫= remove_duplicate_leaves
    = remove_duplicate_leaves forest ∧
  (assert_forest_valid forest = OK tt → nodes forest ≠ [] →
   scalar_leaves (leaves forest) →
   ∃ forest', remove_duplicate_leaves forest = OK forest') ∧
  (∀ forest',
     remove_duplicate_leaves forest = OK forest' →
     remove_duplicate_leaves forest' = OK forest' ∧
     roots forest' = roots forest ∧
     leaves forest' `sublist_of` leaves forest ∧
     first_seen (leaves forest') ∧
     in_first_seen_order (leaves forest) (leaves forest') ∧
     Forall2 (λ n n',
                node_feature n' = node_feature n ∧ node_th n' = node_th n ∧
                remapped (leaves forest) (leaves forest')
                         (node_left n) (node_left n') ∧
                remapped (leaves forest) (leaves forest')
                         (node_right n) (node_right n'))
             (nodes forest) (nodes forest')).
Proof.
  split_and!.
  - destruct (remove_duplicate_leaves forest) as [forest'|e] eqn:H; [|done].
    cbn [mbind result_bind]. by apply (remove_duplicate_leaves_again forest).
  - apply remove_duplicate_leaves_returns.
  - intros forest' H.
    destruct (remove_duplicate_leaves_result _ _ H)
      as (Hroots & Hsub & Hseen & Hnodes).
    split_and!; try done.
    + by apply (remove_duplicate_leaves_again forest).
    + by apply remove_duplicate_leaves_order.
Qed.

(** Example B, merged: the validator accepts it, de-duplicating it gives
    leaves [0, 1], and de-duplicating the result gives the result. *)
Lemma remove_duplicate_leaves_idempotent_witness :
  let merged := mkForest [node_A (-1) (-2); node_A (-3) (-4)] [0; 1]
                  [LClass 0; LClass 1; LClass 0; LClass 1] in
  let once := mkForest [node_A (-1) (-2); node_A (-1) (-2)] [0; 1]
                [LClass 0; LClass 1] in
  assert_forest_valid merged = OK tt ∧
  remove_duplicate_leaves merged = OK once ∧
  remove_duplicate_leaves once = OK once.
Proof.
  intros merged once.
  assert (H : remove_duplicate_leaves merged = OK once)
    by (vm_compute; reflexivity).
  split; [vm_compute; reflexivity|]. split; [exact H|].
  destruct (remove_duplicate_leaves_idempotent merged) as (_ & _ & Hresult).
  exact (proj1 (Hresult once H)).
Defined.

(** ** remove_duplicate_leaves and its argument *)

Lemma remap_fold_outside (R : gmap Z Z) (ns : list nat) (h : nat → Node)
    (n : nat) :
  n ∉ ns → foldl (Heap.remap_in_place R) h ns n = h n.
Proof.
  revert h. induction ns as [|m ns IH]; intros h Hn; [done|].
  apply not_elem_of_cons in Hn as [Hne Hn]. cbn [foldl].
  rewrite IH by done. unfold Heap.remap_in_place.
  by rewrite fn_lookup_insert_ne.
Qed.

(** One assignment keeps [feature] and [th] of every object, and keeps a
    child reference that no key of the remapping equals. *)
Lemma remap_in_place_keeps (R : gmap Z Z) (h : nat → Node) (m n : nat) :
  let h' := Heap.remap_in_place R h m in
  node_feature (h' n) = node_feature (h n) ∧
  node_th (h' n) = node_th (h n) ∧
  (R !! node_left (h n) = None → node_left (h' n) = node_left (h n)) ∧
  (R !! node_right (h n) = None → node_right (h' n) = node_right (h n)).
Proof.
  unfold Heap.remap_in_place. destruct (decide (m = n)) as [->|Hne].
  - rewrite fn_lookup_insert. unfold remap_node, remap_get; simpl.
    repeat split; by intros ->.
  - rewrite fn_lookup_insert_ne by done. done.
Qed.

Lemma remap_fold_keeps (R : gmap Z Z) (ns : list nat) (h : nat → Node)
    (n : nat) :
  (∀ key v, R !! key = Some v → key < 0) →
  let h' := foldl (Heap.remap_in_place R) h ns in
  node_feature (h' n) = node_feature (h n) ∧
  node_th (h' n) = node_th (h n) ∧
  (0 ≤ node_left (h n) → node_left (h' n) = node_left (h n)) ∧
  (0 ≤ node_right (h n) → node_right (h' n) = node_right (h n)).
Proof.
  intros Hneg.
  assert (Hnone : ∀ ref, 0 ≤ ref → R !! ref = None).
  { intros ref Href. destruct (R !! ref) as [v|] eqn:Hv; [|done].
    apply Hneg in Hv. lia. }
  revert h. induction ns as [|m ns IH]; intros h; [done|].
  cbn [foldl]. cbn zeta in *.
  destruct (IH (Heap.remap_in_place R h m)) as (Hf & Ht & Hl & Hr).
  destruct (remap_in_place_keeps R h m n) as (Hf1 & Ht1 & Hl1 & Hr1).
  split; [congruence|]. split; [congruence|]. split.
  - intros H0. rewrite Hl; rewrite Hl1; auto.
  - intros H0. rewrite Hr; rewrite Hr1; auto.
Qed.

(** When the node objects are pairwise distinct, each is rewritten once. *)
Lemma remap_fold_distinct (R : gmap Z Z) (ns : list nat) (h : nat → Node) :
  NoDup ns →
  foldl (Heap.remap_in_place R) h ns <$> ns = remap_node R <$> (h <$> ns).
Proof.
  intros Hnd. revert h.
  induction Hnd as [|n ns Hn _ IH]; intros h; [done|].
  cbn [foldl]. rewrite !fmap_cons. f_equal.
  - rewrite remap_fold_outside by done.
    unfold Heap.remap_in_place. by rewrite fn_lookup_insert.
  - rewrite IH. f_equal. apply list_fmap_ext. intros i m Hm.
    unfold Heap.remap_in_place. rewrite fn_lookup_insert_ne; [done|].
    intros <-. apply Hn. by eapply list_elem_of_lookup_2.
Qed.

Lemma dedup_loop_keys_negative (leaves U : list Leaf) (R : gmap Z Z) :
  for_each dedup_leaf (enumerate leaves) ([], ∅) = OK (U, R) →
  ∀ key v, R !! key = Some v → key < 0.
Proof.
  intros H key v Hkey.
  apply (dedup_loop_invariant leaves [] [] U ∅ R) in H.
  - destruct H as (_ & _ & Hdom & _).
    destruct (Hdom _ _ Hkey) as (j & _ & ->). lia.
  - apply remap_invariant_nil.
Qed.

(** C9, amended.  The call assigns to the node objects of its argument and
    returns the same node list and roots with a new leaf list.  After the
    call every node object has the [feature] and [th] it had, and every
    non-negative child reference it had; objects outside the node list are
    as they were.  When the node objects of the list are pairwise distinct,
    the argument read before the call and the result read after it are
    related by the function on forest values. *)
Theorem remove_duplicate_leaves_rewrites_in_place
    (node_refs : list nat) (tree_roots : list Z) (leaf_nodes : list Leaf)
    (h h' : nat → Node) (out : result Heap.ForestRef) :
  Heap.remove_duplicate_leaves (node_refs, tree_roots, leaf_nodes) h
    = (h', out) →
  (∀ n, node_feature (h' n) = node_feature (h n) ∧
        node_th (h' n) = node_th (h n) ∧
        (0 ≤ node_left (h n) → node_left (h' n) = node_left (h n)) ∧
        (0 ≤ node_right (h n) → node_right (h' n) = node_right (h n))) ∧
  (∀ n, n ∉ node_refs → h' n = h n) ∧
  (∀ forest', out = OK forest' → forest'.1 = (node_refs, tree_roots)) ∧
  (NoDup node_refs →
   match out with
   | OK forest' =>
       remove_duplicate_leaves
           (Heap.view h (node_refs, tree_roots, leaf_nodes))
         = OK (Heap.view h' forest')
   | Raise e =>
       remove_duplicate_leaves
           (Heap.view h (node_refs, tree_roots, leaf_nodes))
         = Raise e
   end).
Proof.
  unfold Heap.remove_duplicate_leaves, remove_duplicate_leaves, Heap.view.
  destruct (for_each dedup_leaf (enumerate leaf_nodes) ([], ∅))
    as [[U R]|e] eqn:Hloop.
  2: { intros [= <- <-]. repeat split; done. }
  assert (len (h <$> node_refs) = len node_refs) as Hlen
    by (unfold len; by rewrite length_fmap).
  cbn [mbind result_bind]. rewrite Hlen.
  destruct (py_truediv (len leaf_nodes - len U) (len node_refs)) as [[]|e].
  2: { intros [= <- <-]. repeat split; done. }
  cbn [mbind result_bind].
  pose proof (dedup_loop_keys_negative _ _ _ Hloop) as Hneg.
  set (h1 := foldl (Heap.remap_in_place R) h node_refs).
  assert (Hkeeps : ∀ n, node_feature (h1 n) = node_feature (h n) ∧
                        node_th (h1 n) = node_th (h n) ∧
                        (0 ≤ node_left (h n) →
                         node_left (h1 n) = node_left (h n)) ∧
                        (0 ≤ node_right (h n) →
                         node_right (h1 n) = node_right (h n)))
    by (intros n; by apply remap_fold_keeps).
  assert (Houtside : ∀ n, n ∉ node_refs → h1 n = h n)
    by (intros n; apply remap_fold_outside).
  assert (Hdistinct : NoDup node_refs →
                      h1 <$> node_refs = remap_node R <$> (h <$> node_refs))
    by apply remap_fold_distinct.
  destruct (assert_forest_valid (mkForest (h1 <$> node_refs) tree_roots U))
    as [[]|e] eqn:Hvalid; intros [= <- <-];
    (split; [done|]); (split; [done|]); (split; [by intros ? [= <-]|]);
    intros Hnd; rewrite <- (Hdistinct Hnd), Hvalid; reflexivity.
Qed.

(** On Example B the call returns, and node object 1 of the argument then
    reads [{0, 0.5, -1, -2}]. *)
Lemma remove_duplicate_leaves_rewrites_in_place_witness :
  let h' := (Heap.remove_duplicate_leaves forest_B_ref heap_B).1 in
  Heap.remove_duplicate_leaves forest_B_ref heap_B
    = (h', OK ([0; 1]%nat, [0; 1], [LClass 0; LClass 1])) ∧
  node_feature (h' 1%nat) = 0 ∧ node_th (h' 1%nat) = f64_half ∧
  h' 2%nat = heap_B 2%nat.
Proof.
  intros h'.
  assert (H : Heap.remove_duplicate_leaves forest_B_ref heap_B
              = (h', OK ([0; 1]%nat, [0; 1], [LClass 0; LClass 1])))
    by (vm_compute; reflexivity).
  destruct (remove_duplicate_leaves_rewrites_in_place _ _ _ _ _ _ H)
    as (Hkeeps & Houtside & _).
  split; [exact H|].
  destruct (Hkeeps 1%nat) as (Hf & Ht & _).
  split; [exact Hf|]. split; [exact Ht|].
  apply Houtside. intros Hin.
  apply elem_of_cons in Hin as [Hin|Hin]; [discriminate Hin|].
  apply elem_of_cons in Hin as [Hin|Hin]; [discriminate Hin|].
  by apply elem_of_nil in Hin.
Defined.

(** C9, the statement as written, on Example B: the left and right
    references of node object 1 of the argument are [-3] and [-4] before the
    call and [-1] and [-2] after it. *)
Lemma remove_duplicate_leaves_changes_its_argument :
  let h' := (Heap.remove_duplicate_leaves forest_B_ref heap_B).1 in
  nodes (Heap.view heap_B forest_B_ref)
    = [node_A (-1) (-2); node_A (-3) (-4)] ∧
  nodes (Heap.view h' forest_B_ref)
    = [node_A (-1) (-2); node_A (-1) (-2)] ∧
  nodes (Heap.view h' forest_B_ref) ≠ nodes (Heap.view heap_B forest_B_ref).
Proof.
  intros h'. split; [vm_compute; reflexivity|].
  split; [vm_compute; reflexivity|].
  intros H. vm_compute in H. discriminate H.
Qed.

(** *** The second call on node objects *)

Lemma remap_fold_identity (R : gmap Z Z) (ns : list nat) (h : nat → Node)
    (n : nat) :
  identity_remap R → foldl (Heap.remap_in_place R) h ns n = h n.
Proof.
  intros HR. revert h. induction ns as [|m ns IH]; intros h; [done|].
  cbn [foldl]. rewrite IH. unfold Heap.remap_in_place.
  destruct (decide (m = n)) as [->|Hne].
  - rewrite fn_lookup_insert. by apply remap_node_identity.
  - by rewrite fn_lookup_insert_ne.
Qed.

(** A second call on the result of a first call, in the heap that the first
    call left, returns the same tuple and leaves every node object as it
    is, whether or not the node list names an object twice. *)
Lemma remove_duplicate_leaves_in_place_again
    (forest forest1 : Heap.ForestRef) (h h1 : nat → Node) :
  Heap.remove_duplicate_leaves forest h = (h1, OK forest1) →
  ∃ h2, Heap.remove_duplicate_leaves forest1 h1 = (h2, OK forest1) ∧
        ∀ n, h2 n = h1 n.
Proof.
  destruct forest as [[ns rs] ls]. unfold Heap.remove_duplicate_leaves at 1.
  destruct (for_each dedup_leaf (enumerate ls) ([], ∅))
    as [[U R]|e] eqn:Hloop; [|discriminate].
  destruct (py_truediv (len ls - len U) (len ns)) as [[]|e] eqn:Hdiv;
    [|discriminate].
  set (h' := foldl (Heap.remap_in_place R) h ns).
  destruct (assert_forest_valid (Heap.view h' (ns, rs, U)))
    as [[]|e] eqn:Hvalid; [|discriminate].
  intros [= <- <-].
  apply (dedup_loop_first_seen _ ([], ∅) (U, R)) in Hloop;
    [|apply first_seen_nil].
  destruct (dedup_loop_again U [] ∅) as (R' & Hloop' & HR'); [done|done|].
  change (len []) with 0 in Hloop'. simpl in Hloop'.
  exists (foldl (Heap.remap_in_place R') h' ns).
  split; [|intros n; by apply remap_fold_identity].
  unfold Heap.remove_duplicate_leaves, enumerate. rewrite Hloop'.
  apply py_truediv_OK in Hdiv. rewrite py_truediv_nonzero by done.
  assert (foldl (Heap.remap_in_place R') h' ns <$> ns = h' <$> ns) as Hsame.
  { apply list_fmap_ext. intros i n _. by apply remap_fold_identity. }
  unfold Heap.view in *. by rewrite Hsame, Hvalid.
Qed.

(** ** quantize_probabilities *)

(** Comparison of [float64] values is an order on the values that are not
    NaN: below [b ≤ a] and [a ≤ x] there is no [x < b]. *)
Lemma SFcompare_chain (b a x : spec_float) :
  SFleb b a = true → SFleb a x = true → SFltb x b = false.
Proof.
  unfold SFleb, SFltb, SFcompare.
  destruct b as [sb|sb| |sb mb eb], a as [sa|sa| |sa ma ea],
           x as [sx|sx| |sx mx ex];
    try destruct sb; try destruct sa; try destruct sx;
    try discriminate; try reflexivity;
    change (Pos.compare_cont Eq) with Pos.compare;
    repeat match goal with
           | |- context [Z.compare ?p ?q] => destruct (Z.compare_spec p q)
           | |- context [Pos.compare ?p ?q] => destruct (Pos.compare_spec p q)
           end;
    simpl; try discriminate; try reflexivity; intros; exfalso; lia.
Qed.

Lemma float64_edges_ordered_true : float64_edges_ordered = true.
Proof. vm_compute. reflexivity. Qed.

Lemma float64_of_Z_le (b k : Z) :
  0 ≤ b ≤ k → k < 255 → SFleb (float64_of_Z b) (float64_of_Z k) = true.
Proof.
  intros Hb Hk. pose proof float64_edges_ordered_true as H.
  unfold float64_edges_ordered in H.
  rewrite forallb_Forall_true, Forall_forall in H.
  specialize (H k). rewrite forallb_Forall_true, Forall_forall in H.
  apply H; apply list_elem_of_In, elem_of_seqZ; lia.
Qed.

Lemma filter_all {A} (P : A → Prop) `{∀ x, Decision (P x)} (l : list A) :
  Forall P l → filter P l = l.
Proof.
  induction 1 as [|x l Hx _ IH]; [done|].
  rewrite filter_cons_True by done. by rewrite IH.
Qed.

(** The code of a value at or above the edge [k]. *)
Lemma digitize1_above (steps k : Z) (x : float64) :
  0 ≤ k < steps → steps ≤ 255 → SFleb (float64_of_Z k) x = true →
  k + 1 ≤ digitize1 (seqZ 0 steps) x.
Proof.
  intros Hk Hsteps Hx. unfold digitize1, len.
  replace steps with ((k + 1) + (steps - (k + 1))) by lia.
  rewrite seqZ_app by lia. rewrite list.filter_app, length_app.
  assert (filter (λ b, SFltb x (float64_of_Z b) = false) (seqZ 0 (k + 1))
          = seqZ 0 (k + 1)) as ->.
  { apply filter_all. apply Forall_forall. intros b Hb.
    apply list_elem_of_In, elem_of_seqZ in Hb.
    apply (SFcompare_chain _ (float64_of_Z k)); [|done].
    apply float64_of_Z_le; lia. }
  rewrite length_seqZ. lia.
Qed.

Lemma digitize1_bounds (steps : Z) (x : float64) :
  0 ≤ steps → 0 ≤ digitize1 (seqZ 0 steps) x ≤ steps.
Proof.
  intros Hsteps. unfold digitize1, len.
  pose proof (list.length_filter
                (λ b, SFltb x (float64_of_Z b) = false) (seqZ 0 steps)) as H.
  rewrite length_seqZ in H. lia.
Qed.

Lemma quantize_probabilities_codes (p : list float64) (bits : Z) :
  1 ≤ bits ≤ 8 →
  quantize_probabilities p bits
    = OK (digitize1 (seqZ 0 (2 ^ bits - 1)) <$> p).
Proof.
  intros Hbits. unfold quantize_probabilities.
  destruct (Z.leb_spec bits 8); [|lia]. destruct (Z.leb_spec 1 bits); [|lia].
  cbn [py_assert mbind result_bind].
  unfold astype_uint8, numpy_digitize, numpy_arange. f_equal.
  rewrite <- list_fmap_compose. apply list_fmap_ext. intros i x _. simpl.
  assert (2 ^ bits ≤ 2 ^ 8) by (apply Z.pow_le_mono_r; lia).
  assert (0 < 2 ^ bits) by (apply Z.pow_pos_nonneg; lia).
  pose proof (digitize1_bounds (2 ^ bits - 1) x).
  apply Z.mod_small. change (2 ^ 8) with 256 in *. lia.
Qed.

(** C8, amended.  In the leaf mode ['probabilities'] the payload of source
    node [idx] is computed from the value vector [v] of the node as it is:
    with [1 ≤ leaf_bits ≤ 8] and [steps = 2^leaf_bits - 1], the code of an
    entry is its digitization against the integer edges [0, 1, ...,
    steps - 1]; every code is between 0 and [steps], and an entry at or
    above edge [k] has a code of at least [k + 1].  Outside [1 ≤ leaf_bits
    ≤ 8] an assertion fails. *)
Theorem probabilities_leaf_payload
    (tree : Tree) (leaf_bits idx : Z) (row : list (list float64))
    (v : list float64) :
  np_getitem (value tree) idx = OK row → np_getitem row 0 = OK v →
  (1 ≤ leaf_bits ≤ 8 →
   let steps := 2 ^ leaf_bits - 1 in
   let codes := digitize1 (seqZ 0 steps) <$> v in
   leaf_data tree "probabilities" leaf_bits idx = OK (LProba codes) ∧
   Forall (λ c, 0 ≤ c ≤ steps) codes ∧
   (∀ i x c k,
      v !! i = Some x → codes !! i = Some c → 0 ≤ k < steps →
      SFleb (float64_of_Z k) x = true → k + 1 ≤ c)) ∧
  (¬ 1 ≤ leaf_bits ≤ 8 →
   leaf_data tree "probabilities" leaf_bits idx = Raise AssertionError).
Proof.
  intros Hrow Hv. unfold leaf_data. rewrite Hrow.
  cbn [mbind result_bind String.eqb Ascii.eqb Bool.eqb]. rewrite Hv.
  cbn [mbind result_bind]. split.
  - intros Hbits.
    assert (2 ^ leaf_bits ≤ 2 ^ 8) by (apply Z.pow_le_mono_r; lia).
    assert (0 < 2 ^ leaf_bits) by (apply Z.pow_pos_nonneg; lia).
    change (2 ^ 8) with 256 in *.
    rewrite quantize_probabilities_codes by done.
    split; [reflexivity|]. split.
    + apply Forall_fmap, Forall_forall. intros x _.
      apply digitize1_bounds. lia.
    + intros i x c k Hx Hc Hk Hle.
      rewrite list_lookup_fmap in Hc. rewrite Hx in Hc. injection Hc as <-.
      apply digitize1_above; [done | lia | done].
  - intros Hbits. unfold quantize_probabilities.
    destruct (Z.leb_spec leaf_bits 8); [|reflexivity].
    destruct (Z.leb_spec 1 leaf_bits); [lia | reflexivity].
Qed.

(** The leaf of Example A with the value vector [0, 2], at eight bits. *)
Lemma probabilities_leaf_payload_witness :
  leaf_data tree_A "probabilities" 8 2 = OK (LProba [1; 3]) ∧
  leaf_data tree_A "probabilities" 9 2 = Raise AssertionError.
Proof.
  destruct (probabilities_leaf_payload tree_A 8 2
              [[f64 0; f64 2]] [f64 0; f64 2] eq_refl eq_refl) as [H8 _].
  destruct (probabilities_leaf_payload tree_A 9 2
              [[f64 0; f64 2]] [f64 0; f64 2] eq_refl eq_refl) as [_ H9].
  split.
  - destruct H8 as [H _]; [lia|]. rewrite H. vm_compute. reflexivity.
  - apply H9. lia.
Defined.

(** Codes that respect 255 edges lying in the range of the values give
    some value a code of at least 255. *)
Lemma edges_in_range_reach_top_code (edges p : list float64) (codes : list Z) :
  length edges = 255%nat → length codes = length p →
  within_value_range edges p → digitizes edges p codes →
  ∃ c, c ∈ codes ∧ 255 ≤ c.
Proof.
  intros Hedges Hcodes Hwithin Hdig.
  destruct (lookup_lt_is_Some_2 edges 254) as [e He]; [lia|].
  destruct (Hwithin e) as (x & Hx & Hle); [by eapply list_elem_of_lookup_2|].
  apply list_elem_of_lookup in Hx as [i Hi].
  destruct (lookup_lt_is_Some_2 codes i) as [c Hc].
  { rewrite Hcodes. by eapply lookup_lt_Some. }
  exists c. split; [by eapply list_elem_of_lookup_2|].
  pose proof (Hdig i x c 254%nat e Hi Hc He Hle). lia.
Qed.

(** C8, the statement as written.  The value vectors [1, 3] and [2, 6] are
    the same class proportions [0.25, 0.75]; as the values of two leaves
    they get the payloads [2, 4] and [3, 7], and the proportions themselves
    are quantized to [1, 1].  None of these is a digitization of the
    proportions against 255 edges that lie in the range of the values, which
    gives some value a code of at least 255. *)
Lemma probabilities_payload_is_not_normalized :
  let row1 := [f64 1; f64 3] in
  let row2 := [f64 2; f64 6] in
  let p := [f64_quarter; f64_three_quarters] in
  (normalize row1 = p ∧ normalize row2 = p) ∧
  flatten_tree (tree_A_with row1 row2) "probabilities" 8
    = OK ([node_A (-1) (-2)], [LProba [2; 4]; LProba [3; 7]]) ∧
  quantize_probabilities p 8 = OK [1; 1] ∧
  ¬ (∃ edges codes,
       length edges = 255%nat ∧ within_value_range edges p ∧
       digitizes edges p codes ∧
       (codes = [2; 4] ∨ codes = [3; 7] ∨ codes = [1; 1])).
Proof.
  intros row1 row2 p.
  split; [split; vm_compute; reflexivity|].
  split; [vm_compute; reflexivity|].
  split; [vm_compute; reflexivity|].
  intros (edges & codes & Hedges & Hwithin & Hdig & Hcodes).
  destruct (edges_in_range_reach_top_code edges p codes) as (c & Hc & Htop);
    [done | by destruct Hcodes as [->|[->| ->]] | done | done |].
  destruct Hcodes as [->|[->| ->]];
    repeat (apply elem_of_cons in Hc as [->|Hc]; [lia|]);
    by apply elem_of_nil in Hc.
Qed.

(** * Further properties *)

(** ** The validator *)

(** X1. The validator returns exactly when: every non-negative child
    reference is an index of the decision-node array; every index of that
    array is a child reference or a root; every negative left reference
    decodes to an index of the leaf array; and every index of the leaf array
    is the decoding of a child reference.  Nothing else is tested: not the
    range of a negative right reference, not the range of a root. *)
Theorem validator_acceptance (forest : Forest) :
  assert_forest_valid forest = OK tt ↔
  references_accepted (nodes forest) (leaves forest) (roots forest).
Proof. destruct forest as [ns rs ls]. apply assert_node_references_valid_OK. Qed.

(** X2. The validator raises nothing but [AssertionError], and it raises on
    a non-negative child reference outside the decision-node array, on a
    negative left reference that decodes outside the leaf array, on a
    decision node that is neither referred to nor a root, and on a leaf that
    no child reference decodes to. *)
Theorem validator_refusals (forest : Forest) :
  (∀ e, assert_forest_valid forest = Raise e → e = AssertionError) ∧
  ((∃ n, n ∈ nodes forest ∧
         (len (nodes forest) ≤ node_left n ∨
          len (nodes forest) ≤ node_right n ∨
          dangling_ref (leaves forest) (node_left n))) ∨
   (∃ i, 0 ≤ i < len (nodes forest) ∧ (i ∉ roots forest) ∧
         ∀ n, n ∈ nodes forest → node_left n ≠ i ∧ node_right n ≠ i) ∨
   (∃ i, 0 ≤ i < len (leaves forest) ∧
         ∀ n, n ∈ nodes forest →
              node_left n ≠ - i - 1 ∧ node_right n ≠ - i - 1) →
   assert_forest_valid forest = Raise AssertionError).
Proof.
  destruct forest as [ns rs ls]. simpl.
  destruct (assert_node_references_valid_outcome ns ls rs) as [H|H].
  - split; [intros e He; congruence|].
    apply assert_node_references_valid_OK in H
      as (H1 & H2 & H3 & H4 & H6).
    intros [(n & Hn & Hbad)|[(i & Hi & Hroot & Hnone)|(i & Hi & Hnone)]];
      exfalso.
    + unfold dangling_ref in Hbad.
      destruct Hbad as [Hl|[Hr|[Hneg Hout]]].
      * specialize (H1 n Hn). unfold len in *. lia.
      * specialize (H2 n Hn). unfold len in *. lia.
      * specialize (H4 n Hn Hneg). lia.
    + destruct (H3 i Hi) as [(n & Hn & Href)|Hr]; [|done].
      destruct (Hnone n Hn). destruct Href; done.
    + destruct (H6 i Hi) as (n & Hn & Href).
      destruct (Hnone n Hn). destruct Href; done.
  - split; [intros e He; congruence | done].
Qed.

(** ** flatten_forest *)

Lemma flatten_tree_accepted (tree : Tree) (leaf : string) (leaf_bits : Z)
    (decision_nodes : list Node) (leaf_nodes : list Leaf) :
  flatten_tree tree leaf leaf_bits = OK (decision_nodes, leaf_nodes) →
  references_accepted decision_nodes leaf_nodes [0] ∧
  len decision_nodes + len leaf_nodes = node_count tree.
Proof.
  unfold flatten_tree. intros H.
  bind_inv H. bind_inv H. bind_inv H. destruct a1 as [[dn ln] mapping].
  bind_inv H. bind_inv H. bind_inv H. injection H as <- <-.
  destruct a3. apply assert_node_references_valid_OK in Hc4.
  apply py_assert_OK in Hc3. split; [done | lia].
Qed.

Lemma offset_ref_nonneg (dno lno ref : Z) :
  0 ≤ ref → offset_ref dno lno ref = ref + dno.
Proof. unfold offset_ref. intros. by destruct (Z.leb_spec 0 ref); [|lia]. Qed.

Lemma offset_ref_neg (dno lno ref : Z) :
  ref < 0 → offset_ref dno lno ref = ref - lno.
Proof. unfold offset_ref. intros. by destruct (Z.leb_spec 0 ref); [lia|]. Qed.

(** Appending an accepted tree, shifted by the sizes of an accepted forest,
    gives an accepted forest. *)
Lemma append_accepted (ns d : list Node) (ls l : list Leaf) (rs : list Z) :
  references_accepted ns ls rs → references_accepted d l [0] →
  references_accepted (ns ++ (offset_node (len ns) (len ls) <$> d))
                      (ls ++ l) (rs ++ [0 + len ns]).
Proof.
  intros (H1 & H2 & H3 & H4 & H6) (D1 & D2 & D3 & D4 & D6).
  assert (Hlen : len (ns ++ (offset_node (len ns) (len ls) <$> d))
                 = len ns + len d)
    by (unfold len; rewrite length_app, length_fmap; lia).
  assert (Hlen' : len (ls ++ l) = len ls + len l)
    by (unfold len; rewrite length_app; lia).
  assert (Hns : 0 ≤ len ns) by (unfold len; lia).
  assert (Hls : 0 ≤ len ls) by (unfold len; lia).
  assert (Hd : 0 ≤ len d) by (unfold len; lia).
  assert (Hl : 0 ≤ len l) by (unfold len; lia).
  assert (Hin : ∀ n', n' ∈ ns ++ (offset_node (len ns) (len ls) <$> d) ↔
                      n' ∈ ns ∨ ∃ n, n ∈ d ∧ n' = offset_node (len ns) (len ls) n).
  { intros n'. rewrite elem_of_app, list_elem_of_fmap. split.
    - intros [Hn|(n & -> & Hn)]; [by left | right; eauto].
    - intros [Hn|(n & Hn & ->)]; [by left | right; eauto]. }
  unfold references_accepted. rewrite Hlen, Hlen'. split_and!.
  - intros n' Hn' H0. apply Hin in Hn' as [Hn|(n & Hn & ->)].
    + specialize (H1 n' Hn H0). lia.
    + simpl in *. destruct (decide (0 ≤ node_left n)) as [Hp|Hp].
      * rewrite offset_ref_nonneg by done. specialize (D1 n Hn Hp). lia.
      * rewrite offset_ref_neg in H0 by lia. lia.
  - intros n' Hn' H0. apply Hin in Hn' as [Hn|(n & Hn & ->)].
    + specialize (H2 n' Hn H0). lia.
    + simpl in *. destruct (decide (0 ≤ node_right n)) as [Hp|Hp].
      * rewrite offset_ref_nonneg by done. specialize (D2 n Hn Hp). lia.
      * rewrite offset_ref_neg in H0 by lia. lia.
  - intros i Hi. destruct (decide (i < len ns)) as [Hold|Hnew].
    + destruct (H3 i) as [(n & Hn & Href)|Hr]; [lia| |].
      * left. exists n. split; [apply Hin; by left | done].
      * right. apply elem_of_app. by left.
    + destruct (D3 (i - len ns)) as [(n & Hn & Href)|Hr]; [lia| |].
      * left. exists (offset_node (len ns) (len ls) n).
        split; [apply Hin; right; eauto|]. simpl.
        destruct Href as [Href|Href]; [left|right];
          rewrite offset_ref_nonneg by lia; lia.
      * right. apply list_elem_of_singleton in Hr.
        apply elem_of_app. right. apply list_elem_of_singleton. lia.
  - intros n' Hn' Hneg. apply Hin in Hn' as [Hn|(n & Hn & ->)].
    + specialize (H4 n' Hn Hneg). lia.
    + simpl in *. destruct (decide (0 ≤ node_left n)) as [Hp|Hp].
      * rewrite offset_ref_nonneg in Hneg by done. lia.
      * rewrite offset_ref_neg by lia. specialize (D4 n Hn ltac:(lia)). lia.
  - intros i Hi. destruct (decide (i < len ls)) as [Hold|Hnew].
    + destruct (H6 i) as (n & Hn & Href); [lia|].
      exists n. split; [apply Hin; by left | done].
    + destruct (D6 (i - len ls)) as (n & Hn & Href); [lia|].
      exists (offset_node (len ns) (len ls) n).
      split; [apply Hin; right; eauto|]. simpl.
      destruct Href as [Href|Href]; [left|right];
        rewrite offset_ref_neg by lia; lia.
Qed.

(** One tree is merged as soon as it flattens: the validation inside the
    loop passes. *)
Lemma merge_tree_flat (leaf : string) (st : merge_state) (tree : Tree)
    (d : list Node) (l : list Leaf) :
  merge_state_ok st → flatten_tree tree leaf 8 = OK (d, l) →
  ∃ st', merge_tree leaf st tree = OK st' ∧ merge_state_ok st' ∧
         tree_roots st' = tree_roots st ++ [decision_nodes_offset st] ∧
         forest_nodes st'
           = forest_nodes st ++
             (offset_node (decision_nodes_offset st) (leaf_nodes_offset st)
                <$> d) ∧
         forest_leaves st' = forest_leaves st ++ l ∧
         decision_nodes_offset st' = decision_nodes_offset st + len d ∧
         leaf_nodes_offset st' = leaf_nodes_offset st + len l.
Proof.
  intros (Hdno & Hlno & Hacc) Hflat. unfold merge_tree. rewrite Hflat.
  cbn [mbind result_bind].
  apply flatten_tree_accepted in Hflat as [Hd _].
  pose proof (append_accepted _ _ _ _ _ Hacc Hd) as Hnew.
  rewrite <- Hdno, <- Hlno in Hnew.
  apply assert_node_references_valid_OK in Hnew.
  cbn [assert_forest_valid forest_nodes tree_roots forest_leaves].
  rewrite Hnew. cbn [mbind result_bind].
  eexists. split; [reflexivity|].
  cbn [tree_roots forest_nodes forest_leaves decision_nodes_offset
       leaf_nodes_offset]. unfold merge_state_ok.
  cbn [tree_roots forest_nodes forest_leaves decision_nodes_offset
       leaf_nodes_offset].
  assert (len (offset_node (decision_nodes_offset st) (leaf_nodes_offset st)
                 <$> d) = len d) as Hlen
    by (unfold len; by rewrite length_fmap).
  rewrite Hlen, Z.add_0_l. split_and!; try done.
  - rewrite Hdno. unfold len. rewrite length_app, length_fmap. lia.
  - rewrite Hlno. unfold len. rewrite length_app. lia.
  - by apply assert_node_references_valid_OK.
Qed.

Lemma merge_loop_flats (leaf : string) (trees : list Tree) (st : merge_state) :
  merge_state_ok st →
  match map_result (λ tree, flatten_tree tree leaf 8) trees with
  | OK flats =>
      ∃ st', for_each (merge_tree leaf) trees st = OK st' ∧
             merge_state_ok st' ∧
             tree_roots st'
               = tree_roots st ++
                 root_offsets (decision_nodes_offset st)
                   ((λ flat : FlatTree, len flat.1) <$> flats) ∧
             forest_nodes st'
               = forest_nodes st ++
                 concat_offset (decision_nodes_offset st)
                   (leaf_nodes_offset st) flats ∧
             forest_leaves st' = forest_leaves st ++ concat (snd <$> flats)
  | Raise e => for_each (merge_tree leaf) trees st = Raise e
  end.
Proof.
  revert st. induction trees as [|tree trees IH]; intros st Hst.
  - simpl. exists st. by rewrite !app_nil_r.
  - cbn [map_result for_each].
    destruct (flatten_tree tree leaf 8) as [[d l]|e] eqn:Hflat.
    + destruct (merge_tree_flat leaf st tree d l Hst Hflat)
        as (st1 & -> & Hst1 & Hr & Hn & Hl & Hdno & Hlno).
      cbn [mbind result_bind]. specialize (IH st1 Hst1).
      destruct (map_result (λ tree, flatten_tree tree leaf 8) trees)
        as [flats|e]; cbn [mbind result_bind]; [|done].
      destruct IH as (st' & -> & Hst' & Hr' & Hn' & Hl').
      exists st'. split; [done|]. split; [done|].
      rewrite Hr', Hn', Hl', Hr, Hn, Hl, Hdno, Hlno.
      cbn [fmap list_fmap concat concat_offset root_offsets fst snd].
      by rewrite <- !app_assoc.
    + unfold merge_tree. rewrite Hflat. done.
Qed.

Lemma merge_state_ok_init : merge_state_ok (mkMerge [] 0 0 [] []).
Proof.
  split; [done|]. split; [done|]. unfold references_accepted. simpl.
  change (len []) with 0.
  split_and!; intros n Hn; try lia; by apply elem_of_nil in Hn.
Qed.

Lemma flatten_forest_flats (trees : list Tree) (leaf : string) :
  flatten_forest trees leaf
    = (flats ← map_result (λ tree, flatten_tree tree leaf 8) trees;
       OK (concat_forest flats)).
Proof.
  unfold flatten_forest.
  pose proof (merge_loop_flats leaf trees _ merge_state_ok_init) as H.
  destruct (map_result (λ tree, flatten_tree tree leaf 8) trees)
    as [flats|e]; cbn [mbind result_bind].
  - destruct H as (st' & -> & (_ & _ & Hacc) & Hr & Hn & Hl).
    cbn [mbind result_bind assert_forest_valid].
    apply assert_node_references_valid_OK in Hacc. rewrite Hacc.
    cbn [mbind result_bind]. simpl in Hr, Hn, Hl.
    unfold concat_forest. by rewrite Hr, Hn, Hl.
  - by rewrite H.
Qed.

(** X3. [flatten_forest] is: flatten every tree, then concatenate.  It
    raises the exception of the first tree on which [flatten_tree] raises,
    and raises nothing of its own: its validations, after each tree and at
    the end, pass.  Otherwise the forest holds the decision nodes of the
    trees in order, each tree shifted by the numbers of decision nodes and
    leaves before it, the leaves in order, and those numbers of decision
    nodes as roots. *)
Theorem flatten_forest_concatenates (trees : list Tree) (leaf : string) :
  flatten_forest trees leaf
    = (flats ← map_result (λ tree, flatten_tree tree leaf 8) trees;
       OK (concat_forest flats)).
Proof. apply flatten_forest_flats. Qed.

Lemma map_result_Forall2 {A B} (f : A → result B) (xs : list A) (ys : list B) :
  map_result f xs = OK ys → Forall2 (λ x y, f x = OK y) xs ys.
Proof.
  revert ys. induction xs as [|x xs IH]; intros ys H.
  - injection H as <-. constructor.
  - cbn [map_result] in H. bind_inv H. bind_inv H. injection H as <-.
    constructor; [done | by apply IH].
Qed.

Lemma concat_offset_length (dno lno : Z) (flats : list FlatTree) :
  len (concat_offset dno lno flats)
    = foldr (λ flat total, len flat.1 + total) 0 flats.
Proof.
  revert dno lno. induction flats as [|[d l] flats IH]; intros dno lno.
  - done.
  - cbn [concat_offset foldr fst]. rewrite <- (IH (dno + len d) (lno + len l)).
    unfold len. rewrite length_app, length_fmap. lia.
Qed.

Lemma concat_leaves_length (flats : list FlatTree) :
  len (concat (snd <$> flats))
    = foldr (λ flat total, len flat.2 + total) 0 flats.
Proof.
  induction flats as [|[d l] flats IH]; [done|].
  rewrite fmap_cons. cbn [concat foldr snd]. rewrite <- IH.
  unfold len. rewrite length_app. lia.
Qed.

(** X4. Merging keeps every node: the decision nodes and the leaves of the
    forest that [flatten_forest] returns are together as many as the nodes
    of all the source trees. *)
Theorem flatten_forest_conserves_nodes
    (trees : list Tree) (leaf : string) (forest : Forest) :
  flatten_forest trees leaf = OK forest →
  len (nodes forest) + len (leaves forest) = total_node_count trees.
Proof.
  rewrite flatten_forest_flats. intros H. bind_inv H. injection H as <-.
  unfold concat_forest. cbn [nodes leaves].
  rewrite concat_offset_length, concat_leaves_length.
  apply map_result_Forall2 in Hc.
  induction Hc as [|tree [d l] trees flats Hflat _ IH]; [done|].
  cbn [foldr total_node_count fst snd]. fold (total_node_count trees).
  apply flatten_tree_accepted in Hflat as [_ Hcount]. lia.
Qed.

Lemma flatten_forest_conserves_nodes_witness :
  flatten_forest [tree_A; tree_A] "argmax"
    = OK (mkForest [node_A (-1) (-2); node_A (-3) (-4)] [0; 1]
            [LClass 0; LClass 1; LClass 0; LClass 1]) ∧
  len [node_A (-1) (-2); node_A (-3) (-4)]
  + len [LClass 0; LClass 1; LClass 0; LClass 1]
    = total_node_count [tree_A; tree_A].
Proof.
  assert (H : flatten_forest [tree_A; tree_A] "argmax"
              = OK (mkForest [node_A (-1) (-2); node_A (-3) (-4)] [0; 1]
                      [LClass 0; LClass 1; LClass 0; LClass 1]))
    by (vm_compute; reflexivity).
  split; [exact H | exact (flatten_forest_conserves_nodes _ _ _ H)].
Defined.

(** *** Trees without nodes *)

Lemma flatten_tree_empty (tree : Tree) (leaf : string) (leaf_bits : Z) :
  empty_tree tree → flatten_tree tree leaf leaf_bits = OK ([], []).
Proof.
  destruct tree as [nc cl cr ft th vs sh]. unfold empty_tree; simpl.
  intros (-> & -> & ->). unfold flatten_tree, zipped.
  cbn [node_count value value_shape1 children_left children_right feature
       threshold].
  rewrite zip_with_nil_r. reflexivity.
Qed.

Lemma concat_forest_of_empty (n : nat) :
  concat_forest (replicate n ([], [])) = mkForest [] (replicate n 0) [].
Proof.
  unfold concat_forest. f_equal.
  - induction n as [|n IH]; [done|]. cbn [replicate concat_offset].
    change (len []) with 0. by rewrite !Z.add_0_r.
  - induction n as [|n IH]; [done|].
    cbn [replicate fmap list_fmap root_offsets fst].
    change (len []) with 0. rewrite Z.add_0_r. by f_equal.
  - induction n as [|n IH]; [done|]. by cbn.
Qed.

(** X5. A source tree without nodes flattens to empty arrays, and a
    sequence of such trees merges to a forest without decision nodes and
    leaves that has the root 0 for each tree: roots that are the index of no
    decision node, which the validator does not test. *)
Theorem flatten_forest_of_empty_trees (trees : list Tree) (leaf : string) :
  Forall empty_tree trees →
  flatten_forest trees leaf = OK (mkForest [] (replicate (length trees) 0) []).
Proof.
  intros Hempty. rewrite flatten_forest_flats.
  assert (map_result (λ tree, flatten_tree tree leaf 8) trees
          = OK (replicate (length trees) ([], []))) as ->.
  { induction Hempty as [|tree trees Htree _ IH]; [done|].
    cbn [map_result length replicate]. rewrite (flatten_tree_empty _ _ _ Htree).
    cbn [mbind result_bind]. by rewrite IH. }
  cbn [mbind result_bind]. by rewrite concat_forest_of_empty.
Qed.

Lemma flatten_forest_of_empty_trees_witness :
  let none := mkTree 0 [] [] [] [] [] 1 in
  empty_tree none ∧
  flatten_forest [none; none] "argmax" = OK (mkForest [] [0; 0] []).
Proof.
  intros none.
  assert (Hnone : empty_tree none) by (repeat split; reflexivity).
  split; [exact Hnone|].
  apply (flatten_forest_of_empty_trees [none; none] "argmax").
  repeat constructor; exact Hnone.
Defined.

(** ** The payloads of each leaf mode *)

Lemma argmax_scan_range (xs : list float64) (i : Z) (best : float64)
    (best_i : Z) :
  0 ≤ best_i < i → 0 ≤ argmax_scan xs i best best_i < i + len xs.
Proof.
  revert i best best_i. induction xs as [|x xs IH]; intros i best best_i Hi.
  - simpl. change (len []) with 0. lia.
  - cbn [argmax_scan].
    assert (len (x :: xs) = len xs + 1) as -> by (unfold len; simpl; lia).
    destruct (is_nan best); [unfold len; lia|].
    destruct (negb (SFleb x best)).
    + specialize (IH (i + 1) x i). lia.
    + specialize (IH (i + 1) best best_i). lia.
Qed.

Ltac bind_inv_as H a Hc := apply bind_OK in H; destruct H as (a & Hc & H).

Lemma process_child_payloads (P : Leaf → Prop) (tree : Tree) (leaf : string)
    (leaf_bits idx : Z) (ls ls' : list Leaf) (ref : Z) :
  (∀ i l, leaf_data tree leaf leaf_bits i = OK l → P l) →
  process_child tree leaf leaf_bits idx ls = OK (ref, ls') →
  Forall P ls → Forall P ls'.
Proof.
  intros Hleaf H Hls. unfold process_child in H.
  bind_inv H. bind_inv H. destruct a0.
  - unfold add_leaf in H. bind_inv H. bind_inv H. injection H as _ <-.
    apply Forall_app. split; [done|]. constructor; [|done].
    by eapply Hleaf.
  - by injection H as _ <-.
Qed.

Lemma flatten_tree_payloads (P : Leaf → Prop) (tree : Tree) (leaf : string)
    (leaf_bits : Z) (decision_nodes : list Node) (leaf_nodes : list Leaf) :
  (∀ i l, leaf_data tree leaf leaf_bits i = OK l → P l) →
  flatten_tree tree leaf leaf_bits = OK (decision_nodes, leaf_nodes) →
  Forall P leaf_nodes.
Proof.
  intros Hleaf H. unfold flatten_tree in H.
  bind_inv H. bind_inv H. bind_inv H. destruct a1 as [[dn ls] mapping].
  bind_inv H. bind_inv H. bind_inv H. injection H as _ <-.
  apply (for_each_invariant (λ st : scan_state, Forall P st.1.2)) in Hc1;
    [done | | constructor].
  intros [[dn0 ls0] m0] [node_no [[[c_left c_right] ft] th]] st' Hscan Hst.
  unfold scan_node in Hscan.
  destruct ((c_left =? -1) && (c_right =? -1)); [by injection Hscan as <-|].
  bind_inv_as Hscan p1 Hp1. destruct p1 as [l ls1].
  bind_inv_as Hscan p2 Hp2. destruct p2 as [r ls2].
  injection Hscan as <-. simpl in *.
  eapply process_child_payloads; [done | exact Hp2 |].
  by eapply process_child_payloads.
Qed.

Lemma flatten_forest_payloads (P : Leaf → Prop) (trees : list Tree)
    (leaf : string) (forest : Forest) :
  (∀ tree i l, leaf_data tree leaf 8 i = OK l → P l) →
  flatten_forest trees leaf = OK forest → Forall P (leaves forest).
Proof.
  intros Hleaf H. unfold flatten_forest in H.
  bind_inv H. bind_inv H. injection H as <-. simpl.
  apply (for_each_invariant (λ st, Forall P (forest_leaves st))) in Hc;
    [done | | constructor].
  intros st tree st' Hmerge Hst. unfold merge_tree in Hmerge.
  bind_inv_as Hmerge flat Hflat. destruct flat as [dn ls].
  bind_inv_as Hmerge u Hu. injection Hmerge as <-. simpl.
  apply Forall_app. split; [done|]. eapply flatten_tree_payloads; [|done].
  apply Hleaf.
Qed.

(** X6. The leaf mode decides the payloads of the merged forest: in mode
    ['argmax'] every leaf holds a class index that is not negative, in mode
    ['value'] a regression value, in mode ['probabilities'] an array of
    codes between 0 and 255; under any other mode name no leaf is ever
    made, so a forest that is returned has none. *)
Theorem flatten_forest_payload_kinds
    (trees : list Tree) (leaf : string) (forest : Forest) :
  flatten_forest trees leaf = OK forest →
  (leaf = "argmax" → class_leaves (leaves forest)) ∧
  (leaf = "value" → value_leaves (leaves forest)) ∧
  (leaf = "probabilities" →
   Forall (λ l, ∃ codes, l = LProba codes ∧ Forall (λ c, 0 ≤ c ≤ 255) codes)
          (leaves forest)) ∧
  (leaf ≠ "argmax" → leaf ≠ "value" → leaf ≠ "probabilities" →
   leaves forest = []).
Proof.
  intros H. split_and!.
  - intros ->. eapply flatten_forest_payloads; [|exact H].
    intros tree i l Hl. unfold leaf_data in Hl. bind_inv Hl. simpl in Hl.
    bind_inv Hl. bind_inv Hl. injection Hl as <-.
    exists a1. split; [done|]. unfold numpy_argmax in Hc1.
    destruct a0 as [|x xs]; [discriminate|]. injection Hc1 as <-.
    pose proof (argmax_scan_range xs 1 x 0). lia.
  - intros ->. eapply flatten_forest_payloads; [|exact H].
    intros tree i l Hl. unfold leaf_data in Hl. bind_inv Hl. simpl in Hl.
    bind_inv Hl. bind_inv Hl. injection Hl as <-. by eexists.
  - intros ->. eapply flatten_forest_payloads; [|exact H].
    intros tree i l Hl. unfold leaf_data in Hl. bind_inv Hl. simpl in Hl.
    bind_inv Hl. injection Hl as <-. eexists. split; [done|].
    unfold astype_uint8. apply Forall_forall. intros c Hc'.
    apply in_map_iff in Hc' as (d & <- & _).
    pose proof (Z.mod_pos_bound d 256). lia.
  - intros H1 H2 H3.
    assert (Forall (λ _, False) (leaves forest)) as Hnone.
    { eapply flatten_forest_payloads; [|exact H].
      intros tree i l Hl. unfold leaf_data in Hl. bind_inv Hl.
      apply String.eqb_neq in H1, H2, H3. rewrite H1, H2, H3 in Hl.
      discriminate. }
    destruct (leaves forest) as [|l ls]; [done|].
    inversion Hnone as [|? ? []].
Qed.

Lemma flatten_forest_payload_kinds_witness :
  flatten_forest [tree_A; tree_A] "argmax"
    = OK (mkForest [node_A (-1) (-2); node_A (-3) (-4)] [0; 1]
            [LClass 0; LClass 1; LClass 0; LClass 1]) ∧
  class_leaves [LClass 0; LClass 1; LClass 0; LClass 1].
Proof.
  assert (H : flatten_forest [tree_A; tree_A] "argmax"
              = OK (mkForest [node_A (-1) (-2); node_A (-3) (-4)] [0; 1]
                      [LClass 0; LClass 1; LClass 0; LClass 1]))
    by (vm_compute; reflexivity).
  split; [exact H|].
  exact (proj1 (flatten_forest_payload_kinds _ _ _ H) eq_refl).
Defined.

(** ** remove_duplicate_leaves on leaves that are unique already *)

Lemma dedup_loop_unique (leaves : list Leaf) :
  first_seen leaves →
  ∃ remap_leaves,
    for_each dedup_leaf (enumerate leaves) ([], ∅) = OK (leaves, remap_leaves) ∧
    identity_remap remap_leaves.
Proof.
  intros Hseen.
  destruct (dedup_loop_again leaves [] ∅) as (R & Hloop & HR); [done|done|].
  change (len []) with 0 in Hloop. simpl in Hloop. by exists R.
Qed.

(** X7. A forest that the validator accepts, with at least one decision
    node and with leaves none of which equals an earlier one, is returned by
    [remove_duplicate_leaves] as it is. *)
Theorem remove_duplicate_leaves_of_unique (forest : Forest) :
  assert_forest_valid forest = OK tt → nodes forest ≠ [] →
  first_seen (leaves forest) →
  remove_duplicate_leaves forest = OK forest.
Proof.
  destruct forest as [ns rs ls]. simpl. intros Hvalid Hns Hseen.
  destruct (dedup_loop_unique ls Hseen) as (R & Hloop & HR).
  unfold remove_duplicate_leaves. rewrite Hloop. cbn [mbind result_bind].
  rewrite py_truediv_nonzero by (unfold len; destruct ns; simpl; [done | lia]).
  cbn [mbind result_bind].
  assert (remap_node R <$> ns = ns) as ->.
  { rewrite <- (list_fmap_id ns) at 2.
    apply list_fmap_ext. intros i n _. by apply remap_node_identity. }
  unfold assert_forest_valid. by rewrite Hvalid.
Qed.

Lemma remove_duplicate_leaves_of_unique_witness :
  let forest := mkForest [node_A (-1) (-2)] [0] [LClass 0; LClass 1] in
  assert_forest_valid forest = OK tt ∧ nodes forest ≠ [] ∧
  remove_duplicate_leaves forest = OK forest.
Proof.
  intros forest.
  assert (Hvalid : assert_forest_valid forest = OK tt)
    by (vm_compute; reflexivity).
  assert (Hnodes : nodes forest ≠ []) by discriminate.
  split_and!; [exact Hvalid | exact Hnodes |].
  apply (remove_duplicate_leaves_of_unique forest Hvalid Hnodes).
  intros [|[|i]] u Hu; simpl in Hu; try discriminate;
    injection Hu as <-; reflexivity.
Defined.

(** X8. On node objects: when the leaves are unique already (and the
    forest as read through the heap is accepted, with at least one node),
    the call returns the tuple it was given and leaves every node object of
    the heap as it was, also where the node list names an object twice. *)
Theorem remove_duplicate_leaves_in_place_of_unique
    (node_refs : list nat) (tree_roots : list Z) (leaf_nodes : list Leaf)
    (h : nat → Node) :
  assert_forest_valid (Heap.view h (node_refs, tree_roots, leaf_nodes))
    = OK tt →
  node_refs ≠ [] → first_seen leaf_nodes →
  ∃ h', Heap.remove_duplicate_leaves (node_refs, tree_roots, leaf_nodes) h
          = (h', OK (node_refs, tree_roots, leaf_nodes)) ∧
        ∀ n, h' n = h n.
Proof.
  intros Hvalid Hns Hseen.
  destruct (dedup_loop_unique leaf_nodes Hseen) as (R & Hloop & HR).
  exists (foldl (Heap.remap_in_place R) h node_refs).
  split; [|intros n; by apply remap_fold_identity].
  unfold Heap.remove_duplicate_leaves. rewrite Hloop.
  rewrite py_truediv_nonzero
    by (unfold len; destruct node_refs; simpl; [done | lia]).
  assert (foldl (Heap.remap_in_place R) h node_refs <$> node_refs
          = h <$> node_refs) as Hsame.
  { apply list_fmap_ext. intros i n _. by apply remap_fold_identity. }
  unfold Heap.view in *. by rewrite Hsame, Hvalid.
Qed.

Lemma remove_duplicate_leaves_in_place_of_unique_witness :
  let h := λ _ : nat, node_A (-1) (-2) in
  assert_forest_valid (Heap.view h ([0; 0]%nat, [0; 1], [LClass 0; LClass 1]))
    = OK tt ∧
  ∃ h', Heap.remove_duplicate_leaves
            ([0; 0]%nat, [0; 1], [LClass 0; LClass 1]) h
          = (h', OK ([0; 0]%nat, [0; 1], [LClass 0; LClass 1])) ∧
        ∀ n, h' n = h n.
Proof.
  intros h.
  assert (Hvalid : assert_forest_valid
                     (Heap.view h ([0; 0]%nat, [0; 1], [LClass 0; LClass 1]))
                   = OK tt) by (vm_compute; reflexivity).
  split; [exact Hvalid|].
  apply (remove_duplicate_leaves_in_place_of_unique _ _ _ h Hvalid).
  - discriminate.
  - intros [|[|i]] u Hu; simpl in Hu; try discriminate;
    injection Hu as <-; reflexivity.
Defined.

(** ** quantize_probabilities: the code of a value *)

Ltac SFcompare_cases :=
  unfold SFleb, SFltb, SFcompare;
  repeat match goal with
         | x : spec_float |- _ => destruct x as [[]|[]| |[] ? ?]
         end;
  try discriminate; try reflexivity;
  change (Pos.compare_cont Eq) with Pos.compare;
  repeat match goal with
         | |- context [Z.compare ?p ?q] => destruct (Z.compare_spec p q)
         | |- context [Pos.compare ?p ?q] => destruct (Pos.compare_spec p q)
         end;
  simpl; try discriminate; try reflexivity; intros; exfalso; lia.

Lemma SFltb_leb_trans (x a b : spec_float) :
  SFltb x a = true → SFleb a b = true → SFltb x b = true.
Proof. SFcompare_cases. Qed.

Lemma SFleb_ltb_trans (x y b : spec_float) :
  SFleb x y = true → SFltb y b = true → SFltb x b = true.
Proof. SFcompare_cases. Qed.

Lemma SFltb_nan (x b : spec_float) : is_nan x = true → SFltb x b = false.
Proof. by destruct x. Qed.

Lemma float64_edges_increasing_true : float64_edges_increasing = true.
Proof. vm_compute. reflexivity. Qed.

Lemma float64_of_Z_lt (k b : Z) :
  0 ≤ k < b → b < 255 → SFltb (float64_of_Z k) (float64_of_Z b) = true.
Proof.
  intros Hk Hb. pose proof float64_edges_increasing_true as H.
  unfold float64_edges_increasing in H.
  rewrite forallb_Forall_true, Forall_forall in H.
  specialize (H b). rewrite forallb_Forall_true, Forall_forall in H.
  apply H; apply list_elem_of_In, elem_of_seqZ; lia.
Qed.

Lemma filter_none {A} (P : A → Prop) `{∀ x, Decision (P x)} (l : list A) :
  Forall (λ x, ¬ P x) l → filter P l = [].
Proof.
  induction 1 as [|x l Hx _ IH]; [done|].
  by rewrite filter_cons_False.
Qed.

Lemma filter_length_mono {A} (P Q : A → Prop) `{∀ x, Decision (P x)}
    `{∀ x, Decision (Q x)} (l : list A) :
  (∀ x, P x → Q x) → (length (filter P l) ≤ length (filter Q l))%nat.
Proof.
  intros HPQ. induction l as [|x l IH]; [done|].
  destruct (decide (P x)) as [HP|HP].
  - rewrite (filter_cons_True P) by done.
    rewrite (filter_cons_True Q) by auto. simpl. lia.
  - rewrite (filter_cons_False P) by done.
    destruct (decide (Q x)).
    + rewrite (filter_cons_True Q) by done. simpl. lia.
    + by rewrite (filter_cons_False Q).
Qed.

(** The code of a value below the edge [k]. *)
Lemma digitize1_below (steps k : Z) (x : float64) :
  0 ≤ k < steps → steps ≤ 255 → SFltb x (float64_of_Z k) = true →
  digitize1 (seqZ 0 steps) x ≤ k.
Proof.
  intros Hk Hsteps Hx. unfold digitize1, len.
  replace steps with (k + (steps - k)) by lia.
  rewrite seqZ_app by lia. rewrite list.filter_app, length_app.
  assert (filter (λ b, SFltb x (float64_of_Z b) = false)
                 (seqZ (0 + k) (steps - k)) = []) as ->.
  { apply filter_none. apply Forall_forall. intros b Hb.
    apply list_elem_of_In, elem_of_seqZ in Hb.
    rewrite (SFltb_leb_trans x (float64_of_Z k)); [done | done |].
    apply float64_of_Z_le; lia. }
  pose proof (list.length_filter
                (λ b, SFltb x (float64_of_Z b) = false) (seqZ 0 k)) as H.
  rewrite length_seqZ in H. simpl. lia.
Qed.

Lemma digitize1_top (steps : Z) (x : float64) :
  0 ≤ steps → (∀ b, 0 ≤ b < steps → SFltb x (float64_of_Z b) = false) →
  digitize1 (seqZ 0 steps) x = steps.
Proof.
  intros Hsteps Hx. unfold digitize1, len. rewrite filter_all.
  - rewrite length_seqZ. lia.
  - apply Forall_forall. intros b Hb.
    apply list_elem_of_In, elem_of_seqZ in Hb. apply Hx. lia.
Qed.

Lemma digitize1_cases (steps : Z) (x : float64) :
  1 ≤ steps ≤ 255 →
  let c := digitize1 (seqZ 0 steps) x in
  (is_nan x = true → c = steps) ∧
  (SFltb x (float64_of_Z 0) = true → c = 0) ∧
  (∀ k, 0 ≤ k < steps - 1 →
        SFleb (float64_of_Z k) x = true →
        SFltb x (float64_of_Z (k + 1)) = true → c = k + 1) ∧
  (SFleb (float64_of_Z (steps - 1)) x = true → c = steps).
Proof.
  intros Hsteps c. subst c. split_and!.
  - intros Hnan. apply digitize1_top; [lia|]. intros b _. by apply SFltb_nan.
  - intros H0.
    pose proof (digitize1_below steps 0 x ltac:(lia) ltac:(lia) H0).
    pose proof (digitize1_bounds steps x). lia.
  - intros k Hk Hle Hlt.
    pose proof (digitize1_above steps k x ltac:(lia) ltac:(lia) Hle).
    pose proof (digitize1_below steps (k + 1) x ltac:(lia) ltac:(lia) Hlt).
    lia.
  - intros Hle.
    pose proof (digitize1_above steps (steps - 1) x ltac:(lia) ltac:(lia) Hle).
    pose proof (digitize1_bounds steps x). lia.
Qed.

Lemma steps_range (bits : Z) : 1 ≤ bits ≤ 8 → 1 ≤ 2 ^ bits - 1 ≤ 255.
Proof.
  intros Hbits.
  assert (2 ^ bits ≤ 2 ^ 8) by (apply Z.pow_le_mono_r; lia).
  assert (2 ^ 1 ≤ 2 ^ bits) by (apply Z.pow_le_mono_r; lia).
  change (2 ^ 8) with 256 in *. change (2 ^ 1) with 2 in *. lia.
Qed.

(** X9. The code that [quantize_probabilities] gives a value, with
    [steps = 2^bits - 1]: a NaN has the code [steps]; a value below 0 has
    the code 0; a value from edge [k] up to, and not reaching, edge [k + 1]
    has the code [k + 1]; a value at or above the last edge [steps - 1] has
    the code [steps].  There is one code for each value. *)
Theorem quantize_probabilities_code_of_value (p : list float64) (bits : Z) :
  1 ≤ bits ≤ 8 →
  let steps := 2 ^ bits - 1 in
  ∃ codes,
    quantize_probabilities p bits = OK codes ∧ length codes = length p ∧
    ∀ i x c,
      p !! i = Some x → codes !! i = Some c →
      (is_nan x = true → c = steps) ∧
      (SFltb x (float64_of_Z 0) = true → c = 0) ∧
      (∀ k, 0 ≤ k < steps - 1 →
            SFleb (float64_of_Z k) x = true →
            SFltb x (float64_of_Z (k + 1)) = true → c = k + 1) ∧
      (SFleb (float64_of_Z (steps - 1)) x = true → c = steps).
Proof.
  intros Hbits steps. eexists. split_and!.
  - by apply quantize_probabilities_codes.
  - by rewrite length_fmap.
  - intros i x c Hx Hc. rewrite list_lookup_fmap, Hx in Hc.
    injection Hc as <-. apply digitize1_cases. by apply steps_range.
Qed.

Lemma quantize_probabilities_code_of_value_witness :
  ∃ codes,
    quantize_probabilities [f64 (-2); f64_half; f64 3; S754_nan] 2 = OK codes ∧
    codes !! 0%nat = Some 0 ∧ codes !! 3%nat = Some 3.
Proof.
  destruct (quantize_probabilities_code_of_value
              [f64 (-2); f64_half; f64 3; S754_nan] 2 ltac:(lia))
    as (codes & Hcodes & Hlen & Hcode).
  exists codes. split; [exact Hcodes|].
  destruct codes as [|c0 [|c1 [|c2 [|c3 [|]]]]]; try discriminate.
  split; simpl; f_equal.
  - exact (proj1 (proj2 (Hcode 0%nat (f64 (-2)) c0 eq_refl eq_refl)) eq_refl).
  - exact (proj1 (Hcode 3%nat S754_nan c3 eq_refl eq_refl) eq_refl).
Defined.

(** X10. A whole count [k] from 0 to 254 is given the code [k + 1], cut off
    at [steps = 2^bits - 1]: a count of 0 has the code 1, and at 8 bits the
    counts 0 to 254 have the codes 1 to 255. *)
Theorem quantize_probabilities_of_count (k bits : Z) :
  1 ≤ bits ≤ 8 → 0 ≤ k ≤ 254 →
  quantize_probabilities [float64_of_Z k] bits
    = OK [Z.min (k + 1) (2 ^ bits - 1)].
Proof.
  intros Hbits Hk. rewrite quantize_probabilities_codes by done.
  pose proof (steps_range bits Hbits) as Hsteps.
  destruct (digitize1_cases (2 ^ bits - 1) (float64_of_Z k) Hsteps)
    as (_ & _ & Hmid & Htop).
  simpl. do 2 f_equal.
  destruct (decide (k < 2 ^ bits - 1 - 1)) as [Hlt|Hge].
  - rewrite (Hmid k); [lia | lia | |].
    + apply float64_of_Z_le; lia.
    + apply float64_of_Z_lt; lia.
  - rewrite Htop; [lia|]. apply float64_of_Z_le; lia.
Qed.

Lemma quantize_probabilities_of_count_witness :
  quantize_probabilities [float64_of_Z 0] 8 = OK [1] ∧
  quantize_probabilities [float64_of_Z 254] 8 = OK [255] ∧
  quantize_probabilities [float64_of_Z 5] 2 = OK [3].
Proof.
  split_and!.
  - apply (quantize_probabilities_of_count 0 8); lia.
  - apply (quantize_probabilities_of_count 254 8); lia.
  - apply (quantize_probabilities_of_count 5 2); lia.
Defined.

(** X11. The codes follow the order of the values: where each value of [p]
    is at most the value of [q] at its place, so is each code, whatever the
    bit width. *)
Theorem quantize_probabilities_monotone (p q : list float64) (bits : Z) :
  1 ≤ bits ≤ 8 → Forall2 (λ x y, SFleb x y = true) p q →
  ∃ codes_p codes_q,
    quantize_probabilities p bits = OK codes_p ∧
    quantize_probabilities q bits = OK codes_q ∧
    Forall2 Z.le codes_p codes_q.
Proof.
  intros Hbits Hpq. do 2 eexists. split_and!.
  - by apply quantize_probabilities_codes.
  - by apply quantize_probabilities_codes.
  - apply Forall2_fmap. eapply list.Forall2_impl; [exact Hpq|].
    intros x y Hxy. simpl. unfold digitize1, len.
    apply inj_le. apply filter_length_mono. intros b Hb.
    destruct (SFltb y (float64_of_Z b)) eqn:Hy; [|done].
    by rewrite (SFleb_ltb_trans x y) in Hb.
Qed.

Lemma quantize_probabilities_monotone_witness :
  ∃ codes_p codes_q,
    quantize_probabilities [f64_half; f64 1] 8 = OK codes_p ∧
    quantize_probabilities [f64 1; f64 3] 8 = OK codes_q ∧
    Forall2 Z.le codes_p codes_q.
Proof.
  apply (quantize_probabilities_monotone [f64_half; f64 1] [f64 1; f64 3] 8).
  - lia.
  - repeat constructor.
Defined.

(** ** leaves_to_bytelist: what is returned, and array payloads *)

Lemma le_bytes4_range (w : Z) : Forall (λ b, 0 ≤ b ≤ 255) (le_bytes4 w).
Proof.
  unfold le_bytes4.
  repeat constructor;
    match goal with
    | |- _ ≤ ?x mod 256 => pose proof (Z.mod_pos_bound x 256); lia
    | |- ?x mod 256 ≤ _ => pose proof (Z.mod_pos_bound x 256); lia
    end.
Qed.

Lemma float32_tobytes_range (arr : list float32) :
  Forall (λ b, 0 ≤ b ≤ 255) (concat (float32_tobytes <$> arr)).
Proof.
  induction arr as [|x arr IH]; [constructor|].
  rewrite fmap_cons. cbn [concat]. apply Forall_app. split; [|exact IH].
  apply le_bytes4_range.
Qed.

(** X12. Whenever [leaves_to_bytelist] returns, the width is 0 and the
    result is the list of payloads it was given, or the width is 32 and the
    result is a list of byte values from 0 to 255, four for each leaf. *)
Theorem leaves_to_bytelist_result
    (leaves : list Leaf) (leaf_bits : Z) (out : bytelist) :
  leaves_to_bytelist leaves leaf_bits = OK out →
  (leaf_bits = 0 ∧ out = Payloads leaves) ∨
  (leaf_bits = 32 ∧
   ∃ bytes, out = Bytes bytes ∧ len bytes = 4 * len leaves ∧
            Forall (λ b, 0 ≤ b ≤ 255) bytes).
Proof.
  unfold leaves_to_bytelist. intros H.
  destruct (Z.eqb_spec leaf_bits 0) as [->|_].
  { left. by injection H as <-. }
  destruct (Z.eqb_spec leaf_bits 32) as [->|_]; [|discriminate].
  right. split; [done|]. bind_inv H. bind_inv H. injection H as <-.
  eexists. split; [done|]. split; [|apply float32_tobytes_range].
  apply py_assert_OK, Z.eqb_eq in Hc0. rewrite Hc0. reflexivity.
Qed.

Lemma leaves_to_bytelist_result_witness :
  let leaves := [LValue f64_half; LClass 1] in
  leaves_to_bytelist leaves 32 = OK (Bytes [0; 0; 0; 63;  0; 0; 128; 63]) ∧
  ∃ bytes, Bytes [0; 0; 0; 63;  0; 0; 128; 63] = Bytes bytes ∧
           len bytes = 4 * len leaves ∧ Forall (λ b, 0 ≤ b ≤ 255) bytes.
Proof.
  intros leaves.
  assert (H : leaves_to_bytelist leaves 32
              = OK (Bytes [0; 0; 0; 63;  0; 0; 128; 63]))
    by (vm_compute; reflexivity).
  split; [exact H|].
  destruct (leaves_to_bytelist_result leaves 32 _ H) as [[H0 _]|[_ Hbytes]].
  - discriminate H0.
  - exact Hbytes.
Defined.

Lemma array_leaves_flat_length (k : Z) (leaves : list Leaf) :
  array_leaves k leaves →
  len (concat ((λ l, match l with
                     | LProba r => float32_of_Z <$> r
                     | _ => []
                     end) <$> leaves)) = k * len leaves.
Proof.
  induction 1 as [|l leaves (codes & -> & Hk) _ IH].
  - unfold len. simpl. lia.
  - rewrite fmap_cons. cbn [concat]. unfold len in *.
    rewrite length_app, length_fmap, length_cons. nia.
Qed.

(** X13. Array payloads at width 32: a leaf list that is not empty and
    whose payloads are arrays of one length [k] is refused with an
    [AssertionError] unless [k = 1], since the flattened array has [4k]
    bytes for each leaf where four are expected. *)
Theorem leaves_to_bytelist_of_arrays (leaves : list Leaf) (k : Z) :
  leaves ≠ [] → array_leaves k leaves → k ≠ 1 →
  leaves_to_bytelist leaves 32 = Raise AssertionError.
Proof.
  intros Hne Harr Hk. pose proof (array_leaves_flat_length k leaves Harr) as Hlen.
  destruct leaves as [|l leaves]; [done|].
  pose proof Harr as Hall.
  inversion Harr as [|l' ls' (row & Hl & Hrow) Hrest]; subst l' ls' l.
  assert (forallb (λ l, match l with
                        | LProba r => (length r =? length row)%nat
                        | _ => false
                        end) (LProba row :: leaves) = true) as Hrows.
  { apply forallb_Forall_true. eapply Forall_impl; [|exact Hall].
    intros l (codes & -> & Hcodes). apply Nat.eqb_eq.
    unfold len in *. lia. }
  unfold leaves_to_bytelist. cbn [Z.eqb Pos.eqb].
  unfold numpy_array_float32.
  change (forallb is_class (LProba row :: leaves)) with false.
  change (forallb is_scalar (LProba row :: leaves)) with false.
  cbv beta iota. rewrite Hrows.
  cbn [mbind result_bind]. rewrite float32_tobytes_length, Hlen.
  change ((32 + 7) / 8) with 4.
  assert (0 < len (LProba row :: leaves)) by (unfold len; simpl; lia).
  destruct (Z.eqb_spec (4 * (k * len (LProba row :: leaves)))
                       (4 * len (LProba row :: leaves))) as [Heq|_]; [|done].
  exfalso. nia.
Qed.

Lemma leaves_to_bytelist_of_arrays_witness :
  flatten_tree tree_A "probabilities" 8
    = OK ([node_A (-1) (-2)], [LProba [4; 1]; LProba [1; 3]]) ∧
  leaves_to_bytelist [LProba [4; 1]; LProba [1; 3]] 32 = Raise AssertionError.
Proof.
  split; [vm_compute; reflexivity|].
  apply (leaves_to_bytelist_of_arrays _ 2); [discriminate | | lia].
  repeat constructor; by eexists.
Defined.

(** ** The forest that the wrapper keeps *)

Lemma sublist_scalar (ls ls' : list Leaf) :
  ls' `sublist_of` ls → scalar_leaves ls → scalar_leaves ls'.
Proof.
  intros Hsub Hls. apply Forall_forall. intros l Hl.
  apply list_elem_of_In in Hl.
  eapply (proj1 (Forall_forall _ _) Hls), list_elem_of_In.
  by eapply elem_of_sublist.
Qed.

Lemma Wrapper_forest_steps (regressor : bool) (trees : list Tree)
    (forest_ : Forest) :
  Wrapper_forest regressor trees = OK forest_ →
  ∃ merged,
    flatten_forest trees (if regressor then "value" else "argmax") = OK merged ∧
    remove_duplicate_leaves merged = OK forest_ ∧
    len (nodes forest_) ≤ 2 ^ 15.
Proof.
  unfold Wrapper_forest. intros H. bind_inv H. bind_inv H. bind_inv H.
  injection H as <-. exists a. split_and!; [done..|].
  unfold Wrapper_check_nodes in Hc1.
  destruct (Z.gtb_spec (len (nodes a0)) (2 ^ 15)); [discriminate | lia].
Qed.

Lemma Wrapper_forest_scalar (regressor : bool) (trees : list Tree)
    (forest_ : Forest) :
  Wrapper_forest regressor trees = OK forest_ → scalar_leaves (leaves forest_).
Proof.
  intros H. apply Wrapper_forest_steps in H as (merged & Hmerge & Hdedup & _).
  apply remove_duplicate_leaves_result in Hdedup as (_ & Hsub & _).
  eapply sublist_scalar; [exact Hsub|].
  eapply flatten_forest_scalar; [|exact Hmerge].
  destruct regressor; [by right | by left].
Qed.

(** X14. The leaves that the constructor hands on, once it has built its
    forest: with the default width a classifier hands on the payloads as
    they are and a regressor four bytes for each leaf; the width 32 gives
    four bytes for each leaf for either kind; any width other than 0 and 32
    raises a [ValueError]. *)
Theorem Wrapper_leaf_bytes_by_width
    (regressor : bool) (trees : list Tree) (forest_ : Forest) :
  Wrapper_forest regressor trees = OK forest_ →
  Wrapper_leaf_bytes regressor (Some 0) trees = OK (Payloads (leaves forest_)) ∧
  (∃ bytes, Wrapper_leaf_bytes regressor (Some 32) trees = OK (Bytes bytes) ∧
            len bytes = 4 * len (leaves forest_)) ∧
  Wrapper_leaf_bytes regressor None trees
    = Wrapper_leaf_bytes regressor (Some (if regressor then 32 else 0)) trees ∧
  (∀ leaf_bits, leaf_bits ≠ 0 → leaf_bits ≠ 32 →
     Wrapper_leaf_bytes regressor (Some leaf_bits) trees
       = Raise (ValueError "Only 0 or 32 supported for leaf_bits")).
Proof.
  intros H. pose proof (Wrapper_forest_scalar _ _ _ H) as Hscalar.
  unfold Wrapper_leaf_bytes. rewrite H. cbn [mbind result_bind].
  destruct forest_ as [ns rs ls]. cbn [leaves Wrapper_leaf_bits] in *.
  split_and!.
  - reflexivity.
  - destruct (numpy_array_float32_scalars ls Hscalar) as (arr & Harr & Hround).
    exists (concat (float32_tobytes <$> arr)).
    assert (len arr = len ls) as Hlen.
    { unfold len. by rewrite (Forall2_length Hround). }
    unfold leaves_to_bytelist. cbn [Z.eqb Pos.eqb]. rewrite Harr.
    cbn [mbind result_bind]. rewrite float32_tobytes_length, Hlen.
    change ((32 + 7) / 8) with 4. rewrite Z.eqb_refl. by cbn.
  - by destruct regressor.
  - intros leaf_bits H0 H32. unfold leaves_to_bytelist.
    destruct (Z.eqb_spec leaf_bits 0); [done|].
    destruct (Z.eqb_spec leaf_bits 32); done.
Qed.

Lemma Wrapper_leaf_bytes_by_width_witness :
  Wrapper_forest false [tree_A; tree_A]
    = OK (mkForest [node_A (-1) (-2); node_A (-1) (-2)] [0; 1]
            [LClass 0; LClass 1]) ∧
  Wrapper_leaf_bytes false None [tree_A; tree_A]
    = OK (Payloads [LClass 0; LClass 1]).
Proof.
  assert (H : Wrapper_forest false [tree_A; tree_A]
              = OK (mkForest [node_A (-1) (-2); node_A (-1) (-2)] [0; 1]
                      [LClass 0; LClass 1])) by (vm_compute; reflexivity).
  split; [exact H|].
  destruct (Wrapper_leaf_bytes_by_width _ _ _ H) as (H0 & _ & Hdefault & _).
  rewrite Hdefault. exact H0.
Defined.

(** ** Leaf references of a flattened forest *)

Lemma for_each_invariant_in {A S} (P : S → Prop) (body : S → A → result S)
    (xs : list A) (acc acc' : S) :
  (∀ st x st', x ∈ xs → body st x = OK st' → P st → P st') →
  for_each body xs acc = OK acc' → P acc → P acc'.
Proof.
  revert acc. induction xs as [|x xs IH]; intros acc Hbody H Hacc.
  - by injection H as <-.
  - cbn [for_each] in H. apply bind_OK in H as (acc1 & Hx & H).
    eapply IH; [|exact H|].
    + intros st y st' Hy. apply Hbody. by right.
    + eapply Hbody; [by left | exact Hx | exact Hacc].
Qed.

Lemma len_snoc {A} (xs : list A) (x : A) : len (xs ++ [x]) = len xs + 1.
Proof. unfold len. rewrite length_app. simpl. lia. Qed.

(** A child that is named by an index that is not negative becomes a
    reference to a leaf that exists, or stays that index. *)
Lemma process_child_ref (tree : Tree) (leaf : string) (leaf_bits idx : Z)
    (ls ls' : list Leaf) (ref : Z) :
  process_child tree leaf leaf_bits idx ls = OK (ref, ls') →
  len ls ≤ len ls' ∧ (0 ≤ idx → ref < 0 → - ref - 1 < len ls').
Proof.
  intros H. unfold process_child in H.
  apply bind_OK in H as (l & _ & H). apply bind_OK in H as (is_leaf & _ & H).
  destruct is_leaf.
  - unfold add_leaf in H. apply bind_OK in H as (val & _ & H).
    apply bind_OK in H as (u & _ & H). injection H as <- <-.
    rewrite len_snoc. lia.
  - injection H as <- <-. lia.
Qed.

Lemma leaf_refs_in_range_mono (ns : list Node) (ls ls' : list Leaf) :
  len ls ≤ len ls' → leaf_refs_in_range ns ls → leaf_refs_in_range ns ls'.
Proof.
  intros Hlen. apply Forall_impl. intros n [Hl Hr]. split; intros H.
  - specialize (Hl H). lia.
  - specialize (Hr H). lia.
Qed.

Lemma renumber_negative (decision_node_mapping : gmap Z Z) (ref ref' : Z) :
  map_Forall (λ _ out_idx, 0 ≤ out_idx) decision_node_mapping →
  renumber decision_node_mapping ref = OK ref' → ref' < 0 → ref' = ref.
Proof.
  intros Hmap H Hneg. unfold renumber in H.
  destruct (Z.leb_spec 0 ref); [|by injection H as <-].
  destruct (decision_node_mapping !! ref) as [out_idx|] eqn:Hout;
    [|discriminate].
  injection H as <-. apply Hmap in Hout. simpl in Hout. lia.
Qed.

Lemma flatten_tree_leaf_refs (tree : Tree) (leaf : string) (leaf_bits : Z)
    (decision_nodes : list Node) (leaf_nodes : list Leaf) :
  children_paired tree →
  flatten_tree tree leaf leaf_bits = OK (decision_nodes, leaf_nodes) →
  leaf_refs_in_range decision_nodes leaf_nodes.
Proof.
  intros Hpaired H. unfold flatten_tree in H.
  apply bind_OK in H as (u1 & _ & H). apply bind_OK in H as (u2 & _ & H).
  apply bind_OK in H as ([[dn ls] mapping] & Hscan & H).
  apply bind_OK in H as (dn' & Hrenumber & H).
  apply bind_OK in H as (u3 & _ & H). apply bind_OK in H as (u4 & _ & H).
  injection H as <- <-.
  apply (for_each_invariant_in
           (λ st : scan_state,
              leaf_refs_in_range st.1.1 st.1.2 ∧
              map_Forall (λ _ out_idx, 0 ≤ out_idx) st.2)) in Hscan.
  - destruct Hscan as [Hrefs Hmap]. simpl in Hrefs, Hmap.
    apply map_result_Forall2 in Hrenumber.
    unfold leaf_refs_in_range in *.
    induction Hrenumber as [|n n' ns ns' Hn _ IH]; [constructor|].
    apply Forall_cons_iff in Hrefs as [[Hl Hr] Hrefs].
    constructor; [|by apply IH].
    unfold renumber_node in Hn.
    apply bind_OK in Hn as (l & Hleft & Hn).
    apply bind_OK in Hn as (r & Hright & Hn). injection Hn as <-. simpl.
    split; intros Hneg.
    + pose proof (renumber_negative _ _ _ Hmap Hleft Hneg) as ->.
      by apply Hl.
    + pose proof (renumber_negative _ _ _ Hmap Hright Hneg) as ->.
      by apply Hr.
  - intros [[dn0 ls0] m0] [node_no [[[c_left c_right] ft] th]] st' Hin Hstep
           [Hrefs Hmap].
    simpl in Hrefs, Hmap.
    assert ((c_left, c_right, ft, th) ∈ zipped tree) as Hitem.
    { unfold enumerate in Hin. by apply elem_of_zip_r in Hin. }
    apply list_elem_of_In in Hitem.
    apply (proj1 (Forall_forall _ _) Hpaired) in Hitem. simpl in Hitem.
    unfold scan_node in Hstep.
    destruct ((c_left =? -1) && (c_right =? -1)) eqn:Hleaf;
      [by injection Hstep as <-|].
    assert (0 ≤ c_left ∧ 0 ≤ c_right) as [Hcl Hcr].
    { destruct Hitem as [[-> ->]|]; [discriminate Hleaf | done]. }
    apply bind_OK in Hstep as ([l ls1] & Hp1 & Hstep).
    apply bind_OK in Hstep as ([r ls2] & Hp2 & Hstep).
    injection Hstep as <-. simpl.
    apply process_child_ref in Hp1 as [Hlen1 Hl].
    apply process_child_ref in Hp2 as [Hlen2 Hr].
    split.
    + apply Forall_app. split.
      * apply (leaf_refs_in_range_mono _ ls0); [lia | done].
      * constructor; [|constructor]. simpl. split; intros Hneg.
        -- specialize (Hl Hcl Hneg). lia.
        -- by apply Hr.
    + apply map_Forall_insert_2; [unfold len; lia | done].
  - split; [constructor | apply map_Forall_empty].
Qed.

Lemma concat_offset_leaf_refs (flats : list FlatTree) (dno lno : Z) :
  0 ≤ dno →
  Forall (λ flat : FlatTree, leaf_refs_in_range flat.1 flat.2) flats →
  Forall (λ n, (node_left n < 0 →
                - node_left n - 1 < lno + len (concat (snd <$> flats))) ∧
               (node_right n < 0 →
                - node_right n - 1 < lno + len (concat (snd <$> flats))))
         (concat_offset dno lno flats).
Proof.
  intros Hdno Hflats. revert dno lno Hdno.
  induction Hflats as [|[d l] flats Hflat _ IH]; intros dno lno Hdno;
    [constructor|].
  cbn [concat_offset]. rewrite fmap_cons. cbn [concat snd].
  assert (len (l ++ concat (snd <$> flats))
          = len l + len (concat (snd <$> flats))) as ->
    by (unfold len; rewrite length_app; lia).
  assert (0 ≤ len (concat (snd <$> flats))) by (unfold len; lia).
  apply Forall_app. split.
  - simpl in Hflat. apply Forall_fmap. eapply Forall_impl; [|exact Hflat].
    intros n [Hl Hr]. simpl. unfold offset_ref.
    split; intros Hneg.
    + destruct (Z.leb_spec 0 (node_left n)); [lia|].
      specialize (Hl ltac:(lia)). lia.
    + destruct (Z.leb_spec 0 (node_right n)); [lia|].
      specialize (Hr ltac:(lia)). lia.
  - specialize (IH (dno + len d) (lno + len l)).
    eapply Forall_impl; [|apply IH; unfold len; lia].
    intros n [Hl Hr]. split; intros Hneg.
    + specialize (Hl Hneg). lia.
    + specialize (Hr Hneg). lia.
Qed.

Lemma flatten_forest_leaf_refs (trees : list Tree) (leaf : string)
    (forest : Forest) :
  Forall children_paired trees → flatten_forest trees leaf = OK forest →
  leaf_refs_in_range (nodes forest) (leaves forest).
Proof.
  intros Hpaired H. rewrite flatten_forest_flats in H.
  apply bind_OK in H as (flats & Hflats & H). injection H as <-.
  unfold concat_forest. cbn [nodes leaves].
  pose proof (concat_offset_leaf_refs flats 0 0) as Hrefs.
  rewrite Z.add_0_l in Hrefs. apply Hrefs; [lia|].
  apply map_result_Forall2 in Hflats. clear Hrefs.
  induction Hflats as [|tree [d l] trees flats Hflat _ IH]; [constructor|].
  apply Forall_cons_iff in Hpaired as [Htree Hpaired].
  constructor; [|by apply IH]. by eapply flatten_tree_leaf_refs.
Qed.

Lemma refs_in_range_of (forest : Forest) :
  assert_forest_valid forest = OK tt →
  leaf_refs_in_range (nodes forest) (leaves forest) → refs_in_range forest.
Proof.
  destruct forest as [ns rs ls]. simpl. intros Hvalid Hrefs.
  apply assert_node_references_valid_OK in Hvalid as (Hl & Hr & _).
  unfold refs_in_range, leaf_refs_in_range in *. simpl.
  apply Forall_forall. intros n Hn.
  pose proof (proj1 (Forall_forall _ _) Hrefs n Hn) as [Hll Hlr].
  apply list_elem_of_In in Hn.
  specialize (Hl n Hn). specialize (Hr n Hn). unfold len in *. simpl in *. lia.
Qed.

Lemma refs_in_range_no_dangling (forest : Forest) :
  refs_in_range forest → ¬ has_dangling_leaf_reference forest.
Proof.
  intros Hrefs (n & Hn & Hdangling).
  apply list_elem_of_In in Hn.
  apply (proj1 (Forall_forall _ _) Hrefs) in Hn.
  unfold dangling_ref in Hdangling. lia.
Qed.

(** X15. The merged forest of source trees whose inner nodes name both
    children by indices that are not negative has every child reference in
    range, the right ones too, which the validator does not test: each is an
    index of the node array or decodes to an index of the leaf array, so no
    leaf reference dangles. *)
Theorem flatten_forest_refs_in_range
    (trees : list Tree) (leaf : string) (forest : Forest) :
  Forall children_paired trees → flatten_forest trees leaf = OK forest →
  refs_in_range forest ∧ ¬ has_dangling_leaf_reference forest.
Proof.
  intros Hpaired H.
  assert (refs_in_range forest) as Hrefs.
  { apply refs_in_range_of; [by eapply flatten_forest_valid|].
    by eapply flatten_forest_leaf_refs. }
  split; [exact Hrefs | by apply refs_in_range_no_dangling].
Qed.

Lemma children_paired_A : children_paired tree_A.
Proof. repeat constructor; simpl; lia. Qed.

Lemma flatten_forest_refs_in_range_witness :
  let forest := mkForest [node_A (-1) (-2); node_A (-3) (-4)] [0; 1]
                  [LClass 0; LClass 1; LClass 0; LClass 1] in
  Forall children_paired [tree_A; tree_A] ∧
  flatten_forest [tree_A; tree_A] "argmax" = OK forest ∧
  refs_in_range forest ∧ ¬ has_dangling_leaf_reference forest.
Proof.
  intros forest.
  assert (Hpaired : Forall children_paired [tree_A; tree_A])
    by (repeat (apply Forall_cons; [apply children_paired_A|]);
        apply Forall_nil).
  assert (H : flatten_forest [tree_A; tree_A] "argmax" = OK forest)
    by (vm_compute; reflexivity).
  split; [exact Hpaired|]. split; [exact H|].
  exact (flatten_forest_refs_in_range _ _ _ Hpaired H).
Defined.

(** ** The forest that the wrapper keeps, continued *)

Lemma remove_duplicate_leaves_valid (forest forest' : Forest) :
  remove_duplicate_leaves forest = OK forest' →
  assert_forest_valid forest' = OK tt ∧ nodes forest ≠ [].
Proof.
  destruct forest as [ns rs ls]. unfold remove_duplicate_leaves. intros H.
  apply bind_OK in H as ([U R] & _ & H).
  apply bind_OK in H as (u1 & Hdiv & H).
  apply bind_OK in H as ([] & Hvalid & H). injection H as <-.
  split; [exact Hvalid|]. apply py_truediv_OK in Hdiv.
  simpl. intros ->. by apply Hdiv.
Qed.

Lemma remove_duplicate_leaves_leaf_refs (forest forest' : Forest) :
  remove_duplicate_leaves forest = OK forest' →
  leaf_refs_in_range (nodes forest) (leaves forest) →
  leaf_refs_in_range (nodes forest') (leaves forest').
Proof.
  intros H Hrefs.
  apply remove_duplicate_leaves_result in H as (_ & _ & _ & Hnodes).
  unfold leaf_refs_in_range in *.
  destruct forest as [ns rs ls], forest' as [ns' rs' ls'].
  cbn [nodes leaves] in *.
  assert (Hone : ∀ ref ref',
            (ref < 0 → - ref - 1 < len ls) →
            remapped ls ls' ref ref' →
            ref' < 0 → - ref' - 1 < len ls').
  { intros ref ref' Hin [Hleaf Hother] Hneg.
    destruct (decide (0 ≤ ref)) as [H0|H0].
    { rewrite Hother in Hneg by (by left). lia. }
    specialize (Hin ltac:(lia)).
    destruct (lookup_lt_is_Some_2 ls (Z.to_nat (- ref - 1)))
      as [node Hnode]; [unfold len in Hin; lia|].
    destruct (Hleaf node ltac:(lia) Hnode) as (k & -> & Hk & _ & u & Hu & _).
    apply lookup_lt_Some in Hu. unfold len. lia. }
  induction Hnodes as [|n n' ns ns' (_ & _ & Hl & Hr) _ IH]; [constructor|].
  apply Forall_cons_iff in Hrefs as [[Hnl Hnr] Hrefs].
  constructor; [|by apply IH].
  split; [exact (Hone _ _ Hnl Hl) | exact (Hone _ _ Hnr Hr)].
Qed.

Lemma flatten_forest_roots_length (trees : list Tree) (leaf : string)
    (forest : Forest) :
  flatten_forest trees leaf = OK forest →
  length (roots forest) = length trees.
Proof.
  rewrite flatten_forest_flats. intros H.
  apply bind_OK in H as (flats & Hflats & H). injection H as <-.
  unfold concat_forest. cbn [roots].
  rewrite root_offsets_length, length_fmap.
  apply map_result_Forall2 in Hflats. symmetry. by eapply Forall2_length.
Qed.

(** X16. The forest that [Wrapper.__init__] keeps: the validator accepts
    it; it has at least one and at most 2^15 decision nodes, and one root
    for each tree; its leaves are scalar payloads none of which equals an
    earlier one.  Where the inner nodes of the source trees name both
    children by indices that are not negative, every child reference is
    below the number of decision nodes and not below minus the number of
    leaves. *)
Theorem Wrapper_forest_invariants
    (regressor : bool) (trees : list Tree) (forest_ : Forest) :
  Wrapper_forest regressor trees = OK forest_ →
  assert_forest_valid forest_ = OK tt ∧
  1 ≤ len (nodes forest_) ≤ 2 ^ 15 ∧
  length (roots forest_) = length trees ∧
  scalar_leaves (leaves forest_) ∧
  first_seen (leaves forest_) ∧
  (Forall children_paired trees → refs_in_range forest_).
Proof.
  intros H. pose proof (Wrapper_forest_scalar _ _ _ H) as Hscalar.
  apply Wrapper_forest_steps in H as (merged & Hmerge & Hdedup & Hmax).
  pose proof (remove_duplicate_leaves_valid _ _ Hdedup) as [Hvalid Hnodes].
  pose proof (remove_duplicate_leaves_nodes_length _ _ Hdedup) as Hlen.
  pose proof (remove_duplicate_leaves_result _ _ Hdedup)
    as (Hroots & _ & Hseen & _).
  split_and!; try done.
  - rewrite Hlen. destruct (nodes merged); [done|]. unfold len. simpl. lia.
  - rewrite Hroots. by eapply flatten_forest_roots_length.
  - intros Hpaired. apply refs_in_range_of; [done|].
    eapply remove_duplicate_leaves_leaf_refs; [exact Hdedup|].
    by eapply flatten_forest_leaf_refs.
Qed.

Lemma Wrapper_forest_invariants_witness :
  let forest_ := mkForest [node_A (-1) (-2); node_A (-1) (-2)] [0; 1]
                   [LClass 0; LClass 1] in
  Wrapper_forest false [tree_A; tree_A] = OK forest_ ∧
  assert_forest_valid forest_ = OK tt ∧
  1 ≤ len (nodes forest_) ≤ 2 ^ 15 ∧
  refs_in_range forest_.
Proof.
  intros forest_.
  assert (H : Wrapper_forest false [tree_A; tree_A] = OK forest_)
    by (vm_compute; reflexivity).
  destruct (Wrapper_forest_invariants _ _ _ H)
    as (Hvalid & Hlen & _ & _ & _ & Hrefs).
  split_and!; [exact H | exact Hvalid | apply Hlen | apply Hlen |].
  apply Hrefs.
  repeat (apply Forall_cons; [apply children_paired_A|]). apply Forall_nil.
Defined.

(** ** generate_c_nodes *)

Section generate_c_nodes_facts.
Variable cgen_constant : float64 → string → result string.

Lemma assert_valid_child_OK (value : Z) :
  assert_valid_child value = OK tt ↔ - 2 ^ 15 ≤ value ≤ 2 ^ 15.
Proof.
  unfold assert_valid_child, py_assert.
  destruct (Z.leb_spec (- 2 ^ 15) value), (Z.leb_spec value (2 ^ 15));
    cbn [mbind result_bind]; split; intros; (done || lia).
Qed.

Lemma assert_valid_child_outcome (value : Z) :
  assert_valid_child value = OK tt ∨
  assert_valid_child value = Raise AssertionError.
Proof.
  unfold assert_valid_child, py_assert.
  destruct (- 2 ^ 15 <=? value), (value <=? 2 ^ 15); cbn; auto.
Qed.

Lemma make_node_OK (dtype : string) (node : Node) :
  (∃ text, make_node cgen_constant dtype node = OK text) ↔
  children_in_bounds node ∧ ∃ v, cgen_constant (node_th node) dtype = OK v.
Proof.
  destruct node as [ft th l r]. unfold make_node, children_in_bounds. simpl.
  split.
  - intros [text H].
    apply bind_OK in H as ([] & Hl & H). apply bind_OK in H as ([] & Hr & H).
    apply bind_OK in H as (v & Hv & _).
    apply assert_valid_child_OK in Hl, Hr. eauto.
  - intros [[Hl Hr] [v Hv]]. apply assert_valid_child_OK in Hl, Hr.
    rewrite Hl, Hr, Hv. cbn [mbind result_bind]. eauto.
Qed.

Lemma make_node_out_of_bounds (dtype : string) (node : Node) :
  ¬ children_in_bounds node →
  make_node cgen_constant dtype node = Raise AssertionError.
Proof.
  destruct node as [ft th l r]. unfold make_node, children_in_bounds. simpl.
  intros Hout.
  destruct (assert_valid_child_outcome l) as [Hl|Hl]; rewrite Hl;
    cbn [mbind result_bind]; [|done].
  destruct (assert_valid_child_outcome r) as [Hr|Hr]; rewrite Hr;
    cbn [mbind result_bind]; [|done].
  apply assert_valid_child_OK in Hl, Hr. lia.
Qed.

Lemma map_result_OK {A B} (f : A → result B) (xs : list A) :
  (∃ ys, map_result f xs = OK ys) ↔ Forall (λ x, ∃ y, f x = OK y) xs.
Proof.
  induction xs as [|x xs IH].
  - split; [constructor | by exists []].
  - cbn [map_result]. split.
    + intros [ys H]. apply bind_OK in H as (y & Hy & H).
      apply bind_OK in H as (ys' & Hys & _).
      constructor; [eauto | apply IH; eauto].
    + intros H. apply Forall_cons_iff in H as [[y Hy] [ys Hys]%IH].
      rewrite Hy. cbn [mbind result_bind]. rewrite Hys.
      cbn [mbind result_bind]. eauto.
Qed.

Lemma map_result_first_raise {A B} (f : A → result B) (pre post : list A)
    (x : A) (e : exn) :
  Forall (λ x, ∃ y, f x = OK y) pre → f x = Raise e →
  map_result f (pre ++ x :: post) = Raise e.
Proof.
  induction 1 as [|p pre [y Hy] _ IH]; intros Hx.
  - cbn [app map_result]. by rewrite Hx.
  - cbn [app map_result]. rewrite Hy. cbn [mbind result_bind].
    by rewrite IH.
Qed.

Lemma generate_c_nodes_OK (flat : list Node) (name dtype : string) :
  (∃ code, generate_c_nodes cgen_constant flat name dtype = OK code) ↔
  Forall (λ node, children_in_bounds node ∧
                  ∃ v, cgen_constant (node_th node) dtype = OK v) flat.
Proof.
  unfold generate_c_nodes. split.
  - intros [code H]. apply bind_OK in H as (structs & Hs & _).
    assert (Forall (λ node, ∃ text, make_node cgen_constant dtype node
                                     = OK text) flat) as Hflat
      by (apply map_result_OK; eauto).
    eapply Forall_impl; [|exact Hflat].
    intros node. apply make_node_OK.
  - intros Hflat.
    destruct (proj2 (map_result_OK (make_node cgen_constant dtype) flat))
      as [structs ->]; [|cbn [mbind result_bind]; eauto].
    eapply Forall_impl; [|exact Hflat].
    intros node. apply make_node_OK.
Qed.

(** X17. [generate_c_nodes] returns the array text exactly when, for every
    node, both child references are from -2^15 to 2^15 (the upper bound
    included) and [cgen.constant] returns for its threshold; the first node
    with a child reference outside these bounds, when the nodes before it
    pass, ends the call with an [AssertionError]. *)
Theorem generate_c_nodes_returns (flat : list Node) (name dtype : string) :
  ((∃ code, generate_c_nodes cgen_constant flat name dtype = OK code) ↔
   Forall (λ node, children_in_bounds node ∧
                   ∃ v, cgen_constant (node_th node) dtype = OK v) flat) ∧
  (∀ pre node post,
     flat = pre ++ node :: post →
     Forall (λ node, children_in_bounds node ∧
                     ∃ v, cgen_constant (node_th node) dtype = OK v) pre →
     ¬ children_in_bounds node →
     generate_c_nodes cgen_constant flat name dtype = Raise AssertionError).
Proof.
  split; [apply generate_c_nodes_OK|].
  intros pre node post -> Hpre Hout. unfold generate_c_nodes.
  rewrite (map_result_first_raise _ pre post node AssertionError); [done| |].
  - eapply Forall_impl; [|exact Hpre].
    intros n Hn. by apply make_node_OK.
  - by apply make_node_out_of_bounds.
Qed.

(** X18. The decision nodes of the forest that the wrapper keeps pass the
    child assertions of [generate_c_nodes]: where the inner nodes of the
    source trees name both children by indices that are not negative, the
    forest has at most 2^15 leaves and [cgen.constant] returns for every
    threshold, the array text is returned. *)
Theorem Wrapper_forest_generates
    (regressor : bool) (trees : list Tree) (forest_ : Forest)
    (name dtype : string) :
  Wrapper_forest regressor trees = OK forest_ →
  Forall children_paired trees →
  len (leaves forest_) ≤ 2 ^ 15 →
  Forall (λ n, ∃ v, cgen_constant (node_th n) dtype = OK v) (nodes forest_) →
  ∃ code, generate_c_nodes cgen_constant (nodes forest_) name dtype = OK code.
Proof.
  intros H Hpaired Hleaves Hconst. apply generate_c_nodes_OK.
  pose proof (Wrapper_forest_scalar _ _ _ H) as Hscalar.
  apply Wrapper_forest_steps in H as (merged & Hmerge & Hdedup & Hmax).
  pose proof (remove_duplicate_leaves_valid _ _ Hdedup) as [Hvalid _].
  assert (refs_in_range forest_) as Hrefs.
  { apply refs_in_range_of; [done|].
    eapply remove_duplicate_leaves_leaf_refs; [exact Hdedup|].
    by eapply flatten_forest_leaf_refs. }
  unfold refs_in_range in Hrefs.
  apply Forall_forall. intros n Hn.
  pose proof (proj1 (Forall_forall _ _) Hrefs n Hn) as Hn'.
  pose proof (proj1 (Forall_forall _ _) Hconst n Hn) as Hv.
  cbv beta in Hn'. split; [|exact Hv]. unfold children_in_bounds. lia.
Qed.
End generate_c_nodes_facts.

Lemma Wrapper_forest_generates_witness :
  let forest_ := mkForest [node_A (-1) (-2); node_A (-1) (-2)] [0; 1]
                   [LClass 0; LClass 1] in
  let cgen_constant := λ (_ : float64) (_ : string), OK "0.5f" in
  Wrapper_forest false [tree_A; tree_A] = OK forest_ ∧
  ∃ code, generate_c_nodes cgen_constant (nodes forest_) "nodes" "float"
          = OK code.
Proof.
  intros forest_ cgen_constant.
  assert (H : Wrapper_forest false [tree_A; tree_A] = OK forest_)
    by (vm_compute; reflexivity).
  split; [exact H|].
  apply (Wrapper_forest_generates cgen_constant false [tree_A; tree_A]
           forest_ "nodes" "float" H).
  - repeat (apply Forall_cons; [apply children_paired_A|]). apply Forall_nil.
  - vm_compute. discriminate.
  - repeat (apply Forall_cons; [by eexists|]). apply Forall_nil.
Defined.

(** ** The tests of the decision nodes *)

Lemma for_each_appends {A S B} (proj : S → list B) (h : A → list B)
    (body : S → A → result S) (xs : list A) (acc acc' : S) :
  (∀ st x st', body st x = OK st' → proj st' = proj st ++ h x) →
  for_each body xs acc = OK acc' →
  proj acc' = proj acc ++ concat (h <$> xs).
Proof.
  intros Hbody. revert acc. induction xs as [|x xs IH]; intros acc H.
  - injection H as <-. by rewrite app_nil_r.
  - cbn [for_each] in H. apply bind_OK in H as (acc1 & Hx & H).
    rewrite (IH _ H), (Hbody _ _ _ Hx), fmap_cons. cbn [concat].
    by rewrite app_assoc.
Qed.

Lemma scan_node_tests (tree : Tree) (leaf : string) (leaf_bits : Z)
    (st st' : scan_state) (item : Z * (Z * Z * Z * float64)) :
  scan_node tree leaf leaf_bits st item = OK st' →
  node_test <$> st'.1.1 = (node_test <$> st.1.1) ++ tests_of_item item.2.
Proof.
  destruct st as [[dn ls] m], item as [node_no [[[c_left c_right] ft] th]].
  unfold scan_node, tests_of_item. cbn [fst snd].
  destruct ((c_left =? -1) && (c_right =? -1)).
  - intros [= <-]. by rewrite app_nil_r.
  - intros H. apply bind_OK in H as ([l ls1] & _ & H).
    apply bind_OK in H as ([r ls2] & _ & H). injection H as <-.
    cbn [fst snd]. by rewrite fmap_app.
Qed.

Lemma renumber_node_test (decision_node_mapping : gmap Z Z) (n n' : Node) :
  renumber_node decision_node_mapping n = OK n' → node_test n' = node_test n.
Proof.
  unfold renumber_node. intros H. apply bind_OK in H as (l & _ & H).
  apply bind_OK in H as (r & _ & H). by injection H as <-.
Qed.

Lemma flatten_tree_tests (tree : Tree) (leaf : string) (leaf_bits : Z)
    (decision_nodes : list Node) (leaf_nodes : list Leaf) :
  flatten_tree tree leaf leaf_bits = OK (decision_nodes, leaf_nodes) →
  node_test <$> decision_nodes = inner_tests tree.
Proof.
  intros H. unfold flatten_tree in H.
  apply bind_OK in H as (u1 & _ & H). apply bind_OK in H as (u2 & _ & H).
  apply bind_OK in H as ([[dn ls] mapping] & Hscan & H).
  apply bind_OK in H as (dn' & Hrenumber & H).
  apply bind_OK in H as (u3 & _ & H). apply bind_OK in H as (u4 & _ & H).
  injection H as <- <-.
  apply (for_each_appends (λ st : scan_state, node_test <$> st.1.1)
           (λ item, tests_of_item item.2)) in Hscan;
    [|intros st x st'; apply scan_node_tests].
  cbn [fst snd fmap list_fmap app] in Hscan.
  assert ((λ item : Z * (Z * Z * Z * float64), tests_of_item item.2)
            <$> enumerate (zipped tree)
          = tests_of_item <$> zipped tree) as Hitems.
  { rewrite <- (snd_enumerate (zipped tree)) at 2.
    by rewrite <- list_fmap_compose. }
  rewrite Hitems in Hscan. unfold inner_tests. rewrite <- Hscan.
  apply map_result_Forall2 in Hrenumber. clear Hscan Hitems.
  induction Hrenumber as [|n n' ns ns' Hn _ IH]; [done|].
  rewrite !fmap_cons, IH. f_equal. by eapply renumber_node_test.
Qed.

Lemma concat_offset_tests (flats : list FlatTree) (dno lno : Z) :
  node_test <$> concat_offset dno lno flats
    = concat ((λ flat : FlatTree, node_test <$> flat.1) <$> flats).
Proof.
  revert dno lno. induction flats as [|[d l] flats IH]; intros dno lno; [done|].
  cbn [concat_offset]. rewrite fmap_app, IH, fmap_cons. cbn [concat fst].
  f_equal. rewrite <- list_fmap_compose. by apply list_fmap_ext.
Qed.

(** X19. Flattening and merging keep the tests: the features and
    thresholds of the decision nodes of the merged forest are, in order,
    those of the inner nodes of the source trees, tree after tree in the
    order of the node ids; and [remove_duplicate_leaves] leaves them so. *)
Theorem flatten_forest_keeps_tests
    (trees : list Tree) (leaf : string) (forest : Forest) :
  flatten_forest trees leaf = OK forest →
  node_test <$> nodes forest = concat (inner_tests <$> trees) ∧
  ∀ forest', remove_duplicate_leaves forest = OK forest' →
             node_test <$> nodes forest' = concat (inner_tests <$> trees).
Proof.
  intros H.
  assert (node_test <$> nodes forest = concat (inner_tests <$> trees)) as Htests.
  { rewrite flatten_forest_flats in H.
    apply bind_OK in H as (flats & Hflats & H). injection H as <-.
    unfold concat_forest. cbn [nodes]. rewrite concat_offset_tests.
    apply map_result_Forall2 in Hflats. f_equal.
    induction Hflats as [|tree [d l] trees flats Hflat _ IH]; [done|].
    rewrite !fmap_cons, IH. f_equal. by eapply flatten_tree_tests. }
  split; [exact Htests|]. intros forest' Hdedup. rewrite <- Htests.
  apply remove_duplicate_leaves_result in Hdedup as (_ & _ & _ & Hnodes).
  clear H Htests. destruct forest as [ns rs ls], forest' as [ns' rs' ls'].
  cbn [nodes leaves] in *.
  induction Hnodes as [|n n' ns ns' (Hf & Hth & _) _ IH]; [done|].
  rewrite !fmap_cons, IH. f_equal. unfold node_test. by rewrite Hf, Hth.
Qed.

Lemma flatten_forest_keeps_tests_witness :
  flatten_forest [tree_A; tree_A] "argmax"
    = OK (mkForest [node_A (-1) (-2); node_A (-3) (-4)] [0; 1]
            [LClass 0; LClass 1; LClass 0; LClass 1]) ∧
  node_test <$> [node_A (-1) (-2); node_A (-3) (-4)]
    = concat (inner_tests <$> [tree_A; tree_A]).
Proof.
  assert (H : flatten_forest [tree_A; tree_A] "argmax"
              = OK (mkForest [node_A (-1) (-2); node_A (-3) (-4)] [0; 1]
                      [LClass 0; LClass 1; LClass 0; LClass 1]))
    by (vm_compute; reflexivity).
  split; [exact H|].
  exact (proj1 (flatten_forest_keeps_tests _ _ _ H)).
Defined.

(** ** remove_duplicate_leaves on array payloads *)

Lemma np_getitem_elem_of {A} (a : list A) (i : Z) (x : A) :
  np_getitem a i = OK x → x ∈ a.
Proof.
  unfold np_getitem. destruct ((i <? - len a) || (len a <=? i)); [done|].
  destruct (a !! Z.to_nat (if i <? 0 then i + len a else i)) eqn:Hx; [|done].
  intros [= <-]. by eapply list_elem_of_lookup_2.
Qed.

Lemma np_getitem_first {A} (a : list A) (x : A) :
  np_getitem a 0 = OK x → a !! 0%nat = Some x.
Proof.
  unfold np_getitem. destruct ((0 <? - len a) || (len a <=? 0)); [done|].
  change (Z.to_nat (if 0 <? 0 then 0 + len a else 0)) with 0%nat.
  destruct (a !! 0%nat); [by intros [= <-] | done].
Qed.

Lemma quantize_probabilities_length (p : list float64) (bits : Z)
    (codes : list Z) :
  quantize_probabilities p bits = OK codes → length codes = length p.
Proof.
  unfold quantize_probabilities. intros H. bind_inv H. bind_inv H.
  injection H as <-. unfold astype_uint8, numpy_digitize.
  by rewrite !length_map.
Qed.

Lemma leaf_data_probabilities_length (k : nat) (tree : Tree)
    (leaf_bits idx : Z) (l : Leaf) :
  class_count_is k tree →
  leaf_data tree "probabilities" leaf_bits idx = OK l →
  ∃ codes, l = LProba codes ∧ length codes = k.
Proof.
  intros Hk H. unfold leaf_data in H.
  apply bind_OK in H as (row & Hrow & H).
  cbn [String.eqb Ascii.eqb Bool.eqb] in H.
  apply bind_OK in H as (v & Hv & H). apply bind_OK in H as (q & Hq & H).
  injection H as <-. exists q. split; [done|].
  rewrite (quantize_probabilities_length _ _ _ Hq).
  apply np_getitem_elem_of, list_elem_of_In in Hrow.
  pose proof (proj1 (Forall_forall _ _) Hk row Hrow) as Hwidth.
  apply Hwidth. by apply np_getitem_first.
Qed.

Lemma flatten_forest_payloads_in (P : Leaf → Prop) (trees : list Tree)
    (leaf : string) (forest : Forest) :
  (∀ tree i l, tree ∈ trees → leaf_data tree leaf 8 i = OK l → P l) →
  flatten_forest trees leaf = OK forest → Forall P (leaves forest).
Proof.
  intros Hleaf H. unfold flatten_forest in H.
  apply bind_OK in H as (st & Hloop & H). apply bind_OK in H as (u & _ & H).
  injection H as <-. simpl.
  apply (for_each_invariant_in (λ st, Forall P (forest_leaves st))) in Hloop;
    [done | | constructor].
  intros st0 tree st' Hin Hmerge Hst. unfold merge_tree in Hmerge.
  apply bind_OK in Hmerge as ([dn ls] & Hflat & Hmerge).
  apply bind_OK in Hmerge as (u' & _ & Hmerge). injection Hmerge as <-. simpl.
  apply Forall_app. split; [done|]. eapply flatten_tree_payloads; [|done].
  intros i l. by apply Hleaf.
Qed.

(** X20. Array payloads cannot be de-duplicated: a forest merged in the
    mode ['probabilities'] from trees learned on two or more classes holds
    an array of that many codes in every leaf, and when it has two leaves
    or more the comparison of the second leaf with the first has no truth
    value, so [remove_duplicate_leaves] raises a [ValueError]. *)
Theorem remove_duplicate_leaves_of_arrays
    (k : nat) (trees : list Tree) (forest : Forest) :
  Forall (class_count_is k) trees → (2 ≤ k)%nat →
  flatten_forest trees "probabilities" = OK forest →
  2 ≤ len (leaves forest) →
  ∃ msg, remove_duplicate_leaves forest = Raise (ValueError msg).
Proof.
  intros Hclasses Hk Hmerge Hleaves.
  assert (Forall (λ l, ∃ codes, l = LProba codes ∧ length codes = k)
                 (leaves forest)) as Harrays.
  { eapply flatten_forest_payloads_in; [|exact Hmerge].
    intros tree i l Hin. apply leaf_data_probabilities_length.
    apply list_elem_of_In in Hin.
    by apply (proj1 (Forall_forall _ _) Hclasses). }
  destruct forest as [ns rs ls]. cbn [leaves] in *.
  destruct ls as [|l1 [|l2 rest]]; [unfold len in Hleaves; simpl in Hleaves; lia..|].
  apply Forall_cons_iff in Harrays as [(xs & -> & Hxs) Harrays].
  apply Forall_cons_iff in Harrays as [(ys & -> & Hys) _].
  destruct xs as [|x1 [|x2 xs]]; simpl in Hxs; try lia.
  destruct ys as [|y1 [|y2 ys]]; simpl in Hys; try lia.
  unfold remove_duplicate_leaves, enumerate.
  rewrite enumerate_from_cons, enumerate_from_cons.
  cbn [for_each dedup_leaf index_from mbind result_bind py_eq app].
  unfold array_eq.
  match goal with
  | |- context [(?a =? ?b)%nat] =>
      destruct (Nat.eqb_spec a b) as [_|Hne];
        [|exfalso; apply Hne; simpl; lia]
  end.
  cbn [zip_with mbind result_bind array_truth]. eauto.
Qed.

Lemma remove_duplicate_leaves_of_arrays_witness :
  let forest := mkForest [node_A (-1) (-2)] [0]
                  [LProba [4; 1]; LProba [1; 3]] in
  Forall (class_count_is 2) [tree_A] ∧
  flatten_forest [tree_A] "probabilities" = OK forest ∧
  ∃ msg, remove_duplicate_leaves forest = Raise (ValueError msg).
Proof.
  intros forest.
  assert (Hclasses : Forall (class_count_is 2) [tree_A]).
  { apply Forall_cons; [|apply Forall_nil].
    repeat (apply Forall_cons; [by intros v [= <-]|]). apply Forall_nil. }
  assert (H : flatten_forest [tree_A] "probabilities" = OK forest)
    by (vm_compute; reflexivity).
  split; [exact Hclasses|]. split; [exact H|].
  apply (remove_duplicate_leaves_of_arrays 2 [tree_A] forest Hclasses);
    [lia | exact H | vm_compute; discriminate].
Defined.

(** ** The shape of a flattened tree *)

Lemma for_each_prefix {A S} (P : list A → S → Prop) (body : S → A → result S)
    (xs : list A) (acc acc' : S) :
  (∀ done x st st', x ∈ xs → body st x = OK st' → P done st →
                    P (done ++ [x]) st') →
  P [] acc → for_each body xs acc = OK acc' → P xs acc'.
Proof.
  intros Hbody Hacc H.
  enough (∀ ys done acc,
            (∀ y, y ∈ ys → y ∈ xs) → P done acc →
            for_each body ys acc = OK acc' → P (done ++ ys) acc')
    as Hgen by (apply (Hgen xs [] acc); auto).
  clear acc Hacc H. induction ys as [|y ys IH]; intros done acc Hin Hacc H.
  - injection H as <-. by rewrite app_nil_r.
  - cbn [for_each] in H. apply bind_OK in H as (acc1 & Hy & H).
    rewrite cons_middle, app_assoc. apply (IH _ acc1); [|apply (Hbody _ _ acc)|];
      [intros z Hz; apply Hin; by right | apply Hin; by left | done.. ].
Qed.

Lemma inner_of_snoc (done : list (Z * (Z * Z * Z * float64)))
    (x : Z * (Z * Z * Z * float64)) :
  inner_of (done ++ [x]) = inner_of done ++ keep_inner x.
Proof.
  unfold inner_of. rewrite fmap_app, concat_app. simpl. by rewrite app_nil_r.
Qed.

Lemma scanned_child_mono (tree : Tree) (leaf : string) (leaf_bits : Z)
    (ls more : list Leaf) (c ref : Z) :
  scanned_child tree leaf leaf_bits ls c ref →
  scanned_child tree leaf leaf_bits (ls ++ more) c ref.
Proof.
  intros [(Hneg & val & Hval & Hlookup)|H]; [left|by right].
  split; [done|]. exists val. split; [done|]. by apply lookup_app_l_Some.
Qed.

Lemma scanned_mono (tree : Tree) (leaf : string) (leaf_bits : Z)
    (ls more : list Leaf) (x : Z * (Z * Z * Z * float64)) (n : Node) :
  scanned tree leaf leaf_bits ls x n →
  scanned tree leaf leaf_bits (ls ++ more) x n.
Proof.
  destruct x as [node_no [[[c_left c_right] ft] th]]. unfold scanned.
  intros (Hf & Hth & Hl & Hr). split_and!; [done..| |];
    by apply scanned_child_mono.
Qed.

(** A child is turned into a reference that stands for it, and the leaves
    are only added to. *)
Lemma process_child_scanned (tree : Tree) (leaf : string) (leaf_bits idx : Z)
    (ls ls' : list Leaf) (ref : Z) :
  process_child tree leaf leaf_bits idx ls = OK (ref, ls') →
  ∃ more, ls' = ls ++ more ∧
          (0 ≤ idx → scanned_child tree leaf leaf_bits ls' idx ref).
Proof.
  intros H. unfold process_child in H.
  apply bind_OK in H as (l & _ & H). apply bind_OK in H as (is_leaf & _ & H).
  destruct is_leaf.
  - unfold add_leaf in H. apply bind_OK in H as (val & Hval & H).
    apply bind_OK in H as (u & _ & H). injection H as <- <-.
    exists [val]. split; [done|]. intros _. left. split; [unfold len; lia|].
    exists val. split; [done|].
    replace (Z.to_nat (- (- len ls - 1) - 1)) with (length ls)
      by (unfold len; lia).
    by apply list_lookup_middle.
  - injection H as <- <-. exists []. split; [by rewrite app_nil_r|].
    intros Hidx. by right.
Qed.

Lemma scan_node_invariant (tree : Tree) (leaf : string) (leaf_bits : Z)
    (done : list (Z * (Z * Z * Z * float64))) (x : Z * (Z * Z * Z * float64))
    (st st' : scan_state) :
  (let '(_, (c_left, c_right, _, _)) := x in
   (c_left = -1 ∧ c_right = -1) ∨ (0 ≤ c_left ∧ 0 ≤ c_right)) →
  scan_node tree leaf leaf_bits st x = OK st' →
  scan_invariant tree leaf leaf_bits done st →
  scan_invariant tree leaf leaf_bits (done ++ [x]) st'.
Proof.
  destruct st as [[dn ls] m], x as [node_no [[[c_left c_right] ft] th]].
  intros Hpaired H [Hnodes Hmap]. cbn [fst snd] in Hnodes, Hmap.
  unfold scan_invariant. rewrite inner_of_snoc. unfold scan_node in H.
  unfold keep_inner.
  destruct ((c_left =? -1) && (c_right =? -1)) eqn:Hleaf.
  { injection H as <-. cbn [fst snd]. by rewrite app_nil_r. }
  assert (0 ≤ c_left ∧ 0 ≤ c_right) as [Hcl Hcr].
  { destruct Hpaired as [[-> ->]|]; [discriminate Hleaf | done]. }
  apply bind_OK in H as ([l ls1] & Hp1 & H).
  apply bind_OK in H as ([r ls2] & Hp2 & H). injection H as <-.
  cbn [fst snd].
  apply process_child_scanned in Hp1 as (more1 & -> & Hl).
  apply process_child_scanned in Hp2 as (more2 & -> & Hr).
  pose proof (Forall2_length Hnodes) as Hlen.
  split.
  - apply Forall2_app.
    + eapply list.Forall2_impl; [exact Hnodes|].
      intros y n Hy. rewrite <- app_assoc. by apply scanned_mono.
    + constructor; [|constructor]. unfold scanned. cbn.
      split_and!; [done..| |by apply Hr].
      by apply scanned_child_mono, Hl.
  - intros c k Hk. destruct (decide (c = node_no)) as [->|Hne].
    + rewrite lookup_insert_eq in Hk. injection Hk as <-.
      split; [unfold len; lia|]. exists (c_left, c_right, ft, th).
      replace (Z.to_nat (len dn)) with (length (inner_of done))
        by (unfold len; lia).
      by apply list_lookup_middle.
    + rewrite lookup_insert_ne in Hk by done.
      destruct (Hmap c k Hk) as (Hk0 & item & Hitem).
      split; [done|]. exists item. by apply lookup_app_l_Some.
Qed.

(** X21. A flattened tree has the shape of its source tree: where the inner
    nodes of the source tree name both children by indices that are not
    negative, the decision nodes are the inner nodes of the source tree in
    the order of the node ids, each with its feature and threshold; a
    negative child reference leads to the leaf that holds the payload of
    that source child, and any other child reference is the position of
    that source child among the inner nodes. *)
Theorem flatten_tree_keeps_shape
    (tree : Tree) (leaf : string) (leaf_bits : Z)
    (decision_nodes : list Node) (leaf_nodes : list Leaf) :
  children_paired tree →
  flatten_tree tree leaf leaf_bits = OK (decision_nodes, leaf_nodes) →
  Forall2 (flattened_from tree leaf leaf_bits leaf_nodes)
          (inner_items tree) decision_nodes.
Proof.
  intros Hpaired H. unfold flatten_tree in H.
  apply bind_OK in H as (u1 & _ & H). apply bind_OK in H as (u2 & _ & H).
  apply bind_OK in H as ([[dn ls] mapping] & Hscan & H).
  apply bind_OK in H as (dn' & Hrenumber & H).
  apply bind_OK in H as (u3 & _ & H). apply bind_OK in H as (u4 & _ & H).
  injection H as <- <-.
  apply (for_each_prefix (scan_invariant tree leaf leaf_bits)) in Hscan.
  - destruct Hscan as [Hnodes Hmap]. cbn [fst snd] in Hnodes, Hmap.
    apply map_result_Forall2 in Hrenumber.
    fold (inner_items tree) in Hnodes, Hmap.
    assert (Hchild : ∀ c ref ref',
              scanned_child tree leaf leaf_bits ls c ref →
              renumber mapping ref = OK ref' →
              child_of tree leaf leaf_bits ls c ref').
    { intros c ref ref' Hc Href. unfold renumber in Href.
      destruct Hc as [(Hneg & Hval)|[-> Hc]].
      - destruct (Z.leb_spec 0 ref); [lia|]. injection Href as <-. by left.
      - destruct (Z.leb_spec 0 c); [|lia].
        destruct (mapping !! c) as [k|] eqn:Hk; [|discriminate].
        injection Href as <-. right. by apply Hmap. }
    revert Hnodes. generalize (inner_items tree) at 1 2.
    induction Hrenumber as [|n n' ns ns' Hn _ IH]; intros items Hnodes.
    + apply Forall2_nil_inv_r in Hnodes as ->. constructor.
    + apply Forall2_cons_inv_r in Hnodes as (x & items' & Hx & Hrest & ->).
      constructor; [|by apply IH].
      destruct x as [node_no [[[c_left c_right] ft] th]].
      destruct Hx as (Hf & Hth & Hl & Hr). unfold renumber_node in Hn.
      apply bind_OK in Hn as (l & Hleft & Hn).
      apply bind_OK in Hn as (r & Hright & Hn). injection Hn as <-.
      unfold flattened_from. cbn. split_and!; [done..| |]; by eapply Hchild.
  - intros done x st st' Hin. apply scan_node_invariant.
    destruct x as [node_no item]. unfold enumerate in Hin.
    apply elem_of_zip_r, list_elem_of_In in Hin.
    apply (proj1 (Forall_forall _ _) Hpaired) in Hin.
    by destruct item as [[[c_left c_right] ft] th].
  - split; [constructor|]. intros c k Hk. cbn [fst snd] in Hk.
    by rewrite lookup_empty in Hk.
Qed.

Lemma flatten_tree_keeps_shape_witness :
  children_paired tree_A ∧
  flatten_tree tree_A "argmax" 8
    = OK ([node_A (-1) (-2)], [LClass 0; LClass 1]) ∧
  Forall2 (flattened_from tree_A "argmax" 8 [LClass 0; LClass 1])
          (inner_items tree_A) [node_A (-1) (-2)].
Proof.
  assert (Hpaired : children_paired tree_A) by apply children_paired_A.
  assert (H : flatten_tree tree_A "argmax" 8
              = OK ([node_A (-1) (-2)], [LClass 0; LClass 1]))
    by (vm_compute; reflexivity).
  split; [exact Hpaired|]. split; [exact H|].
  exact (flatten_tree_keeps_shape _ _ _ _ _ Hpaired H).
Defined.

(** ** flatten_tree returns on a well-formed tree *)

Lemma for_each_total {A S} (P : list A → S → Prop) (body : S → A → result S)
    (xs : list A) (acc : S) :
  (∀ done x rest st, xs = done ++ x :: rest → P done st →
                     ∃ st', body st x = OK st' ∧ P (done ++ [x]) st') →
  P [] acc → ∃ acc', for_each body xs acc = OK acc' ∧ P xs acc'.
Proof.
  intros Hbody Hacc.
  enough (∀ ys done acc,
            xs = done ++ ys → P done acc →
            ∃ acc', for_each body ys acc = OK acc' ∧ P xs acc')
    as Hgen by (by apply (Hgen xs [] acc)).
  clear acc Hacc. induction ys as [|y ys IH]; intros done acc Hxs Hacc.
  - rewrite app_nil_r in Hxs. subst done. by exists acc.
  - destruct (Hbody done y ys acc Hxs Hacc) as (acc1 & Hy & Hacc1).
    destruct (IH (done ++ [y]) acc1) as (acc' & Hloop & Hacc');
      [by rewrite <- app_assoc | done |].
    exists acc'. split; [|done]. cbn [for_each]. rewrite Hy. exact Hloop.
Qed.

Lemma enumerate_lookup {A} (zs : list A) (k : nat) (i : Z) (z : A) :
  enumerate zs !! k = Some (i, z) ↔ i = Z.of_nat k ∧ zs !! k = Some z.
Proof.
  unfold enumerate. rewrite lookup_zip_with_Some. split.
  - intros (i' & z' & [= <- <-] & Hi & Hz). split; [|done].
    apply lookup_seqZ in Hi. lia.
  - intros [-> Hz]. exists (Z.of_nat k), z. split_and!; [done| |done].
    apply lookup_seqZ. split; [lia|]. apply lookup_lt_Some in Hz.
    unfold len. lia.
Qed.

Lemma enumerate_split {A} (zs : list A) (done rest : list (Z * A)) (i : Z)
    (z : A) :
  enumerate zs = done ++ (i, z) :: rest →
  i = len done ∧ zs !! length done = Some z ∧
  Forall (λ y, 0 ≤ y.1 < len done) done.
Proof.
  intros Hsplit.
  assert (enumerate zs !! length done = Some (i, z)) as Hx
    by (rewrite Hsplit; apply list_lookup_middle; done).
  apply enumerate_lookup in Hx as [-> Hz]. split_and!; [done..|].
  apply Forall_forall. intros [j y] Hy. apply list_elem_of_In in Hy.
  apply list_elem_of_lookup in Hy as [k Hk].
  assert (enumerate zs !! k = Some (j, y)) as Hk'
    by (rewrite Hsplit; by apply lookup_app_l_Some).
  apply enumerate_lookup in Hk' as [-> _]. apply lookup_lt_Some in Hk.
  unfold len. simpl. lia.
Qed.

Lemma zipped_lookup (tree : Tree) (i : nat) (c_left c_right ft : Z)
    (th : float64) :
  zipped tree !! i = Some (c_left, c_right, ft, th) →
  children_left tree !! i = Some c_left ∧
  children_right tree !! i = Some c_right.
Proof.
  unfold zipped. intros H.
  apply lookup_zip_with_Some in H
    as ([[[l1 r1] f1] t1] & v & [= -> -> -> ->] & H & _).
  apply lookup_zip_with_Some in H
    as ([[l2 r2] f2] & t2 & [= -> -> -> ->] & H & _).
  apply lookup_zip_with_Some in H as ([l3 r3] & f3 & [= -> -> ->] & H & _).
  apply lookup_zip_with_Some in H as (l4 & r4 & [= -> ->] & Hl & Hr).
  done.
Qed.

Lemma zipped_length (tree : Tree) :
  well_formed tree → length (zipped tree) = Z.to_nat (node_count tree).
Proof.
  intros (Hv & _ & Hl & Hr & Hf & Ht & _). unfold zipped, len in *.
  rewrite !length_zip_with. lia.
Qed.

Lemma np_getitem_lookup {A} (a : list A) (c : Z) (x : A) :
  0 ≤ c → a !! Z.to_nat c = Some x → np_getitem a c = OK x.
Proof.
  intros Hc Hx. unfold np_getitem.
  pose proof (lookup_lt_Some _ _ _ Hx) as Hlt.
  destruct (Z.ltb_spec c (- len a)); [unfold len in *; lia|].
  destruct (Z.leb_spec (len a) c); [unfold len in *; lia|].
  cbn [orb]. destruct (Z.ltb_spec c 0); [lia|]. by rewrite Hx.
Qed.

Lemma process_child_in_range (tree : Tree) (leaf : string) (leaf_bits c : Z)
    (ls : list Leaf) :
  well_formed tree → 0 ≤ c < node_count tree →
  process_child tree leaf leaf_bits c ls
    = if is_leaf_at tree c then add_leaf tree leaf leaf_bits c ls
      else OK (c, ls).
Proof.
  intros Hwf Hc. pose proof (zipped_length tree Hwf) as Hlen.
  destruct (lookup_lt_is_Some_2 (zipped tree) (Z.to_nat c))
    as [[[[l r] f] t] Hitem]; [lia|].
  unfold process_child, is_leaf_at. rewrite Hitem.
  apply zipped_lookup in Hitem as [Hl Hr].
  rewrite (np_getitem_lookup _ _ _ (proj1 Hc) Hl). cbn [mbind result_bind].
  destruct (l =? -1); cbn [andb mbind result_bind]; [|done].
  rewrite (np_getitem_lookup _ _ _ (proj1 Hc) Hr). cbn [mbind result_bind].
  by destruct (r =? -1).
Qed.

Lemma process_child_total (tree : Tree) (leaf : string) (leaf_bits c : Z)
    (ls : list Leaf) :
  well_formed tree → payloads_available tree leaf leaf_bits →
  0 ≤ c < node_count tree →
  ∃ ref ls',
    process_child tree leaf leaf_bits c ls = OK (ref, ls') ∧
    ((is_leaf_at tree c = true ∧ ref = - len ls - 1 ∧
      ∃ val, ls' = ls ++ [val]) ∨
     (is_leaf_at tree c = false ∧ ref = c ∧ ls' = ls)).
Proof.
  intros Hwf Hpay Hc. rewrite process_child_in_range by done.
  destruct (is_leaf_at tree c) eqn:Hleaf.
  - destruct (Hpay c Hc Hleaf) as [val Hval]. unfold add_leaf. rewrite Hval.
    cbn [mbind result_bind].
    destruct (Z.leb_spec (- len ls - 1) (-1)); [|unfold len in *; lia].
    cbn [py_assert mbind result_bind]. do 2 eexists. split; [done|].
    left. eauto.
  - do 2 eexists. split; [done|]. by right.
Qed.

(** *** The inner nodes and their children *)

Lemma inner_of_app (xs ys : list (Z * (Z * Z * Z * float64))) :
  inner_of (xs ++ ys) = inner_of xs ++ inner_of ys.
Proof. unfold inner_of. by rewrite fmap_app, concat_app. Qed.

Lemma slots_of_app (xs ys : list (Z * (Z * Z * Z * float64))) :
  slots_of (xs ++ ys) = slots_of xs ++ slots_of ys.
Proof. unfold slots_of. by rewrite fmap_app, concat_app. Qed.

Lemma elem_of_concat {A} (x : A) (ls : list (list A)) :
  x ∈ concat ls ↔ ∃ l, x ∈ l ∧ l ∈ ls.
Proof.
  rewrite list_elem_of_In, in_concat. split.
  - intros (l & Hl & Hx). exists l. by rewrite !list_elem_of_In.
  - intros (l & Hx & Hl). exists l. by rewrite <- !list_elem_of_In.
Qed.

Lemma elem_of_inner_of (items : list (Z * (Z * Z * Z * float64)))
    (x : Z * (Z * Z * Z * float64)) :
  x ∈ inner_of items ↔ x ∈ items ∧ keep_inner x = [x].
Proof.
  unfold inner_of. rewrite elem_of_concat. split.
  - intros (l & Hx & Hl). apply list_elem_of_fmap in Hl as (y & -> & Hy).
    destruct y as [no [[[cl cr] f] t]]. unfold keep_inner in *.
    destruct ((cl =? -1) && (cr =? -1)) eqn:Hleaf.
    + by apply elem_of_nil in Hx.
    + apply list_elem_of_singleton in Hx as ->. by rewrite Hleaf.
  - intros [Hx Hkeep]. exists [x]. split; [by apply list_elem_of_singleton|].
    rewrite <- Hkeep. by apply list_elem_of_fmap_2.
Qed.

Lemma inner_of_sublist (items : list (Z * (Z * Z * Z * float64))) :
  inner_of items `sublist_of` items.
Proof.
  induction items as [|[no [[[cl cr] f] t]] items IH]; [done|].
  unfold inner_of. rewrite fmap_cons. cbn [concat keep_inner].
  destruct ((cl =? -1) && (cr =? -1)); cbn [app].
  - by apply sublist_cons.
  - by apply sublist_skip.
Qed.

Lemma keep_inner_item (tree : Tree) (c : Z)
    (item : Z * Z * Z * float64) :
  0 ≤ c → zipped tree !! Z.to_nat c = Some item →
  keep_inner (c, item) = if is_leaf_at tree c then [] else [(c, item)].
Proof.
  intros Hc Hitem. unfold is_leaf_at. rewrite Hitem.
  by destruct item as [[[cl cr] f] t].
Qed.

(** The inner items are the items of the nodes that are not leaves. *)
Lemma elem_of_inner_items (tree : Tree) (c : Z) (item : Z * Z * Z * float64) :
  (c, item) ∈ inner_items tree ↔
  0 ≤ c ∧ zipped tree !! Z.to_nat c = Some item ∧ is_leaf_at tree c = false.
Proof.
  unfold inner_items. rewrite elem_of_inner_of. split.
  - intros [Hin Hkeep]. apply list_elem_of_lookup in Hin as [k Hk].
    apply enumerate_lookup in Hk as [-> Hk].
    rewrite <- (Nat2Z.id k) in Hk.
    rewrite (keep_inner_item tree (Z.of_nat k) _ ltac:(lia) Hk) in Hkeep.
    split_and!; [lia | done |]. by destruct (is_leaf_at tree (Z.of_nat k)).
  - intros (Hc & Hitem & Hleaf). split.
    + apply list_elem_of_lookup. exists (Z.to_nat c).
      apply enumerate_lookup. split; [lia | done].
    + by rewrite (keep_inner_item tree _ _ Hc Hitem), Hleaf.
Qed.

Lemma inner_ids_NoDup (tree : Tree) : NoDup (fst <$> inner_items tree).
Proof.
  eapply sublist_NoDup; [|apply fmap_sublist, inner_of_sublist].
  unfold enumerate. rewrite fst_zip.
  - apply NoDup_seqZ.
  - rewrite length_seqZ. unfold len. lia.
Qed.

Lemma inner_items_lookup_inj (tree : Tree) (k k' : nat) (c : Z)
    (item item' : Z * Z * Z * float64) :
  inner_items tree !! k = Some (c, item) →
  inner_items tree !! k' = Some (c, item') → k = k'.
Proof.
  intros Hk Hk'. eapply NoDup_lookup; [apply (inner_ids_NoDup tree)| |].
  - rewrite list_lookup_fmap, Hk. done.
  - rewrite list_lookup_fmap, Hk'. done.
Qed.

Lemma elem_of_slots_of (items : list (Z * (Z * Z * Z * float64))) (c : Z) :
  c ∈ slots_of items ↔
  ∃ no cl cr f t, (no, (cl, cr, f, t)) ∈ items ∧ (c = cl ∨ c = cr).
Proof.
  unfold slots_of. rewrite elem_of_concat. split.
  - intros (l & Hc & Hl). apply list_elem_of_fmap in Hl as (y & -> & Hy).
    destruct y as [no [[[cl cr] f] t]]. exists no, cl, cr, f, t.
    split; [done|]. apply elem_of_cons in Hc as [->|Hc]; [by left|].
    apply list_elem_of_singleton in Hc as ->. by right.
  - intros (no & cl & cr & f & t & Hin & Hc). exists [cl; cr].
    split; [rewrite elem_of_cons, list_elem_of_singleton; tauto|].
    apply (list_elem_of_fmap_2
             (λ x : Z * (Z * Z * Z * float64),
                let '(_, (c_left, c_right, _, _)) := x in [c_left; c_right])
             _ _ Hin).
Qed.

(** In a well-formed tree the children of an inner node are nodes of the
    tree other than node 0. *)
Lemma child_range (tree : Tree) (no cl cr f : Z) (t : float64) :
  well_formed tree → (no, (cl, cr, f, t)) ∈ inner_items tree →
  (1 ≤ cl < node_count tree) ∧ (1 ≤ cr < node_count tree).
Proof.
  intros (_ & _ & _ & _ & _ & _ & _ & Hperm) Hin.
  assert (∀ c, c = cl ∨ c = cr → 1 ≤ c < node_count tree) as Hc.
  { intros c Hc.
    assert (c ∈ child_slots tree) as Hslot
      by (apply elem_of_slots_of; by exists no, cl, cr, f, t).
    rewrite Hperm in Hslot. apply elem_of_seqZ in Hslot. lia. }
  split; apply Hc; auto.
Qed.

(** *** One turn of the scan *)

Lemma placed_child_mono (tree : Tree) (ls ls' : list Leaf) (c ref : Z) :
  len ls ≤ len ls' → placed_child tree ls c ref → placed_child tree ls' c ref.
Proof.
  intros Hlen [(Hleaf & Hneg & Hin)|H]; [left|by right].
  split_and!; [done..|lia].
Qed.

Lemma leaf_slots_pair (tree : Tree) (cl cr : Z) :
  len (filter (λ c, is_leaf_at tree c = true) [cl; cr])
    = (if is_leaf_at tree cl then 1 else 0)
      + (if is_leaf_at tree cr then 1 else 0).
Proof.
  rewrite !filter_cons, filter_nil.
  destruct (decide (is_leaf_at tree cl = true)) as [->|Hl],
           (decide (is_leaf_at tree cr = true)) as [->|Hr];
    try apply not_true_is_false in Hl as ->;
    try apply not_true_is_false in Hr as ->; reflexivity.
Qed.

Lemma scan_node_progress (tree : Tree) (leaf : string) (leaf_bits : Z)
    (done rest : list (Z * (Z * Z * Z * float64)))
    (x : Z * (Z * Z * Z * float64)) (st : scan_state) :
  well_formed tree → payloads_available tree leaf leaf_bits →
  enumerate (zipped tree) = done ++ x :: rest →
  scan_progress tree done st →
  ∃ st', scan_node tree leaf leaf_bits st x = OK st' ∧
         scan_progress tree (done ++ [x]) st'.
Proof.
  intros Hwf Hpay Hsplit (Hnodes & Hmap & Hcount & Hused).
  destruct st as [[dn ls] m], x as [no [[[cl cr] f] t]].
  cbn [fst snd] in Hnodes, Hmap, Hcount, Hused.
  pose proof (enumerate_split _ _ _ _ _ Hsplit) as (Hno & Hitem & Hids).
  unfold scan_progress. rewrite inner_of_app.
  assert (inner_of [(no, (cl, cr, f, t))] = keep_inner (no, (cl, cr, f, t)))
    as -> by (unfold inner_of; simpl; by rewrite app_nil_r).
  unfold scan_node. cbn [keep_inner].
  destruct ((cl =? -1) && (cr =? -1)) eqn:Hleaf.
  { exists (dn, ls, m). rewrite app_nil_r. by split_and!. }
  assert ((no, (cl, cr, f, t)) ∈ inner_items tree) as Hinner.
  { apply elem_of_inner_of. split.
    - rewrite Hsplit. apply elem_of_app. right. by left.
    - cbn [keep_inner]. by rewrite Hleaf. }
  destruct (child_range _ _ _ _ _ _ Hwf Hinner) as [Hcl Hcr].
  destruct (process_child_total tree leaf leaf_bits cl ls Hwf Hpay)
    as (rl & ls1 & -> & Hleft); [lia|].
  destruct (process_child_total tree leaf leaf_bits cr ls1 Hwf Hpay)
    as (rr & ls2 & Hp2 & Hright); [lia|].
  cbn [mbind result_bind]. rewrite Hp2. cbn [mbind result_bind].
  eexists. split; [reflexivity|]. cbn [fst snd].
  pose proof (Forall2_length Hnodes) as Hlen.
  assert (len ls1 = len ls + (if is_leaf_at tree cl then 1 else 0) ∧
          placed_child tree ls1 cl rl ∧
          (is_leaf_at tree cl = true → rl = - len ls - 1)) as (Hlen1 & Hpl & Hrl).
  { destruct Hleft as [(Hlc & -> & val & ->)|(Hlc & -> & ->)]; rewrite Hlc.
    - rewrite len_snoc. split_and!; [done| |done].
      left. rewrite len_snoc. split_and!; [done|unfold len; lia|lia].
    - split_and!; [lia| by right |done]. }
  assert (len ls2 = len ls1 + (if is_leaf_at tree cr then 1 else 0) ∧
          placed_child tree ls2 cr rr ∧
          (is_leaf_at tree cr = true → rr = - len ls1 - 1)) as (Hlen2 & Hpr & Hrr).
  { destruct Hright as [(Hrc & -> & val & ->)|(Hrc & -> & ->)]; rewrite Hrc.
    - rewrite len_snoc. split_and!; [done| |done].
      left. rewrite len_snoc. split_and!; [done|unfold len; lia|lia].
    - split_and!; [lia| by right |done]. }
  assert (len ls ≤ len ls1 ∧ len ls1 ≤ len ls2) as [Hle1 Hle2].
  { destruct (is_leaf_at tree cl), (is_leaf_at tree cr); lia. }
  split_and!.
  - apply Forall2_app.
    + eapply list.Forall2_impl; [exact Hnodes|].
      intros [no' [[[cl' cr'] f'] t']] n [Hl Hr].
      split; apply (placed_child_mono tree ls); (lia || done).
    + constructor; [|constructor]. split; [|done].
      by apply (placed_child_mono tree ls1).
  - intros c k. split.
    + intros Hk. destruct (decide (c = no)) as [->|Hne].
      * rewrite lookup_insert_eq in Hk. injection Hk as <-.
        split; [unfold len; lia|]. exists (cl, cr, f, t).
        replace (Z.to_nat (len dn)) with (length (inner_of done))
          by (unfold len; lia).
        by apply list_lookup_middle.
      * rewrite lookup_insert_ne in Hk by done.
        apply Hmap in Hk as (Hk0 & item & Hk). split; [done|].
        exists item. by apply lookup_app_l_Some.
    + intros (Hk0 & item & Hk). apply lookup_app_Some in Hk as [Hk|[Hge Hk]].
      * assert (c ≠ no) as Hne.
        { apply list_elem_of_lookup_2 in Hk.
          apply elem_of_inner_of in Hk as [Hk _]. apply list_elem_of_In in Hk.
          apply (proj1 (Forall_forall _ _) Hids) in Hk. simpl in Hk. lia. }
        rewrite lookup_insert_ne by done. apply Hmap. eauto.
      * destruct (Z.to_nat k - length (inner_of done))%nat eqn:Hpos;
          [|by destruct n].
        injection Hk as <- <-. rewrite lookup_insert_eq. f_equal.
        unfold len. lia.
  - rewrite slots_of_app, list.filter_app.
    assert (slots_of [(no, (cl, cr, f, t))] = [cl; cr]) as -> by done.
    unfold len in Hcount |- *. rewrite length_app.
    pose proof (leaf_slots_pair tree cl cr) as Hpair. unfold len in *. lia.
  - intros j Hj. destruct (decide (j < len ls)) as [Hold|Hnew].
    + destruct (Hused j ltac:(lia)) as (n & Hn & Href).
      exists n. split; [|done]. apply elem_of_app. by left.
    + eexists. split; [apply elem_of_app; right; by left|]. cbn.
      destruct (is_leaf_at tree cl) eqn:Hlc, (is_leaf_at tree cr) eqn:Hrc;
        try specialize (Hrl eq_refl); try specialize (Hrr eq_refl); lia.
Qed.

(** *** The whole scan, the renumbering and the validation *)

Lemma scan_total (tree : Tree) (leaf : string) (leaf_bits : Z) :
  well_formed tree → payloads_available tree leaf leaf_bits →
  ∃ st, for_each (scan_node tree leaf leaf_bits) (enumerate (zipped tree))
                 ([], [], ∅) = OK st ∧
        scan_progress tree (enumerate (zipped tree)) st.
Proof.
  intros Hwf Hpay. apply for_each_total.
  - intros done x rest st Hsplit. by apply scan_node_progress with rest.
  - split_and!; cbn [fst snd].
    + constructor.
    + intros c k. rewrite lookup_empty. split; [done|].
      intros (_ & item & Hk). unfold inner_of in Hk. simpl in Hk.
      by rewrite lookup_nil in Hk.
    + done.
    + intros j Hj. unfold len in Hj. simpl in Hj. lia.
Qed.

Lemma inner_items_first (tree : Tree) (k : nat) (item : Z * Z * Z * float64) :
  inner_items tree !! k = Some (0, item) → k = 0%nat.
Proof.
  intros Hk. pose proof (list_elem_of_lookup_2 _ _ _ Hk) as Hin.
  apply elem_of_inner_items in Hin as (_ & Hitem & Hleaf).
  assert (inner_items tree !! 0%nat = Some (0, item)) as H0.
  { unfold inner_items, enumerate. change (Z.to_nat 0) with 0%nat in Hitem.
    destruct (zipped tree) as [|z zs] eqn:Hz; [done|].
    injection Hitem as ->. rewrite enumerate_from_cons.
    unfold inner_of. rewrite fmap_cons. cbn [concat].
    rewrite (keep_inner_item tree 0 item); [|lia|by rewrite Hz].
    by rewrite Hleaf. }
  by eapply inner_items_lookup_inj.
Qed.

Lemma inner_count (tree : Tree) :
  well_formed tree →
  len (inner_items tree)
  + len (filter (λ c, is_leaf_at tree c = true) (seqZ 1 (node_count tree - 1)))
    = node_count tree.
Proof.
  intros Hwf. pose proof (zipped_length tree Hwf) as Hlen.
  pose proof Hwf as (Hv & _ & _ & _ & _ & _ & Hroot & _).
  assert (0 ≤ node_count tree) as Hn by (rewrite Hv; unfold len; lia).
  assert (fst <$> inner_items tree
          ≡ₚ filter (λ c, ¬ is_leaf_at tree c = true)
                    (seqZ 0 (node_count tree))) as Hinner.
  { apply NoDup_Permutation.
    - apply inner_ids_NoDup.
    - apply list.NoDup_filter, NoDup_seqZ.
    - intros c. rewrite list_elem_of_filter, elem_of_seqZ, list_elem_of_fmap.
      split.
      + intros ([c' item] & -> & Hin). cbn [fst].
        apply elem_of_inner_items in Hin as (Hc & Hitem & Hleaf).
        apply lookup_lt_Some in Hitem. rewrite Hleaf. split; [done | lia].
      + intros [Hleaf Hc].
        destruct (lookup_lt_is_Some_2 (zipped tree) (Z.to_nat c))
          as [item Hitem]; [lia|].
        exists (c, item). split; [done|]. apply elem_of_inner_items.
        split_and!; [lia | done |]. by destruct (is_leaf_at tree c). }
  pose proof (filter_app_complement (λ c, is_leaf_at tree c = true)
                (seqZ 0 (node_count tree))) as Hsplit.
  apply Permutation_length in Hsplit, Hinner.
  rewrite length_app, length_seqZ in Hsplit. rewrite length_fmap in Hinner.
  assert (length (filter (λ c, is_leaf_at tree c = true)
                         (seqZ 0 (node_count tree)))
          = length (filter (λ c, is_leaf_at tree c = true)
                           (seqZ 1 (node_count tree - 1)))) as Hleaves.
  { destruct (decide (node_count tree = 0)) as [->|Hpos]; [done|].
    replace (node_count tree) with (1 + (node_count tree - 1)) at 1 by lia.
    rewrite seqZ_app by lia. rewrite list.filter_app.
    change (seqZ 0 1) with [0]. rewrite filter_cons, filter_nil.
    rewrite decide_False by (by rewrite Hroot). done. }
  unfold len. lia.
Qed.

(** A reference that stands for a child is renumbered to a reference in
    range. *)
Lemma renumber_placed (tree : Tree) (ls : list Leaf) (m : gmap Z Z)
    (c ref : Z) :
  well_formed tree →
  (∀ c k, m !! c = Some k ↔
          0 ≤ k ∧ ∃ item, inner_items tree !! Z.to_nat k = Some (c, item)) →
  1 ≤ c < node_count tree → placed_child tree ls c ref →
  ∃ ref', renumber m ref = OK ref' ∧
          (ref < 0 → ref' = ref) ∧ renumbered_child tree ls c ref'.
Proof.
  intros Hwf Hmap Hc [(Hleaf & Hneg & Hin)|[Hleaf ->]]; unfold renumber.
  - destruct (Z.leb_spec 0 ref); [lia|]. exists ref. split_and!; [done..|].
    by left.
  - destruct (Z.leb_spec 0 c); [|lia].
    pose proof (zipped_length tree Hwf) as Hlen.
    destruct (lookup_lt_is_Some_2 (zipped tree) (Z.to_nat c))
      as [item Hitem]; [lia|].
    assert ((c, item) ∈ inner_items tree) as Hinner
      by (apply elem_of_inner_items; split_and!; [lia | done..]).
    apply list_elem_of_lookup in Hinner as [k Hk].
    assert (m !! c = Some (Z.of_nat k)) as ->.
    { apply Hmap. split; [lia|]. exists item. by rewrite Nat2Z.id. }
    exists (Z.of_nat k). split_and!; [done | lia |]. right.
    split_and!; [done | lia |]. exists item. by rewrite Nat2Z.id.
Qed.

Lemma renumber_all (tree : Tree) (ls : list Leaf) (m : gmap Z Z)
    (items : list (Z * (Z * Z * Z * float64))) (dn : list Node) :
  well_formed tree →
  (∀ c k, m !! c = Some k ↔
          0 ≤ k ∧ ∃ item, inner_items tree !! Z.to_nat k = Some (c, item)) →
  Forall (λ x, x ∈ inner_items tree) items →
  Forall2 (placed tree ls) items dn →
  ∃ dn',
    map_result (renumber_node m) dn = OK dn' ∧
    Forall2 (λ x n',
               let '(_, (c_left, c_right, _, _)) := x in
               renumbered_child tree ls c_left (node_left n') ∧
               renumbered_child tree ls c_right (node_right n')) items dn' ∧
    Forall2 (λ n n', (node_left n < 0 → node_left n' = node_left n) ∧
                     (node_right n < 0 → node_right n' = node_right n))
            dn dn'.
Proof.
  intros Hwf Hmap Hitems Hplaced.
  induction Hplaced as [|[no [[[cl cr] f] t]] n items dn [Hl Hr] _ IH].
  - exists []. by split_and!.
  - apply Forall_cons_iff in Hitems as [Hx Hitems].
    destruct (IH Hitems) as (dn' & Hdn' & Hres & Hneg).
    destruct (child_range _ _ _ _ _ _ Hwf Hx) as [Hcl Hcr].
    destruct (renumber_placed tree ls m cl _ Hwf Hmap Hcl Hl)
      as (l' & Hl' & Hlneg & Hlres).
    destruct (renumber_placed tree ls m cr _ Hwf Hmap Hcr Hr)
      as (r' & Hr' & Hrneg & Hrres).
    exists (mkNode (node_feature n) (node_th n) l' r' :: dn').
    assert (renumber_node m n
            = OK (mkNode (node_feature n) (node_th n) l' r')) as Hn
      by (unfold renumber_node; by rewrite Hl', Hr').
    cbn [map_result]. rewrite Hn.
    cbn [mbind result_bind]. rewrite Hdn'. cbn [mbind result_bind].
    split_and!; [done | |].
    + constructor; [|done]. by cbn.
    + constructor; [|done]. by cbn.
Qed.

Lemma Forall2_elem_of_r {A B} (R : A → B → Prop) (xs : list A) (ys : list B)
    (y : B) :
  Forall2 R xs ys → y ∈ ys → ∃ x, x ∈ xs ∧ R x y.
Proof.
  intros H Hy. apply list_elem_of_lookup in Hy as [k Hk].
  destruct (Forall2_lookup_r _ _ _ _ _ H Hk) as (x & Hx & HR).
  exists x. split; [|done]. by eapply list_elem_of_lookup_2.
Qed.

Lemma Forall2_elem_of_l {A B} (R : A → B → Prop) (xs : list A) (ys : list B)
    (x : A) :
  Forall2 R xs ys → x ∈ xs → ∃ y, y ∈ ys ∧ R x y.
Proof.
  intros H Hx. apply list_elem_of_lookup in Hx as [k Hk].
  destruct (Forall2_lookup_l _ _ _ _ _ H Hk) as (y & Hy & HR).
  exists y. split; [|done]. by eapply list_elem_of_lookup_2.
Qed.

(** The renumbered decision nodes and the leaves of a well-formed tree are
    accepted by the validator. *)
Lemma renumbered_accepted (tree : Tree) (ls : list Leaf) (dn dn' : list Node) :
  well_formed tree →
  Forall2 (λ x n',
             let '(_, (c_left, c_right, _, _)) := x in
             renumbered_child tree ls c_left (node_left n') ∧
             renumbered_child tree ls c_right (node_right n'))
          (inner_items tree) dn' →
  Forall2 (λ n n', (node_left n < 0 → node_left n' = node_left n) ∧
                   (node_right n < 0 → node_right n' = node_right n))
          dn dn' →
  (∀ j, 0 ≤ j < len ls →
        ∃ n, n ∈ dn ∧ (node_left n = - j - 1 ∨ node_right n = - j - 1)) →
  references_accepted dn' ls [0].
Proof.
  intros Hwf Hres Hneg Hused.
  pose proof (Forall2_length Hres) as Hlen.
  pose proof Hwf as (_ & _ & _ & _ & _ & _ & _ & Hperm).
  assert (Hin : ∀ c ref, renumbered_child tree ls c ref → 0 ≤ ref →
                         ref < len dn').
  { intros c ref [(_ & ? & _)|(_ & _ & item & Hk)] H0; [lia|].
    apply lookup_lt_Some in Hk. unfold len. lia. }
  assert (Hleaf : ∀ c ref, renumbered_child tree ls c ref → ref < 0 →
                           - ref - 1 < len ls).
  { intros c ref [(_ & _ & ?)|(_ & ? & _)] H0; [done | lia]. }
  split_and!.
  - intros n' Hn' H0.
    destruct (Forall2_elem_of_r _ _ _ _ Hres Hn')
      as ([no [[[cl cr] f] t]] & _ & Hl & _). by eapply Hin.
  - intros n' Hn' H0.
    destruct (Forall2_elem_of_r _ _ _ _ Hres Hn')
      as ([no [[[cl cr] f] t]] & _ & _ & Hr). by eapply Hin.
  - intros i Hi. destruct (decide (i = 0)) as [->|Hi0]; [right; by left|].
    left.
    destruct (lookup_lt_is_Some_2 (inner_items tree) (Z.to_nat i))
      as [[c item] Hitem]; [unfold len in Hi; lia|].
    assert (c ≠ 0) as Hc0.
    { intros ->. apply inner_items_first in Hitem. lia. }
    pose proof (list_elem_of_lookup_2 _ _ _ Hitem) as Hc.
    apply elem_of_inner_items in Hc as (Hc & Hz & Hcleaf).
    apply lookup_lt_Some in Hz. rewrite (zipped_length tree Hwf) in Hz.
    assert (c ∈ child_slots tree) as Hslot
      by (rewrite Hperm; apply elem_of_seqZ; lia).
    apply elem_of_slots_of in Hslot as (no & cl & cr & f & t & Hx & Hchild).
    destruct (Forall2_elem_of_l _ _ _ _ Hres Hx) as (n' & Hn' & Hl & Hr).
    exists n'. split; [done|].
    assert (Hpos : ∀ ref, renumbered_child tree ls c ref → ref = i).
    { intros ref [(Hleaf' & _)|(_ & H0 & item' & Hk)]; [congruence|].
      pose proof (inner_items_lookup_inj _ _ _ _ _ _ Hk Hitem). lia. }
    destruct Hchild as [->| ->]; [left | right]; by apply Hpos.
  - intros n' Hn' H0.
    destruct (Forall2_elem_of_r _ _ _ _ Hres Hn')
      as ([no [[[cl cr] f] t]] & _ & Hl & _). by eapply Hleaf.
  - intros j Hj. destruct (Hused j Hj) as (n & Hn & Href).
    destruct (Forall2_elem_of_l _ _ _ _ Hneg Hn) as (n' & Hn' & Hl & Hr).
    exists n'. split; [done|].
    destruct Href as [Href|Href]; [left|right]; rewrite <- Href.
    + apply Hl. lia.
    + apply Hr. lia.
Qed.

Lemma flatten_tree_total (tree : Tree) (leaf : string) (leaf_bits : Z) :
  well_formed tree → payloads_available tree leaf leaf_bits →
  ∃ decision_nodes leaf_nodes,
    flatten_tree tree leaf leaf_bits = OK (decision_nodes, leaf_nodes) ∧
    len decision_nodes = len (inner_items tree).
Proof.
  intros Hwf Hpay.
  destruct (scan_total tree leaf leaf_bits Hwf Hpay)
    as ([[dn ls] m] & Hloop & Hnodes & Hmap & Hcount & Hused).
  fold (inner_items tree) in Hnodes, Hmap, Hcount.
  cbn [fst snd] in Hnodes, Hmap, Hcount, Hused.
  destruct (renumber_all tree ls m (inner_items tree) dn Hwf Hmap)
    as (dn' & Hrenumber & Hres & Hneg);
    [apply Forall_forall; intros x Hx; by apply list_elem_of_In | done |].
  pose proof (renumbered_accepted tree ls dn dn' Hwf Hres Hneg Hused) as Hvalid.
  apply assert_node_references_valid_OK in Hvalid.
  pose proof (Forall2_length Hres) as Hlen.
  pose proof (inner_count tree Hwf) as Htotal.
  pose proof Hwf as (Hv & Hshape & _ & _ & _ & _ & _ & Hperm).
  fold (child_slots tree) in Hcount.
  assert (length (filter (λ c, is_leaf_at tree c = true) (child_slots tree))
          = length (filter (λ c, is_leaf_at tree c = true)
                           (seqZ 1 (node_count tree - 1)))) as Hleaves
    by (apply Permutation_length; by rewrite Hperm).
  exists dn', ls. split; [|unfold len; lia].
  unfold flatten_tree. rewrite <- Hv, Hshape, !Z.eqb_refl.
  cbn [Z.eqb Pos.eqb py_assert mbind result_bind].
  rewrite Hloop. cbn [mbind result_bind]. rewrite Hrenumber.
  cbn [mbind result_bind].
  destruct (Z.eqb_spec (len dn' + len ls) (node_count tree)) as [_|Hne];
    [|unfold len in *; lia].
  cbn [py_assert mbind result_bind]. by rewrite Hvalid.
Qed.

(** X22. [flatten_tree] returns on every well-formed source tree whose
    leaf payloads can be computed: a tree whose five arrays have
    [node_count] entries, with one output, whose node 0 is not a leaf and
    whose nodes 1, 2, ... are each the child of one inner node on one side.
    The result has one decision node for each inner node, and decision
    nodes and leaves together are as many as the nodes of the tree. *)
Theorem flatten_tree_returns (tree : Tree) (leaf : string) (leaf_bits : Z) :
  well_formed tree → payloads_available tree leaf leaf_bits →
  ∃ decision_nodes leaf_nodes,
    flatten_tree tree leaf leaf_bits = OK (decision_nodes, leaf_nodes) ∧
    len decision_nodes = len (inner_items tree) ∧
    len decision_nodes + len leaf_nodes = node_count tree.
Proof.
  intros Hwf Hpay.
  destruct (flatten_tree_total tree leaf leaf_bits Hwf Hpay)
    as (dn & ls & H & Hlen).
  exists dn, ls. split_and!; [done..|].
  by apply flatten_tree_accepted in H as [_ Hcount].
Qed.

Lemma well_formed_A : well_formed tree_A.
Proof.
  unfold well_formed. split_and!; reflexivity.
Qed.

Lemma payloads_available_A : payloads_available tree_A "argmax" 8.
Proof.
  intros c Hc _. change (node_count tree_A) with 3 in Hc.
  assert (c = 0 ∨ c = 1 ∨ c = 2) as [->|[->| ->]] by lia;
    eexists; vm_compute; reflexivity.
Qed.

Lemma flatten_tree_returns_witness :
  well_formed tree_A ∧ payloads_available tree_A "argmax" 8 ∧
  ∃ decision_nodes leaf_nodes,
    flatten_tree tree_A "argmax" 8 = OK (decision_nodes, leaf_nodes) ∧
    len decision_nodes = len (inner_items tree_A) ∧
    len decision_nodes + len leaf_nodes = node_count tree_A.
Proof.
  split; [apply well_formed_A|]. split; [apply payloads_available_A|].
  exact (flatten_tree_returns tree_A "argmax" 8 well_formed_A
           payloads_available_A).
Defined.

(** *** The wrapper on well-formed trees *)

Lemma flatten_forest_total (trees : list Tree) (leaf : string) :
  Forall (λ tree, well_formed tree ∧ payloads_available tree leaf 8) trees →
  ∃ forest, flatten_forest trees leaf = OK forest ∧
            len (nodes forest) = total_inner trees.
Proof.
  intros Htrees. rewrite flatten_forest_flats.
  assert (∃ flats,
            map_result (λ tree, flatten_tree tree leaf 8) trees = OK flats ∧
            foldr (λ flat total, len flat.1 + total) 0 flats
              = total_inner trees) as (flats & -> & Hlen).
  { induction Htrees as [|tree trees [Hwf Hpay] _ (flats & Hflats & Hlen)].
    - by exists [].
    - destruct (flatten_tree_total tree leaf 8 Hwf Hpay)
        as (dn & ls & Hflat & Hdn).
      exists ((dn, ls) :: flats). cbn [map_result]. rewrite Hflat.
      cbn [mbind result_bind]. rewrite Hflats. cbn [mbind result_bind].
      split; [done|]. cbn [foldr total_inner fst].
      fold (total_inner trees). lia. }
  cbn [mbind result_bind]. eexists. split; [done|].
  unfold concat_forest. cbn [nodes]. by rewrite concat_offset_length.
Qed.

(** X23. What the forest building of [Wrapper.__init__] does on well-formed
    trees of a classifier or regressor whose leaf payloads can be computed,
    by the number of inner nodes of the trees together: with none it raises
    [ZeroDivisionError]; with 1 to 2^15 it returns a forest; with more it
    raises a [ValueError]. *)
Theorem Wrapper_forest_outcome (regressor : bool) (trees : list Tree) :
  Forall (λ tree,
            well_formed tree ∧
            payloads_available tree (if regressor then "value" else "argmax") 8)
         trees →
  (total_inner trees = 0 →
   Wrapper_forest regressor trees = Raise ZeroDivisionError) ∧
  (1 ≤ total_inner trees ≤ 2 ^ 15 →
   ∃ forest_, Wrapper_forest regressor trees = OK forest_) ∧
  (2 ^ 15 < total_inner trees →
   ∃ msg, Wrapper_forest regressor trees = Raise (ValueError msg)).
Proof.
  intros Htrees.
  destruct (flatten_forest_total _ _ Htrees) as (merged & Hmerge & Hlen).
  pose proof (flatten_forest_valid _ _ _ Hmerge) as Hvalid.
  assert (scalar_leaves (leaves merged)) as Hscalar.
  { eapply flatten_forest_scalar; [|exact Hmerge].
    destruct regressor; [by right | by left]. }
  unfold Wrapper_forest. rewrite Hmerge. cbn [mbind result_bind].
  assert (Hreturns : total_inner trees ≠ 0 →
            ∃ forest_, remove_duplicate_leaves merged = OK forest_ ∧
                       len (nodes forest_) = total_inner trees).
  { intros Hne.
    destruct (remove_duplicate_leaves_returns merged Hvalid) as [forest_ H];
      [|done|].
    - intros Hnil. rewrite Hnil in Hlen. by apply Hne.
    - exists forest_. split; [done|].
      by rewrite (remove_duplicate_leaves_nodes_length _ _ H). }
  split_and!.
  - intros H0. rewrite H0 in Hlen.
    assert (nodes merged = []) as Hnil
      by (destruct (nodes merged); [done | unfold len in Hlen; simpl in Hlen; lia]).
    pose proof (valid_without_nodes_has_no_leaves merged Hnil Hvalid) as Hnone.
    destruct merged as [ns rs ls]. simpl in Hnil, Hnone. subst ns ls.
    reflexivity.
  - intros Hk. destruct Hreturns as (forest_ & -> & Hnodes); [lia|].
    cbn [mbind result_bind]. unfold Wrapper_check_nodes. rewrite Hnodes.
    destruct (Z.gtb_spec (total_inner trees) (2 ^ 15)); [lia|].
    cbn [mbind result_bind]. eauto.
  - intros Hk. destruct Hreturns as (forest_ & -> & Hnodes); [lia|].
    cbn [mbind result_bind]. unfold Wrapper_check_nodes. rewrite Hnodes.
    destruct (Z.gtb_spec (total_inner trees) (2 ^ 15)); [|lia].
    cbn [mbind result_bind]. eauto.
Qed.

Lemma Wrapper_forest_outcome_witness :
  total_inner [tree_A; tree_A] = 2 ∧
  ∃ forest_, Wrapper_forest false [tree_A; tree_A] = OK forest_.
Proof.
  assert (Hk : total_inner [tree_A; tree_A] = 2) by reflexivity.
  split; [exact Hk|].
  apply (Wrapper_forest_outcome false [tree_A; tree_A]).
  - repeat (apply Forall_cons;
            [split; [apply well_formed_A | apply payloads_available_A]|]).
    apply Forall_nil.
  - rewrite Hk. lia.
Defined.
